(** * Symbolic GR(1) games: Streett(1) and Rabin(1) solvers and transducers

    A shallow embedding of [omega/games/gr1.py].  The functions of that
    module are transcribed as Rocq functions over a model of the symbolic
    layer they call (the BDD manager, [symbolic.Automaton], [fx.step] and
    [fx.trap]), which is not part of the sources and is modelled from the
    specification. *)

From Stdlib Require Import Ascii String.
From stdpp Require Import base gmap sets list strings pretty.

#[local] Set Warnings "-clear-no-such-hyp".
#[local] Set Warnings "-register-all".

Open Scope string_scope.
Open Scope list_scope.
Open Scope stdpp_scope.

(** ** Results of a Python call *)

Inductive exn := AssertionError | ValueError | IndexError.

(** [OutOfFuel] is not a Python outcome: it marks a [while] loop that was
    cut off by the fuel of the model. *)
Inductive result (A : Type) : Type :=
  | Ok (a : A)
  | Raise (e : exn)
  | OutOfFuel.
Arguments Ok {A} a.
Arguments Raise {A} e.
Arguments OutOfFuel {A}.

Definition rbind {A B} (m : result A) (f : A → result B) : result B :=
  match m with
  | Ok a => f a
  | Raise e => Raise e
  | OutOfFuel => OutOfFuel
  end.

#[global] Instance exn_eq_dec : EqDecision exn.
Proof. solve_decision. Defined.
#[global] Instance result_eq_dec {A} `{EqDecision A} : EqDecision (result A).
Proof. solve_decision. Defined.

#[global] Instance result_ret : MRet result := λ A a, Ok a.
#[global] Instance result_bind : MBind result := λ A B f m, rbind m f.

(** [for x in xs: acc = f(acc, x)] with a body that may raise. *)
Fixpoint for_each {A S} (f : S → A → result S) (xs : list A) (acc : S)
  : result S :=
  match xs with
  | [] => Ok acc
  | x :: xs' => acc' ← f acc x; for_each f xs' acc'
  end.

(** ** The BDD kernel *)

(** Modelled from the spec: the BDD kernel interface (constants, boolean
    connectives, quantification over a named variable list, substitution
    of primed for unprimed variables, equality of nodes, [support]).  The
    manager is missing from the sources.  A node has the semantic type of
    a total Boolean function of the declared variables; it is held here in
    canonical form, as the set of its satisfying assignments, an
    assignment being the set of the declared variables it sets to 1.
    Equality of nodes is then equality of sets. *)
Abbreviation assignment := (gset string) (only parsing).
Abbreviation pred := (gset (gset string)) (only parsing).

(** Modelled from the spec: the assignments to the variables [vs], which
    quantification over [vs] ranges over. *)
Fixpoint assignments (vs : list string) : list assignment :=
  match vs with
  | [] => [∅]
  | v :: vs' => let r := assignments vs' in r ++ (({[v]} ∪.) <$> r)
  end.

(** Modelled from the spec: the constants ⊤ and ⊥ and the negation of
    the kernel.  ⊤ holds every assignment to the declared variables [D];
    the other connectives are the union and the intersection of sets. *)
Definition bdd_true (D : list string) : pred := list_to_set (assignments D).
Definition bdd_false : pred := ∅.
Definition bdd_not (D : list string) (u : pred) : pred := bdd_true D ∖ u.

(** Modelled from the spec: quantification over a named variable list.
    [override vs a b] is [a] with its values on [vs] replaced by those of
    [b]. *)
Definition override (vs : list string) (a b : assignment) : assignment :=
  (a ∖ list_to_set vs) ∪ b.

Definition bdd_exist (D vs : list string) (u : pred) : pred :=
  filter (λ a, Exists (λ b, override vs a b ∈ u) (assignments vs))
         (bdd_true D).

Definition bdd_forall (D vs : list string) (u : pred) : pred :=
  filter (λ a, Forall (λ b, override vs a b ∈ u) (assignments vs))
         (bdd_true D).

(** Modelled from the spec: the primed flavor of a variable, which
    denotes its next-state value.  A variable is primed when its name
    ends with a quote. *)
Fixpoint is_primed (s : string) : bool :=
  match s with
  | EmptyString => false
  | String c EmptyString => bool_decide (c = "'"%char)
  | String _ s' => is_primed s'
  end.

Definition prime_name (s : string) : string := s +:+ "'".

(** Modelled from the spec: substitution of primed for unprimed
    variables.  [primed_view D a] is the assignment that a primed node
    reads in [a]: every unprimed variable takes the value of its primed
    twin, primed variables are kept. *)
Definition primed_view (D : list string) (a : assignment) : assignment :=
  list_to_set
    (filter (λ x, (if is_primed x then x else prime_name x) ∈ a) D).

Definition bdd_prime (D : list string) (u : pred) : pred :=
  filter (λ a, primed_view D a ∈ u) (bdd_true D).

(** Modelled from the spec: the [support] query, the variables a node
    depends on; [flip v a] changes the value of [v] in [a]. *)
Definition flip (v : string) (a : assignment) : assignment :=
  if decide (v ∈ a) then a ∖ {[v]} else a ∪ {[v]}.

Definition bdd_support (D : list string) (u : pred) : list string :=
  filter (λ v, Exists (λ a, ¬ (a ∈ u ↔ flip v a ∈ u)) (assignments D)) D.

(** ** The compiled game *)

(** Modelled from the spec: the compiled game object of section 3
    ([symbolic.Automaton], missing from the sources), with the dictionary
    attributes that [gr1.py] reads and writes.  [F] is the type of the
    formulas it holds: BDD nodes once compiled, strings before.  A game
    defines every key that [gr1.py] reads ("env" and "sys" of [init] and
    [action], the four variable lists, the two lists of [win]); they are
    read with [!!!].  The keys that the transducers write are new. *)
Inductive domain := Bool | Range (lo hi : Z).

Record var_decl := VarDecl { owner : string; dom : domain }.

Record Automaton (F : Type) := MkAutomaton {
  bdd : list string;                  (* aut.bdd.vars *)
  vars : gmap string var_decl;        (* aut.vars *)
  varlist : gmap string (list string);(* aut.varlist *)
  init : gmap string F;               (* aut.init *)
  action : gmap string F;             (* aut.action *)
  win : gmap string (list F);         (* aut.win *)
  moore : bool;
  plus_one : bool;
  qinit : string
}.
Arguments MkAutomaton {F}.
Arguments bdd {F}.
Arguments vars {F}.
Arguments varlist {F}.
Arguments init {F}.
Arguments action {F}.
Arguments win {F}.
Arguments moore {F}.
Arguments plus_one {F}.
Arguments qinit {F}.

Abbreviation game := (Automaton (gset (gset string))) (only parsing).

Definition set_bdd {F} (D : list string) (aut : Automaton F) : Automaton F :=
  MkAutomaton D (vars aut) (varlist aut) (init aut) (action aut) (win aut)
              (moore aut) (plus_one aut) (qinit aut).
Definition set_vars {F} (v : gmap string var_decl) (aut : Automaton F)
  : Automaton F :=
  MkAutomaton (bdd aut) v (varlist aut) (init aut) (action aut) (win aut)
              (moore aut) (plus_one aut) (qinit aut).
Definition set_varlist {F} (v : gmap string (list string))
    (aut : Automaton F) : Automaton F :=
  MkAutomaton (bdd aut) (vars aut) v (init aut) (action aut) (win aut)
              (moore aut) (plus_one aut) (qinit aut).
Definition set_init {F} (i : gmap string F) (aut : Automaton F)
  : Automaton F :=
  MkAutomaton (bdd aut) (vars aut) (varlist aut) i (action aut) (win aut)
              (moore aut) (plus_one aut) (qinit aut).
Definition set_action {F} (a : gmap string F) (aut : Automaton F)
  : Automaton F :=
  MkAutomaton (bdd aut) (vars aut) (varlist aut) (init aut) a (win aut)
              (moore aut) (plus_one aut) (qinit aut).
Definition set_win {F} (w : gmap string (list F)) (aut : Automaton F)
  : Automaton F :=
  MkAutomaton (bdd aut) (vars aut) (varlist aut) (init aut) (action aut) w
              (moore aut) (plus_one aut) (qinit aut).

(** Modelled from the spec: the methods of a compiled game that delegate
    to its manager ([aut.true], [aut.false], [~ u], [aut.exist],
    [aut.forall], [aut.support]). *)
Definition aut_true (aut : game) : pred := bdd_true (bdd aut).
Definition aut_false (aut : game) : pred := bdd_false.
Definition aut_not (aut : game) (u : pred) : pred := bdd_not (bdd aut) u.
Definition aut_exist (vs : list string) (u : pred) (aut : game) : pred :=
  bdd_exist (bdd aut) vs u.
Definition aut_forall (vs : list string) (u : pred) (aut : game) : pred :=
  bdd_forall (bdd aut) vs u.
Definition aut_support (u : pred) (aut : game) : list string :=
  bdd_support (bdd aut) u.

(** Modelled from the spec: [sym_bdd.prime] and [is_state_predicate] of
    [omega.symbolic.bdd], missing from the sources: the substitution of
    primed for unprimed variables, and the test that the support of a
    node holds unprimed variables only. *)
Definition prime (u : pred) (aut : game) : pred := bdd_prime (bdd aut) u.

(** Modelled from the spec: [is_state_predicate], "support is unprimed
    only". *)
Definition is_state_predicate (D : list string) (u : pred) : bool :=
  forallb (λ v, negb (is_primed v)) (bdd_support D u).

(** ** Loops *)

(** The loop
<<
    x = x0; xold = None
    while x != xold:
        xold = x
        body
>>
    of the solvers.  [cur] reads [x] in the loop state; the first test
    compares a node with [None] and always passes, so [body] runs once at
    least; afterwards the loop stops as soon as [body] leaves [x] as it
    found it. *)
Fixpoint while_changed {St : Type} (fuel : nat) (cur : St → pred)
    (body : St → result St) (s : St) : result St :=
  match fuel with
  | O => OutOfFuel
  | S fuel' =>
      s' ← body s;
      if decide (cur s' = cur s) then Ok s'
      else while_changed fuel' cur body s'
  end.

(** [enumerate(xs)] *)
Definition enumerate {A} (xs : list A) : list (nat * A) :=
  zip (seq 0 (length xs)) xs.

(** ** Predecessor operators and fixpoints of [omega.symbolic.fixpoint] *)

Module fx.

(** Modelled from the spec: [fx.step], the controllable predecessor
    [CPre] of section 4.1, missing from the sources.  It has the
    structure of [_controllable_action], and quantifies the primed
    variables of both players: a Moore system picks its move before it
    sees the environment's, a Mealy system after. *)
Definition step (env_action sys_action target : pred) (aut : game) : pred :=
  let u := prime target aut in
  let u := if plus_one aut
           then (u ∪ aut_not aut env_action) ∩ sys_action
           else (u ∩ sys_action) ∪ aut_not aut env_action in
  if moore aut
  then aut_exist (varlist aut !!! "sys'")
         (aut_forall (varlist aut !!! "env'") u aut) aut
  else aut_forall (varlist aut !!! "env'")
         (aut_exist (varlist aut !!! "sys'") u aut) aut.

(** Modelled from the spec: [fx.trap], missing from the sources: "the
    greatest fixpoint of λx. (CPre(x) ∨ unless) ∧ safe" of section 4.2,
    computed by iteration from ⊤ until the iterate is stable. *)
Definition trap (fuel : nat) (env_action sys_action safe : pred)
    (aut : game) (unless : pred) : result pred :=
  while_changed fuel id
    (λ q, Ok ((step env_action sys_action q aut ∪ unless) ∩ safe))
    (aut_true aut).

End fx.

(** ** [omega.games.gr1]: attractors *)

Definition _attractor_under_assumptions (fuel : nat) (goal : pred)
    (aut : game)
  : result (pred * list pred * list (list pred)) :=
  let env_action := action aut !!! "env" in
  let sys_action := action aut !!! "sys" in
  let xjk := [] in
  let yj := [] in
  let y := aut_false aut in
  while_changed fuel (λ '(y, _, _), y)
    (λ '(y, yj, xjk),
       let cox_y := fx.step env_action sys_action y aut in
       let unless := cox_y ∪ goal in
       let xk := [] in
       '(y, xk) ←
         for_each (λ '(y, xk) safe,
                     x ← fx.trap fuel env_action sys_action safe aut unless;
                     Ok (y ∪ x, xk ++ [x]))
                  (win aut !!! "<>[]") (y, xk);
       Ok (y, yj ++ [y], xjk ++ [xk]))
    (y, yj, xjk).

Definition _attractor_inside (fuel : nat) (inside goal : pred) (aut : game)
  : result (pred * list pred) :=
  let env_action := action aut !!! "env" in
  let sys_action := action aut !!! "sys" in
  let xr := [] in
  let x := aut_false aut in
  while_changed fuel fst
    (λ '(x, xr),
       let xold := x in
       let cox_x := fx.step env_action sys_action x aut in
       let x := cox_x ∪ goal in
       let x := x ∩ inside in
       let x := x ∪ xold in
       Ok (x, xr ++ [x]))
    (x, xr).

Definition _cycle_inside (fuel : nat) (z hold : pred) (aut : game)
  : result (pred * list (list pred)) :=
  let env_action := action aut !!! "env" in
  let sys_action := action aut !!! "sys" in
  let cox_z := fx.step env_action sys_action z aut in
  let g := cox_z ∪ hold in
  let y := aut_true aut in
  while_changed fuel fst
    (λ '(y, _),
       let cox_y := fx.step env_action sys_action y aut in
       let inside := cox_y ∩ g in
       let xjr := [] in
       for_each (λ '(y, xjr) goal,
                   '(x, xr) ← _attractor_inside fuel inside goal aut;
                   Ok (y ∩ x, xjr ++ [xr]))
                (win aut !!! "[]<>") (y, xjr))
    (y, []).

(** ** [omega.games.gr1]: controllable actions *)

Definition _controllable_action (target : pred) (aut : game) : pred :=
  let env_action := action aut !!! "env" in
  let sys_action := action aut !!! "sys" in
  let u := prime target aut in
  let u := if plus_one aut
           then (* sys_action /\ (env_action => target') *)
             let u := u ∪ aut_not aut env_action in
             u ∩ sys_action
           else (* env_action => (sys_action /\ target') *)
             let u := u ∩ sys_action in
             u ∪ aut_not aut env_action in
  let u := if moore aut
           then (* \A uvars' *)
             aut_forall (varlist aut !!! "env'") u aut
           else u in
  u.

(** ** [omega.games.gr1]: realizability *)

(** The warnings and the diagnostic that [is_realizable] prints go to the
    standard output and leave the game as it is; they are not modelled. *)
Definition is_realizable (z : pred) (aut : game) : result bool :=
  let env_init := init aut !!! "env" in
  let sys_init := init aut !!! "sys" in
  let sys_action := action aut !!! "sys" in
  let evars := varlist aut !!! "sys" in
  let uvars := varlist aut !!! "env" in
  (* common errors *)
  if decide (env_init = aut_false aut) then Raise AssertionError else
  (* realizable ? *)
  let qinit := qinit aut in
  if decide (qinit = "\A \A") then
    (* \A env, sys:  env_init => (sys_init /\ z) *)
    let u := sys_init ∩ z in
    let u := u ∪ aut_not aut env_init in
    let r := bool_decide (u = aut_true aut) in
    Ok r
  else if decide (qinit = "\E \E") then
    (* \E env, sys:  env_init /\ sys_init /\ z *)
    let u := sys_init ∩ z in
    let u := u ∩ env_init in
    let u := aut_exist (evars ++ uvars) u aut in
    let r := bool_decide (u = aut_true aut) in
    Ok r
  else if decide (qinit = "\A \E") then
    if moore aut then Raise AssertionError else
    (* \A env:  \E sys:  (\E sys:  env_init) => ... *)
    let a := aut_exist evars env_init aut in
    let u := sys_init ∩ z in
    let u := u ∩ env_init in
    let u := u ∪ aut_not aut a in
    let u := aut_exist evars u aut in
    let u := aut_forall uvars u aut in
    let r := bool_decide (u = aut_true aut) in
    Ok r
  else if decide (qinit = "\E \A") then
    (* \E sys:  \A env:  (\E sys:  env_init) => ... *)
    let a := aut_exist evars env_init aut in
    let u := sys_init ∩ z in
    let u := u ∩ env_init in
    let u := u ∪ aut_not aut a in
    let u := aut_forall uvars u aut in
    let u := aut_exist evars u aut in
    let r := bool_decide (u = aut_true aut) in
    Ok r
  else Raise ValueError.

(** [_warn_moore_mealy] only prints and returns a flag that its callers
    drop. *)
Definition _warn_moore_mealy (aut : game) : bool :=
  let env_action := action aut !!! "env" in
  let sys_action := action aut !!! "sys" in
  let moore := moore aut in
  let env_support := aut_support env_action aut in
  let sys_support := aut_support sys_action aut in
  let env_depends_on_primed_sys :=
    filter (.∈ varlist aut !!! "sys'") env_support in
  let sys_depends_on_primed_env :=
    filter (.∈ varlist aut !!! "env'") sys_support in
  let r := true in
  let r := if moore && bool_decide (sys_depends_on_primed_env ≠ [])
           then false else r in
  let r := if negb moore && bool_decide (env_depends_on_primed_sys ≠ [])
           then false else r in
  let r := if bool_decide (env_depends_on_primed_sys ≠ [])
           then false else r in
  r.

(** ** Functions that write to the game *)

(** A call that may mutate the game it is given: it yields its result
    together with the game as the call left it.  What was written before
    an exception stays written. *)
Definition M (A : Type) : Type := game → result A * game.

Definition m_ret {A} (a : A) : M A := λ aut, (Ok a, aut).
Definition m_bind {A B} (m : M A) (f : A → M B) : M B :=
  λ aut, match m aut with
         | (Ok a, aut') => f a aut'
         | (Raise e, aut') => (Raise e, aut')
         | (OutOfFuel, aut') => (OutOfFuel, aut')
         end.
#[global] Instance M_ret : MRet M := @m_ret.
#[global] Instance M_bind : MBind M := λ A B f m, m_bind m f.

(** Read the game, compute on it, or mutate it. *)
Definition reads {A} (f : game → A) : M A := λ aut, (Ok (f aut), aut).
Definition run {A} (f : game → result A) : M A := λ aut, (f aut, aut).
Definition modify (f : game → game) : M () := λ aut, (Ok (), f aut).
Definition assert (b : bool) : M () :=
  λ aut, (if b then Ok () else Raise AssertionError, aut).
Definition raise {A} (e : exn) : M A := λ aut, (Raise e, aut).

Definition get : M game := λ aut, (Ok aut, aut).

Definition _make_init (internal_init win : pred) : M () :=
  aut ← get;
  let qinit := qinit aut in
  (* impl qinit = '\A \A'  # we synthesize `env_init` below *)
  let a := init aut !!! "env" in
  let b := init aut !!! "sys" in
  let u := b ∩ internal_init in
  let sys_init := u ∩ win in
  (* synthesize initial predicate *)
  env_init ←
    (if bool_decide (qinit ∈ ["\A \A"; "\A \E"; "\E \E"]) then
       mret (a ∩ sys_init)
     else if decide (qinit = "\E \A") then
       let env_bound := aut_exist (varlist aut !!! "sys") a aut in
       let u := a ∩ sys_init in
       let u := u ∪ aut_not aut env_bound in
       let sys_bound := aut_forall (varlist aut !!! "env") u aut in
       mret (env_bound ∩ sys_bound)
     else raise ValueError);
  assert (bool_decide (env_init ≠ aut_false aut));;
  assert (bool_decide (sys_init ≠ aut_false aut));;
  modify (λ aut, set_init (<["impl_env" := env_init]> (init aut)) aut);;
  modify (λ aut, set_init (<["impl_sys" := sys_init]> (init aut)) aut).

(** ** Solvers and transducers *)

(** [xs[-1]], [xs[0]] *)
Definition last_item {A} (xs : list A) : result A :=
  match last xs with Some x => Ok x | None => Raise IndexError end.
Definition first_item {A} (xs : list A) : result A :=
  match xs with x :: _ => Ok x | [] => Raise IndexError end.

Section gr1.

(** The methods of [symbolic.Automaton] and the functions of
    [omega.symbolic.symbolic] that the solvers and the transducers call,
    and that are missing from the sources:
    - [build]: [aut.build()] on a compiled game, which rewrites the game
      in place (the variable lists of the primed variables);
    - [declare_variables]: [aut.declare_variables], called with the
      dictionary [vrs] as keyword arguments;
    - [add_expr]: [aut.add_expr(s)], the node of the formula [s];
    - [_assert_support_moore]: whether the assertion made by
      [symbolic._assert_support_moore(u, aut)] holds. *)
Variable build : game → game.
Variable declare_variables : list (string * (Z * Z)) → game → game.
Variable add_expr : string → game → pred.
Variable _assert_support_moore : pred → game → bool.

(** The body of the outer loop of [solve_streett_game]: one pass over the
    recurrence goals, from the value [z] found at the head of the loop. *)
Definition streett_round (fuel : nat) (env_action sys_action : pred)
    (aut : game)
  : pred * list (list pred) * list (list (list pred))
    → result (pred * list (list pred) * list (list (list pred))) :=
  λ '(z, _, _),
    let cox_z := fx.step env_action sys_action z aut in
    let xijk := [] in
    let yij := [] in
    for_each (λ '(z, yij, xijk) goal,
                let goal := goal ∩ cox_z in
                '(y, yj, xjk) ← _attractor_under_assumptions fuel goal aut;
                let z := z ∩ y in
                Ok (z, yij ++ [yj], xijk ++ [xjk]))
             (win aut !!! "[]<>") (z, yij, xijk).

Definition solve_streett_game (fuel : nat) (rank : nat)
  : M (pred * list (list pred) * list (list (list pred))) :=
  assert (bool_decide (rank = 1));;
  aut ← get;
  assert (bool_decide (bdd aut ≠ []) || bool_decide (vars aut = ∅));;
  assert (bool_decide (0 < length (win aut !!! "<>[]")));;
  assert (bool_decide (0 < length (win aut !!! "[]<>")));;
  let env_action := action aut !!! "env" in
  let sys_action := action aut !!! "sys" in
  modify build;;
  aut ← get;
  let z := aut_true aut in
  '(z, yij, xijk) ← run (λ _,
    while_changed fuel (λ '(z, _, _), z)
      (streett_round fuel env_action sys_action aut)
      (z, [], []));
  assert (is_state_predicate (bdd aut) z);;
  mret (z, yij, xijk).

(** The value of [z] at the head of the outer loop of
    [solve_streett_game] when it is reached for the [n]-th time, counting
    from 0, on the game [aut] as it comes in. *)
Fixpoint streett_Z (fuel : nat) (aut : game) (n : nat)
  : result (pred * list (list pred) * list (list (list pred))) :=
  match n with
  | O => Ok (aut_true (build aut), [], [])
  | S n' =>
      s ← streett_Z fuel aut n';
      streett_round fuel (action aut !!! "env") (action aut !!! "sys")
                    (build aut) s
  end.

(** The body of the loop of [solve_rabin_game]: one pass over the
    persistence sets, from the value [z] found at the head of the loop. *)
Definition rabin_round (fuel : nat) (aut : game)
  : pred * list pred * list (list pred) * list (list (list (list pred)))
    → result (pred * list pred * list (list pred)
              * list (list (list (list pred)))) :=
  λ '(z, zk, yki, xkijr),
    let zold := z in
    let xijr := [] in
    let yi := [] in
    '(z, yi, xijr) ←
      for_each (λ '(z, yi, xijr) hold,
                  '(y, xjr) ← _cycle_inside fuel zold hold aut;
                  let z := z ∪ y in
                  Ok (z, yi ++ [y], xijr ++ [xjr]))
               (win aut !!! "<>[]") (z, yi, xijr);
    Ok (z, zk ++ [z], yki ++ [yi], xkijr ++ [xijr]).

Definition solve_rabin_game (fuel : nat) (rank : nat)
  : M (list pred * list (list pred) * list (list (list (list pred)))) :=
  assert (bool_decide (rank = 1));;
  aut ← get;
  assert (bool_decide (bdd aut ≠ []) || bool_decide (vars aut = ∅));;
  assert (bool_decide (0 < length (win aut !!! "<>[]")));;
  assert (bool_decide (0 < length (win aut !!! "[]<>")));;
  modify build;;
  aut ← get;
  let z := aut_false aut in
  let zk := [] in
  let yki := [] in
  let xkijr := [] in
  '(z, zk, yki, xkijr) ← run (λ _,
    while_changed fuel (λ '(z, _, _, _), z) (rabin_round fuel aut)
                  (z, zk, yki, xkijr));
  assert (is_state_predicate (bdd aut) z);;
  mret (zk, yki, xkijr).

Definition make_streett_transducer (z : pred) (yij : list (list pred))
    (xijk : list (list (list pred))) : M pred :=
  let winning := z in
  r ← run (is_realizable winning);
  assert r;;
  _ ← reads _warn_moore_mealy;
  (* declare goal counter var *)
  n_goals ← reads (λ aut, length (win aut !!! "[]<>"));
  let c := "_goal" in
  let c_max := (Z.of_nat n_goals - 1)%Z in
  let vrs := [(c, (0%Z, c_max))] in
  modify (declare_variables vrs);;
  modify (λ aut,
    set_varlist (<["sys" := (varlist aut !!! "sys") ++ [c]]> (varlist aut))
                aut);;
  (* compile transducer with refined shared BDD *)
  aut ← get;
  let env_action := action aut !!! "env" in
  let sys_action := action aut !!! "sys" in
  let holds := win aut !!! "<>[]" in
  let goals := win aut !!! "[]<>" in
  (* compute strategy from iterates *)
  (* \rho_1: switch goals *)
  let rho_1 := aut_false aut in
  let rho_1 :=
    foldl (λ rho_1 '(i, goal),
             let ip := (i + 1) `mod` length goals in
             let s := "(" +:+ c +:+ " = " +:+ pretty i +:+ ") /\ (" +:+
                      c +:+ "' = " +:+ pretty ip +:+ ")" in
             let u := add_expr s aut in
             let u := u ∩ goal in
             rho_1 ∪ u)
          rho_1 (enumerate goals) in
  let zstar := _controllable_action z aut in
  let rho_1 := rho_1 ∩ zstar in
  (* \rho_2: descent in basin *)
  let rho_2 := aut_false aut in
  rho_2 ← run (λ _,
    for_each (λ rho_2 '(i, yj),
                let s := "(" +:+ c +:+ " = " +:+ pretty i +:+ ") /\ (" +:+
                         c +:+ "' = " +:+ pretty i +:+ ")" in
                let count := add_expr s aut in
                let rho_2j := aut_false aut in
                basin ← first_item yj;
                let '(rho_2j, basin) :=
                  foldl (λ '(rho_2j, basin) y,
                           (* steps leading to next basin *)
                           let ystar := _controllable_action basin aut in
                           let rim := y ∩ aut_not aut basin in
                           let u := rim ∩ ystar in
                           (rho_2j ∪ u, basin ∪ y))
                        (rho_2j, basin) (drop 1 yj) in
                let u := rho_2j ∩ count in
                Ok (rho_2 ∪ u))
             (enumerate yij) rho_2);
  (* \rho_3: persistence holds *)
  let rho_3 := aut_false aut in
  rho_3 ← run (λ _,
    for_each (λ rho_3 '(i, xjk),
                let s := "(" +:+ c +:+ " = " +:+ pretty i +:+ ") /\ (" +:+
                         c +:+ "' = " +:+ pretty i +:+ ")" in
                let count := add_expr s aut in
                let rho_3j := aut_false aut in
                let used := aut_false aut in
                '(rho_3j, used) ←
                  for_each (λ '(rho_3j, used) xk,
                              if bool_decide (length xk = length holds) then
                                Ok (foldl (λ '(rho_3j, used) '(x, hold),
                                             (* steps leading to next wait *)
                                             let xstar :=
                                               _controllable_action x aut in
                                             let stay :=
                                               x ∩ aut_not aut used in
                                             let used := used ∪ x in
                                             let u := stay ∩ xstar in
                                             let u := u ∩ hold in
                                             (rho_3j ∪ u, used))
                                          (rho_3j, used) (zip xk holds))
                              else Raise AssertionError)
                           xjk (rho_3j, used);
                let u := rho_3j ∩ count in
                Ok (rho_3 ∪ u))
             (enumerate xijk) rho_3);
  (* \rho *)
  let u := rho_1 ∪ rho_2 in
  let u := u ∪ rho_3 in
  (* counter `c` limits *)
  let s := c +:+ " \in 0.." +:+ pretty c_max in
  let u := u ∩ add_expr s aut in
  (* `sys_action` is already in the `\rho`
     next is "useful" only if `env_action` depends on `y'` *)
  let u := if negb (plus_one aut) then
             let u := u ∪ aut_not aut env_action in
             if moore aut then aut_forall (varlist aut !!! "env'") u aut
             else u
           else u in
  assert (bool_decide (u ≠ aut_false aut));;
  modify (λ aut, set_action (<["impl" := u]> (action aut)) aut);;
  ok ← reads (_assert_support_moore u);
  assert ok;;
  (* initial condition for counter
     (no closure taken for counter) *)
  let s := c +:+ " = 0" in
  count ← reads (add_expr s);
  _make_init count winning;;
  reads (λ aut, action aut !!! "impl").

Definition make_rabin_transducer (zk : list pred) (yki : list (list pred))
    (xkijr : list (list (list (list pred)))) : M pred :=
  winning ← run (λ _, last_item zk);
  r ← run (is_realizable winning);
  assert r;;
  _ ← reads _warn_moore_mealy;
  n_holds ← reads (λ aut, length (win aut !!! "<>[]"));
  n_goals ← reads (λ aut, length (win aut !!! "[]<>"));
  (* add transducer memory as two indices:
     - `w`: persistence hold index
     - `c`: recurrence goal index *)
  let w := "_hold" in
  let c := "_goal" in
  let n_w := (Z.of_nat n_holds - 1 + 1)%Z in  (* last value used as "none" *)
  let n_c := (Z.of_nat n_goals - 1)%Z in
  let vrs := [(w, (0%Z, n_w)); (c, (0%Z, n_c))] in
  modify (declare_variables vrs);;
  modify (λ aut,
    set_varlist (<["sys" := (varlist aut !!! "sys") ++ [w; c]]> (varlist aut))
                aut);;
  (* compile *)
  aut ← get;
  let env_action := action aut !!! "env" in
  let sys_action := action aut !!! "sys" in
  let goals := win aut !!! "[]<>" in
  let none := pretty n_holds in
  (* compute strategy from iterates *)
  (* \rho_1: descent in persistence basin *)
  let s := "(" +:+ c +:+ "' = " +:+ c +:+ ") /\ (" +:+
           w +:+ "' = " +:+ none +:+ ")" in
  let count := add_expr s aut in
  let rho_1 := aut_false aut in
  basin ← run (λ _, first_item zk);
  let '(rho_1, basin) :=
    foldl (λ '(rho_1, basin) z,
             let zstar := _controllable_action basin aut in
             let rim := z ∩ aut_not aut basin in
             let u := rim ∩ zstar in
             let u := u ∩ count in
             (rho_1 ∪ u, z))
          (rho_1, basin) (drop 1 zk) in
  let rho_2 := aut_false aut in
  let rho_3 := aut_false aut in
  let rho_4 := aut_false aut in
  let basin := aut_false aut in
  '(rho_2, rho_3, rho_4, basin) ← run (λ _,
    for_each (λ '(rho_2, rho_3, rho_4, basin) '(z, yi, xijr),
      let cox_basin := fx.step env_action sys_action basin aut in
      let rim := z ∩ aut_not aut basin in
      let rim := rim ∩ aut_not aut cox_basin in
      (* rho_2: pick persistence set *)
      let s := "(" +:+ c +:+ "' = " +:+ c +:+ ") /\ (" +:+
               w +:+ " = " +:+ none +:+ ")" in
      let count := add_expr s aut in
      let u := rim ∩ count in
      let v := aut_false aut in
      let v :=
        foldl (λ v '(i, y),
                 let s := w +:+ "' = " +:+ pretty i in
                 let count := add_expr s aut in
                 let ystar := _controllable_action y aut in
                 let q := count ∩ ystar in
                 v ∪ q)
              v (enumerate yi) in
      let u := u ∩ v in
      let rho_2 := rho_2 ∪ u in
      (* rho_3: descent in recurrence basin *)
      let s := "(" +:+ c +:+ "' = " +:+ c +:+ ") /\ " +:+
               "(" +:+ w +:+ " /= " +:+ none +:+ ") /\ " +:+
               "(" +:+ w +:+ "' = " +:+ w +:+ ")" in
      let count := add_expr s aut in
      let u := rim ∩ count in
      let v := aut_false aut in
      v ←
        for_each (λ v '(i, xjr),
          for_each (λ v '(j, (xr, goal)),
                      let s := "(" +:+ c +:+ " = " +:+ pretty j +:+ ") /\ " +:+
                               " (" +:+ w +:+ " = " +:+ pretty i +:+ ")" in
                      let count := add_expr s aut in
                      x_basin ← first_item xr;
                      let p := aut_false aut in
                      let '(p, x_basin) :=
                        foldl (λ '(p, x_basin) x,
                                 let xstar :=
                                   _controllable_action x_basin aut in
                                 let q := xstar ∩ aut_not aut x_basin in
                                 let q := q ∩ x in
                                 (p ∪ q, x))
                              (p, x_basin) (drop 1 xr) in
                      let p := p ∩ count in
                      let p := p ∩ aut_not aut goal in
                      Ok (v ∪ p))
                   (enumerate (zip xjr goals)) v)
          (enumerate xijr) v;
      let u := u ∩ v in
      let rho_3 := rho_3 ∪ u in
      (* rho_4: advance to next recurrence goal *)
      let u := aut_false aut in
      let u :=
        foldl (λ u '(j, goal),
                 let jp := (j + 1) `mod` length goals in
                 let s := "(" +:+ c +:+ " = " +:+ pretty j +:+ ") /\ (" +:+
                          c +:+ "' = " +:+ pretty jp +:+ ")" in
                 let count := add_expr s aut in
                 let p := count ∩ goal in
                 u ∪ p)
              u (enumerate goals) in
      let s := "(" +:+ w +:+ " /= " +:+ none +:+ ") /\ " +:+
               "(" +:+ w +:+ "' = " +:+ w +:+ ")" in
      let count := add_expr s aut in
      let u := u ∩ count in
      let u := u ∩ rim in
      let v := aut_false aut in
      let v :=
        foldl (λ v '(i, y),
                 let s := w +:+ " = " +:+ pretty i in
                 let count := add_expr s aut in
                 let ystar := _controllable_action y aut in
                 let q := count ∩ ystar in
                 v ∪ q)
              v (enumerate yi) in
      let u := u ∩ v in
      let rho_4 := rho_4 ∪ u in
      (* update *)
      let basin := z in
      Ok (rho_2, rho_3, rho_4, basin))
    (zip (zip zk yki) xkijr) (rho_2, rho_3, rho_4, basin));
  (* \rho *)
  let u := rho_1 ∪ rho_2 in
  let u := u ∪ rho_3 in
  let u := u ∪ rho_4 in
  (* counter limits *)
  let s := "(" +:+ w +:+ " \in 0.." +:+ pretty n_w +:+ ") /\ (" +:+
           c +:+ " \in 0.." +:+ pretty n_c +:+ ")" in
  let u := u ∩ add_expr s aut in
  let u := if negb (plus_one aut) then
             let u := u ∪ aut_not aut env_action in
             if moore aut then aut_forall (varlist aut !!! "env'") u aut
             else u
           else u in
  assert (bool_decide (u ≠ aut_false aut));;
  modify (λ aut, set_action (<["impl" := u]> (action aut)) aut);;
  ok ← reads (_assert_support_moore u);
  assert ok;;
  (* initial condition for counter *)
  let s := "(" +:+ c +:+ " = 0) /\ (" +:+ w +:+ " = " +:+ none +:+ ")" in
  count ← reads (add_expr s);
  _make_init count winning;;
  reads (λ aut, action aut !!! "impl").

End gr1.

(** ** The trivial winning set *)

Section trivial.

(** As in section [gr1], and for automata that still hold formulas:
    - [new_Automaton]: [symbolic.Automaton()];
    - [fill_blanks]: [symbolic.fill_blanks(aut, rabin=...)];
    - [Automaton_build]: [aut.build()], which compiles the formulas of an
      automaton to nodes of its manager. *)
Variable build : game → game.
Variable new_Automaton : Automaton string.
Variable fill_blanks : Automaton string → bool → Automaton string.
Variable Automaton_build : Automaton string → game.

(** The dual automaton that [trivial_winning_set] fills in, lines 589 to
    599: the owners of the variables are swapped, the actions of the
    players are swapped, and the recurrence goals are the negated
    persistence sets of the Streett automaton. *)
Definition rabin_dual (aut_streett : Automaton string) : Automaton string :=
  let aut_rabin := new_Automaton in
  let aut_rabin :=
    set_vars
      (((λ d, let owner := owner d in
              let owner := if decide (owner = "sys") then "env" else "sys" in
              VarDecl owner (dom d)) <$> vars aut_streett)
         ∪ vars aut_rabin)
      aut_rabin in
  let aut_rabin :=
    set_action (<["env" := action aut_streett !!! "sys"]> (action aut_rabin))
               aut_rabin in
  let aut_rabin :=
    set_action (<["sys" := action aut_streett !!! "env"]> (action aut_rabin))
               aut_rabin in
  let win' := (λ w, "!(" +:+ w +:+ ")") <$> (win aut_streett !!! "<>[]") in
  let aut_rabin := set_win (<["[]<>" := win']> (win aut_rabin)) aut_rabin in
  aut_rabin.

(** The two games that [trivial_winning_set] solves, lines 600 to 603.
    [aut_rabin.bdd = aut_streett.bdd] makes the two automata share one
    manager: what [build] declares through one of them is seen through
    the other. *)
Definition trivial_winning_set_games (aut_streett : Automaton string)
  : game * game :=
  let aut_rabin := rabin_dual aut_streett in
  let aut_rabin := fill_blanks aut_rabin true in
  let aut_rabin := set_bdd (bdd aut_streett) aut_rabin in
  let aut_streett := Automaton_build aut_streett in
  let aut_rabin := Automaton_build (set_bdd (bdd aut_streett) aut_rabin) in
  let aut_streett := set_bdd (bdd aut_rabin) aut_streett in
  (aut_streett, aut_rabin).

Definition trivial_winning_set (fuel : nat) (aut_streett : Automaton string)
  : result (pred * game) :=
  let '(aut_streett, aut_rabin) := trivial_winning_set_games aut_streett in
  (* solve *)
  match solve_streett_game build fuel 1 aut_streett with
  | (Ok (win_streett, _, _), aut_streett) =>
      let aut_rabin := set_bdd (bdd aut_streett) aut_rabin in
      match solve_rabin_game build fuel 1 aut_rabin with
      | (Ok (zk, _, _), aut_rabin) =>
          let aut_streett := set_bdd (bdd aut_rabin) aut_streett in
          win_rabin ← last_item zk;
          (* find trivial win set *)
          let trivial := win_streett ∩ aut_not aut_streett win_rabin in
          Ok (trivial, aut_streett)
      | (Raise e, _) => Raise e
      | (OutOfFuel, _) => OutOfFuel
      end
  | (Raise e, _) => Raise e
  | (OutOfFuel, _) => OutOfFuel
  end.

End trivial.

(** ** Example games *)

(** The node of a declared variable. *)
Definition bdd_var (D : list string) (v : string) : pred :=
  filter (λ a, v ∈ a) (bdd_true D).

(** Scenario 1 of the specification: one Boolean variable [x] owned by
    the system, no constraint on the moves, the goal [x = 1], the trivial
    persistence set. *)
Definition ex_D : list string := ["x"; "x'"].

Definition ex_game (q : string) : game :=
  MkAutomaton ex_D {["x" := VarDecl "sys" Bool]}
    (list_to_map [("env", []); ("sys", ["x"]);
                  ("env'", []); ("sys'", ["x'"])])
    (list_to_map [("env", bdd_true ex_D); ("sys", bdd_true ex_D)])
    (list_to_map [("env", bdd_true ex_D); ("sys", bdd_true ex_D)])
    (list_to_map [("[]<>", [bdd_var ex_D "x"]); ("<>[]", [bdd_true ex_D])])
    false true q.

(** A game with an environment variable [e] and a system variable [s],
    whose environment initial condition is [s]: it constrains a variable
    of the system. *)
Definition ex_D2 : list string := ["e"; "s"; "e'"; "s'"].

Definition ex_game2 (q : string) : game :=
  MkAutomaton ex_D2
    {["e" := VarDecl "env" Bool; "s" := VarDecl "sys" Bool]}
    (list_to_map [("env", ["e"]); ("sys", ["s"]);
                  ("env'", ["e'"]); ("sys'", ["s'"])])
    (list_to_map [("env", bdd_var ex_D2 "s"); ("sys", bdd_true ex_D2)])
    (list_to_map [("env", bdd_true ex_D2); ("sys", bdd_true ex_D2)])
    (list_to_map [("[]<>", [bdd_var ex_D2 "s"]); ("<>[]", [bdd_true ex_D2])])
    false true q.

(** A symbolic layer to run the examples with: [build] finds the game
    compiled, no variable is declared, and every formula is read as ⊤. *)
Definition ex_build : game → game := λ aut, aut.
Definition ex_declare_variables : list (string * (Z * Z)) → game → game :=
  λ _ aut, aut.
Definition ex_add_expr : string → game → pred := λ _ aut, aut_true aut.
Definition ex_assert_support_moore : pred → game → bool := λ _ _, true.

(** An automaton that still holds formulas, for [trivial_winning_set],
    and a compiler that knows its formulas. *)
Definition ex_source : Automaton string :=
  MkAutomaton ex_D {["x" := VarDecl "sys" Bool]}
    (list_to_map [("env", []); ("sys", ["x"]);
                  ("env'", []); ("sys'", ["x'"])])
    (list_to_map [("env", "True"); ("sys", "True")])
    (list_to_map [("env", "True"); ("sys", "True")])
    (list_to_map [("[]<>", ["x"]); ("<>[]", ["True"])])
    false true "\A \A".

Definition ex_new_Automaton : Automaton string :=
  MkAutomaton [] ∅ ∅
    (list_to_map [("env", ""); ("sys", "")])
    (list_to_map [("env", ""); ("sys", "")])
    (list_to_map [("[]<>", []); ("<>[]", [])])
    true true "\A \A".

Definition ex_fill_blanks (aut : Automaton string) (rabin : bool)
  : Automaton string :=
  let aut := set_init (list_to_map [("env", "True"); ("sys", "True")]) aut in
  if rabin then set_win (<["<>[]" := ["True"]]> (win aut)) aut else aut.

Definition ex_formula (D : list string) (s : string) : pred :=
  if decide (s = "x") then bdd_var D "x"
  else if decide (s = "!(True)") then bdd_false
  else bdd_true D.

Definition ex_Automaton_build (aut : Automaton string) : game :=
  let owned o :=
    filter (λ v, owner <$> vars aut !! v = Some o)
           (map_to_list (vars aut)).*1 in
  MkAutomaton ex_D (vars aut)
    (list_to_map [("env", owned "env"); ("sys", owned "sys");
                  ("env'", prime_name <$> owned "env");
                  ("sys'", prime_name <$> owned "sys")])
    (ex_formula ex_D <$> init aut)
    (ex_formula ex_D <$> action aut)
    (map (ex_formula ex_D) <$> win aut)
    (moore aut) (plus_one aut) (qinit aut).

(** ** Statements of the specification *)

(** [a ⟶ b] *)
Definition aut_implies (aut : game) (a b : pred) : pred := aut_not aut a ∪ b.

(** The controllable action as section 4.1 states it. *)
Definition CAct_spec (target : pred) (aut : game) : pred :=
  let env := action aut !!! "env" in
  let sys := action aut !!! "sys" in
  let t' := prime target aut in
  let u := if plus_one aut
           then sys ∩ aut_implies aut env t'
           else aut_implies aut env (sys ∩ t') in
  if moore aut then aut_forall (varlist aut !!! "env'") u aut else u.

(** The initial condition [init['impl_env']] under [qinit = "\E \A"] as
    the table of section 4.6 states it. *)
Definition impl_env_spec (counter_init W : pred) (aut : game) : pred :=
  let env_init := init aut !!! "env" in
  let sys_init := init aut !!! "sys" in
  let env_bound := aut_exist (varlist aut !!! "sys") env_init aut in
  let sys_bound :=
    aut_forall (varlist aut !!! "env")
      (aut_implies aut env_init ((sys_init ∩ W) ∩ counter_init)
         ∪ aut_not aut env_bound) aut in
  env_bound ∩ sys_bound.

(** The initial condition [init['impl_env']] under [qinit = "\E \A"] as
    [_make_init] computes it: the environment's initial condition is a
    conjunct, not a premise. *)
Definition impl_env_code (counter_init W : pred) (aut : game) : pred :=
  let env_init := init aut !!! "env" in
  let sys_init := init aut !!! "sys" in
  let env_bound := aut_exist (varlist aut !!! "sys") env_init aut in
  let sys_bound :=
    aut_forall (varlist aut !!! "env")
      ((env_init ∩ ((sys_init ∩ counter_init) ∩ W))
         ∪ aut_not aut env_bound) aut in
  env_bound ∩ sys_bound.

(** A chain of nodes that does not decrease along the list. *)
Definition nondecreasing (us : list pred) : Prop :=
  ∀ l u v, us !! l = Some u → us !! S l = Some v → u ⊆ v.

(** [u] does not depend on the variable [v]. *)
Definition independent (D : list string) (v : string) (u : pred) : Prop :=
  ∀ a, a ⊆ list_to_set D → a ∈ u → flip v a ∈ u.

(** [u] is a set of states: it depends on no primed variable. *)
Definition state_predicate (D : list string) (u : pred) : Prop :=
  ∀ v, v ∈ D → is_primed v → independent D v u.

(** The invariants of a compiled game that the solvers rely on: the
    lists of primed variables hold declared variables and hold every
    declared primed variable, and the recurrence and persistence sets
    are sets of states. *)
Definition compiled (aut : game) : Prop :=
  Forall (.∈ bdd aut) (varlist aut !!! "env'" ++ varlist aut !!! "sys'") ∧
  Forall (λ v, is_primed v →
               v ∈ varlist aut !!! "env'" ++ varlist aut !!! "sys'")
         (bdd aut) ∧
  Forall (λ u, is_state_predicate (bdd aut) u) (win aut !!! "[]<>") ∧
  Forall (λ u, is_state_predicate (bdd aut) u) (win aut !!! "<>[]").

(** What the solvers assert of the game they are given: an initialized
    manager, one recurrence goal and one persistence set at least. *)
Definition solvable (aut : game) : Prop :=
  (bdd aut ≠ [] ∨ vars aut = ∅) ∧
  0 < length (win aut !!! "<>[]") ∧
  0 < length (win aut !!! "[]<>").

(** ** Invariants of the loops *)

(** [_attractor_inside]: the recorded iterates form a chain inside
    [inside] that ends with the current [x]. *)
Definition attractor_inside_inv (inside : pred) (s : pred * list pred)
  : Prop :=
  nondecreasing s.2 ∧ s.1 ⊆ inside ∧
  match last s.2 with Some u => u = s.1 | None => s.1 = ∅ end.

(** [solve_rabin_game]: the recorded Z-iterates form a chain that ends
    with the current [z]. *)
Definition rabin_chain
    (s : pred * list pred * list (list pred)
         * list (list (list (list pred)))) : Prop :=
  let '(z, zk, _, _) := s in
  nondecreasing zk ∧ match last zk with Some u => u = z | None => True end.

(** Whether a call returned. *)
Definition is_Ok {A} (r : result A) : bool :=
  match r with Ok _ => true | _ => false end.

(** The value that [_make_init] computes for [init['impl_sys']], and the
    one it computes for [init['impl_env']] under a known [qinit]. *)
Definition impl_sys_code (counter_init W : pred) (aut : game) : pred :=
  ((init aut !!! "sys") ∩ counter_init) ∩ W.

(** See [impl_sys_code]; [impl_env_code] is the case [qinit = "\E \A"]. *)
Definition impl_env_value (counter_init W : pred) (aut : game) : pred :=
  if decide (qinit aut = "\E \A") then impl_env_code counter_init W aut
  else (init aut !!! "env") ∩ impl_sys_code counter_init W aut.

(** The four values of [qinit] that [gr1.py] knows. *)
Definition known_qinit (q : string) : Prop :=
  q ∈ ["\A \A"; "\A \E"; "\E \E"; "\E \A"].

(** The first pass of the loop of [_attractor_under_assumptions] over
    the persistence sets, from [y = ⊥]: it yields the first recorded
    value of [y] and the traps it is made of. *)
Definition first_basin (fuel : nat) (goal : pred) (aut : game)
  : result (pred * list pred) :=
  let env_action := action aut !!! "env" in
  let sys_action := action aut !!! "sys" in
  let unless := fx.step env_action sys_action (aut_false aut) aut ∪ goal in
  for_each (λ '(y, xk) safe,
              x ← fx.trap fuel env_action sys_action safe aut unless;
              Ok (y ∪ x, xk ++ [x]))
           (win aut !!! "<>[]") (aut_false aut, []).

(** [_attractor_under_assumptions]: the recorded Y-iterates form a chain
    that ends with the current [y] and starts with the first basin. *)
Definition basin_inv (fuel : nat) (goal : pred) (aut : game)
    (s : pred * list pred * list (list pred)) : Prop :=
  let '(y, yj, xjk) := s in
  nondecreasing yj ∧
  match last yj with
  | Some u => u = y ∧ ∃ y1 xk1, first_basin fuel goal aut = Ok (y1, xk1) ∧
                                 yj !! 0 = Some y1 ∧ xjk !! 0 = Some xk1
  | None => y = ∅ ∧ xjk = []
  end.

(** The first recorded Y-iterate of the solver on the one-variable
    game: whether it is there and is not ⊥. *)
Definition ex_first_Y_nonempty : bool :=
  match (solve_streett_game ex_build 5 1 (ex_game "\A \A")).1 with
  | Ok (_, yij, _) =>
      match yij !! 0 with
      | Some yj => bool_decide (yj ≠ [] ∧ yj !! 0 ≠ Some ∅)
      | None => false
      end
  | _ => false
  end.

(** The game [aut] with another [qinit]. *)
Definition set_qinit {F} (q : string) (aut : Automaton F) : Automaton F :=
  MkAutomaton (bdd aut) (vars aut) (varlist aut) (init aut) (action aut)
              (win aut) (moore aut) (plus_one aut) q.

(** The one-variable game whose environment starts from [x]. *)
Definition ex_game_x (q : string) : game :=
  set_init (<["env" := bdd_var ex_D "x"]> (init (ex_game q))) (ex_game q).

(** The operator that [_attractor_inside] iterates. *)
Definition attractor_inside_op (inside goal : pred) (aut : game) (p : pred)
  : pred :=
  (fx.step (action aut !!! "env") (action aut !!! "sys") p aut ∪ goal)
    ∩ inside.

(** [_attractor_inside]: the current [x] is below its image and below
    every pre-fixpoint, and it is the last recorded iterate, ⊥ before
    any is recorded. *)
Definition attractor_inside_lfp_inv (inside goal : pred) (aut : game)
    (s : pred * list pred) : Prop :=
  s.1 ⊆ attractor_inside_op inside goal aut s.1 ∧
  (∀ p, attractor_inside_op inside goal aut p ⊆ p → s.1 ⊆ p) ∧
  last (∅ :: s.2) = Some s.1.

(** The shape of the iterates that [solve_rabin_game] records, as
    [make_rabin_transducer] reads them: one entry per round in each of
    the three lists, one [y] and one list of attractors per persistence
    set in a round, one non-empty list of iterates per recurrence goal
    in each of these. *)
Definition rabin_shape (aut : game) (zk : list pred) (yki : list (list pred))
    (xkijr : list (list (list (list pred)))) : Prop :=
  length yki = length zk ∧ length xkijr = length zk ∧
  Forall (λ yi, length yi = length (win aut !!! "<>[]")) yki ∧
  Forall (λ xijr,
            length xijr = length (win aut !!! "<>[]") ∧
            Forall (λ xjr,
                      length xjr = length (win aut !!! "[]<>") ∧
                      Forall (λ xr, xr ≠ []) xjr) xijr) xkijr.

(** [solve_rabin_game]: the recorded iterates have the shape above, and
    [z] is the last recorded Z-iterate, ⊥ before any is recorded. *)
Definition rabin_inv (aut : game)
    (s : pred * list pred * list (list pred)
         * list (list (list (list pred)))) : Prop :=
  let '(z, zk, yki, xkijr) := s in
  rabin_shape aut zk yki xkijr ∧ last (∅ :: zk) = Some z.

(** [_attractor_under_assumptions]: one list of traps is recorded per
    recorded [y], with one trap per persistence set, and [y] is the last
    recorded iterate, ⊥ before any is recorded. *)
Definition basin_shape_inv (aut : game)
    (s : pred * list pred * list (list pred)) : Prop :=
  let '(y, yj, xjk) := s in
  length xjk = length yj ∧
  Forall (λ xk, length xk = length (win aut !!! "<>[]")) xjk ∧
  last (∅ :: yj) = Some y.

(** The shape of the iterates that [solve_streett_game] returns, as
    [make_streett_transducer] reads them: one list of Y-iterates and one
    list of lists of traps per recurrence goal; the Y-iterates are not
    empty, and come with one list of traps each, which holds one trap
    per persistence set. *)
Definition streett_shape (aut : game) (yij : list (list pred))
    (xijk : list (list (list pred))) : Prop :=
  length yij = length (win aut !!! "[]<>") ∧
  Forall2 (λ yj xjk,
             yj ≠ [] ∧ length xjk = length yj ∧
             Forall (λ xk, length xk = length (win aut !!! "<>[]")) xjk)
          yij xijk.

(** Whether the Streett transducer returns on the one-variable game,
    from the iterates of the example, and leaves [plus_one] set. *)
Definition ex_transducer_plus_one : bool :=
  let r := make_streett_transducer ex_declare_variables ex_add_expr
             ex_assert_support_moore (bdd_true ex_D)
             [[bdd_true ex_D; bdd_true ex_D]]
             [[[bdd_true ex_D]; [bdd_true ex_D]]] (ex_game "\A \A") in
  is_Ok r.1 && plus_one r.2.

(** A Python value as [_map_nested_lists] sees it: a list of such
    values, or an item that is not a list. *)
Inductive nested (A : Type) : Type :=
  | Item (a : A)
  | Nested (xs : list (nested A)).
Arguments Item {A} a.
Arguments Nested {A} xs.

(** [_map_nested_lists(f, x, *arg, **kw)], with the extra arguments that
    it hands on to [f] already given to [f]. *)
Fixpoint _map_nested_lists {A B} (f : A → B) (x : nested A) : nested B :=
  match x with
  | Nested xs => Nested (_map_nested_lists f <$> xs)
  | Item a => Item (f a)
  end.

(** The items of a nested list, from left to right. *)
Fixpoint items {A} (x : nested A) : list A :=
  match x with
  | Nested xs => concat (items <$> xs)
  | Item a => [a]
  end.

(** The lists of iterates of the solvers as nested lists. *)
Definition nested1 {A} (xs : list A) : nested A := Nested (Item <$> xs).
Definition nested2 {A} (xss : list (list A)) : nested A :=
  Nested (nested1 <$> xss).

Section copy_bdd.
(** BDD managers as [_copy_bdd] uses them: a manager is known by its
    identity, which [a is b] compares; [copy a u b] is the call
    [a.copy(u, b)]. *)
Context {manager : Type} `{EqDecision manager}.
Variable copy : manager → gset (gset string) → manager → gset (gset string).
(** [_copy_bdd(u, a, b)] *)
Definition _copy_bdd (u : gset (gset string)) (a b : manager)
  : gset (gset string) :=
  if decide (a = b) then u else copy a u b.
End copy_bdd.

(** The game as a transducer that returned [r] leaves it, from the game
    [aut0] in which its memory variables [mem] were declared: the
    memory variables are appended to the system's variables, [r] is
    stored as the action of the implementation, and the two initial
    conditions of the implementation are set. *)
Definition transducer_wrote (mem : list string) (r : pred) (aut0 aut' : game)
  : Prop :=
  bdd aut' = bdd aut0 ∧ vars aut' = vars aut0 ∧ win aut' = win aut0 ∧
  moore aut' = moore aut0 ∧ plus_one aut' = plus_one aut0 ∧
  qinit aut' = qinit aut0 ∧
  varlist aut' = <["sys" := varlist aut0 !!! "sys" ++ mem]> (varlist aut0) ∧
  action aut' = <["impl" := r]> (action aut0) ∧
  (∃ e s, init aut' = <["impl_sys" := s]> (<["impl_env" := e]> (init aut0))).

(** ** [omega.automata]: graphs with consistency methods *)

Module automata.

(** The exceptions that the methods below raise. *)
Inductive error := AssertionError | TypeError.

(** A call returns a value or raises. *)
Inductive outcome (A : Type) : Type :=
  | Returns (a : A)
  | Raises (e : error).
Arguments Returns {A} a.
Arguments Raises {A} e.

Definition and_then {A B} (m : outcome A) (f : A → outcome B) : outcome B :=
  match m with
  | Returns a => f a
  | Raises e => Raises e
  end.

(** [assert b] *)
Definition check (b : bool) : outcome () :=
  if b then Returns () else Raises AssertionError.

(** [for x in xs: body(x)], with a body that may raise. *)
Fixpoint for_all {A} (body : A → outcome ()) (xs : list A) : outcome () :=
  match xs with
  | [] => Returns ()
  | x :: xs' => and_then (body x) (λ _, for_all body xs')
  end.

(** The domain of a variable, as [_check_value] tells them apart: the
    string ["bool"], a tuple of two bounds, or anything else. *)
Inductive pydomain := DomBool | DomTuple (lo hi : Z) | DomOther.

(** [_check_value(v, dom)], for a value [v] that is an integer, [False]
    and [True] being the integers 0 and 1. *)
Definition _check_value (v : Z) (dom : pydomain) : outcome () :=
  match dom with
  | DomBool => check (bool_decide (v ∈ [0; 1; 0; 1]%Z))
  | DomTuple lo hi => check (bool_decide (lo ≤ v ≤ hi)%Z)
  | DomOther => Raises TypeError
  end.

(** [k[:-1]] *)
Fixpoint drop_last (k : string) : string :=
  match k with
  | EmptyString => EmptyString
  | String c EmptyString => EmptyString
  | String c k' => String c (drop_last k')
  end.

Section graphs.
(** Nodes are hashable values.  Of the [networkx.MultiDiGraph] under a
    [_SystemGraph], the methods below read the nodes and the edges with
    their attribute dictionaries. *)
Context {N : Type} `{Countable N}.
Record _SystemGraph := Mk_SystemGraph {
  node : gmap N (gmap string Z);            (* nodes_iter(data=True) *)
  edge : list (N * N * gmap string Z);      (* edges_iter(data=True) *)
  initial_nodes : gset N
}.
(** [_SystemGraph()] *)
Definition new_SystemGraph : _SystemGraph := Mk_SystemGraph ∅ [] ∅.
(** [_SystemGraph.assert_consistent] *)
Definition SystemGraph_assert_consistent (g : _SystemGraph) : outcome () :=
  check (bool_decide (initial_nodes g ⊆ base.dom (node g))).
(** [_SystemGraph.make_consistent] *)
Definition make_consistent (g : _SystemGraph) : _SystemGraph :=
  Mk_SystemGraph (node g) (edge g) (initial_nodes g ∩ base.dom (node g)).
(** [G.remove_node(u)] of [networkx]: the node goes, with its edges. *)
Definition remove_node (u : N) (g : _SystemGraph) : _SystemGraph :=
  Mk_SystemGraph (delete u (node g))
    (filter (λ e, e.1.1 ≠ u ∧ e.1.2 ≠ u) (edge g)) (initial_nodes g).
Record TransitionSystem := Mk_TransitionSystem {
  graph : _SystemGraph;
  owner : string;
  vars : gmap string pydomain;
  env_vars : gset string
}.
(** [TransitionSystem()] *)
Definition new_TransitionSystem : TransitionSystem :=
  Mk_TransitionSystem new_SystemGraph "sys" ∅ ∅.
(** The loop over the items of an attribute dictionary, in which the
    variable that a key [k] stands for is [name k]. *)
Definition check_items (vars : gmap string pydomain) (name : string → string)
    (d : gmap string Z) : outcome () :=
  for_all (λ '(k, v),
             let var := name k in
             match vars !! var with
             | Some dom => _check_value v dom
             | None => Returns ()
             end)
          (map_to_list d).
(** [TransitionSystem.assert_consistent] *)
Definition assert_consistent (ts : TransitionSystem) : outcome bool :=
  and_then (SystemGraph_assert_consistent (graph ts)) (λ _,
  and_then (check (bool_decide (owner ts ∈ ["env"; "sys"]))) (λ _,
  and_then (check (bool_decide (env_vars ts ⊆ base.dom (vars ts)))) (λ _,
  and_then (for_all (λ '(u, d), check_items (vars ts) id d)
                    (map_to_list (node (graph ts)))) (λ _,
  and_then (for_all (λ '(u, v, d),
                       check_items (vars ts)
                         (λ k, if is_primed k then drop_last k else k) d)
                    (edge (graph ts))) (λ _,
  Returns true))))).
End graphs.

(** A value of the domain. *)
Definition in_domain (v : Z) (dom : pydomain) : Prop :=
  match dom with
  | DomBool => v = 0%Z ∨ v = 1%Z
  | DomTuple lo hi => (lo ≤ v ≤ hi)%Z
  | DomOther => False
  end.

(** What [TransitionSystem.assert_consistent] checks: the initial nodes
    are nodes, the owner is a player, the environment variables are
    declared, and every label of a node or of an edge that names a
    declared variable, primed or not on an edge, gives it a value of its
    domain. *)
Definition consistent {N} `{Countable N} (ts : TransitionSystem (N:=N))
  : Prop :=
  initial_nodes (graph ts) ⊆ base.dom (node (graph ts)) ∧
  (owner ts = "env" ∨ owner ts = "sys") ∧
  env_vars ts ⊆ base.dom (vars ts) ∧
  (∀ u d k v dm, node (graph ts) !! u = Some d → d !! k = Some v →
                 vars ts !! k = Some dm → in_domain v dm) ∧
  (∀ u v d k x dm, (u, v, d) ∈ edge (graph ts) → d !! k = Some x →
                   vars ts !! (if is_primed k then drop_last k else k)
                     = Some dm →
                   in_domain x dm).

End automata.

(** The part of a game that only [build] and [declare_variables] may
    change: the manager, the variables and their lists, the winning
    conditions and the flags. *)
Definition signature (aut : game)
  : list string * gmap string var_decl * gmap string (list string)
    * gmap string (list pred) * bool * bool * string :=
  (bdd aut, vars aut, varlist aut, win aut, moore aut, plus_one aut,
   qinit aut).

(** A call that leaves the signature of the game alone, whether it
    returns or raises. *)
Definition keeps_signature {A} (m : M A) : Prop :=
  ∀ aut, signature (m aut).2 = signature aut.

(** The Streett transducer on the one-variable game, given an empty
    list of Y-iterates: whether it raises [IndexError] and leaves the
    counter among the system's variables. *)
Definition ex_transducer_index_error : bool :=
  let r := make_streett_transducer ex_declare_variables ex_add_expr
             ex_assert_support_moore (bdd_true ex_D) [[]] []
             (ex_game "\A \A") in
  bool_decide (r.1 = Raise IndexError) &&
  bool_decide (varlist r.2 !!! "sys" = ["x"; "_goal"]).

(** * Properties *)

Ltac vm_decide :=
  lazymatch goal with
  | |- ?P => apply (bool_decide_unpack P); vm_compute; exact I
  end.

(** ** The BDD kernel *)

Lemma elem_of_assignments vs (a : gset string) :
  a ∈ assignments vs ↔ a ⊆ list_to_set vs.
Proof.
  revert a. induction vs as [|v vs IH]; intros a; simpl.
  - rewrite list_elem_of_singleton. set_solver.
  - rewrite elem_of_app, list_elem_of_fmap. split.
    + intros [H | (b & -> & H)]; apply IH in H; set_solver.
    + intros H. destruct (decide (v ∈ a)) as [Hv|Hv].
      * right. exists (a ∖ {[v]}). split.
        -- apply union_difference_singleton_L. done.
        -- apply IH. set_solver.
      * left. apply IH. set_solver.
Qed.

Lemma elem_of_bdd_true D (a : gset string) :
  a ∈ bdd_true D ↔ a ⊆ list_to_set D.
Proof.
  unfold bdd_true. rewrite elem_of_list_to_set. apply elem_of_assignments.
Qed.

Lemma elem_of_bdd_exist D vs u (a : gset string) :
  a ∈ bdd_exist D vs u ↔
  a ∈ bdd_true D ∧ ∃ b, b ⊆ list_to_set vs ∧ override vs a b ∈ u.
Proof.
  unfold bdd_exist. rewrite elem_of_filter, Exists_exists.
  setoid_rewrite elem_of_assignments. naive_solver.
Qed.

Lemma elem_of_bdd_forall D vs u (a : gset string) :
  a ∈ bdd_forall D vs u ↔
  a ∈ bdd_true D ∧ ∀ b, b ⊆ list_to_set vs → override vs a b ∈ u.
Proof.
  unfold bdd_forall. rewrite elem_of_filter, Forall_forall.
  setoid_rewrite elem_of_assignments. naive_solver.
Qed.

Lemma elem_of_bdd_prime D u (a : gset string) :
  a ∈ bdd_prime D u ↔ a ∈ bdd_true D ∧ primed_view D a ∈ u.
Proof. unfold bdd_prime. rewrite elem_of_filter. naive_solver. Qed.

Lemma elem_of_bdd_not D u (a : gset string) :
  a ∈ bdd_not D u ↔ a ∈ bdd_true D ∧ a ∉ u.
Proof. unfold bdd_not. set_solver. Qed.
(** ** Loops *)

Lemma rbind_Ok {A B} (m : result A) (f : A → result B) b :
  m ≫= f = Ok b ↔ ∃ a, m = Ok a ∧ f a = Ok b.
Proof. destruct m; simpl; unfold mbind, result_bind; simpl; naive_solver. Qed.

Lemma for_each_inv {A St} (I : St → Prop) (f : St → A → result St) xs s s' :
  (∀ s x s', x ∈ xs → I s → f s x = Ok s' → I s') →
  I s → for_each f xs s = Ok s' → I s'.
Proof.
  revert s. induction xs as [|x xs IH]; intros s Hf Hs; simpl.
  - by intros [= <-].
  - intros (s1 & H1 & H2)%rbind_Ok. eapply (IH s1); [|by eapply Hf; [left|..]|done].
    intros ???? ; apply Hf. by right.
Qed.

Lemma for_each_total {A St} (I : St → Prop) (f : St → A → result St) xs s :
  (∀ s x, x ∈ xs → I s → ∃ s', f s x = Ok s' ∧ I s') →
  I s → ∃ s', for_each f xs s = Ok s' ∧ I s'.
Proof.
  revert s. induction xs as [|x xs IH]; intros s Hf Hs; simpl.
  - eauto.
  - destruct (Hf s x) as (s1 & H1 & H2); [by left|done|].
    destruct (IH s1) as (s2 & H3 & H4); [|done|].
    { intros ????; apply Hf; [by right|done]. }
    exists s2. split; [|done]. apply rbind_Ok. eauto.
Qed.

Lemma while_changed_spec {St} (I : St → Prop) cur (body : St → result St)
    fuel s s' :
  (∀ s s', I s → body s = Ok s' → I s') →
  I s → while_changed fuel cur body s = Ok s' →
  ∃ s0, I s0 ∧ body s0 = Ok s' ∧ cur s' = cur s0.
Proof.
  intros Hb. revert s. induction fuel as [|fuel IH]; intros s Hs; simpl; [done|].
  intros (s1 & H1 & H2)%rbind_Ok. destruct (decide (cur s1 = cur s)).
  - injection H2 as <-. eauto.
  - eapply IH; [|done]. eauto.
Qed.

Lemma while_changed_grows {St} (I : St → Prop) cur (body : St → result St)
    (B : gset (gset string)) fuel s :
  (∀ s, I s → ∃ s', body s = Ok s' ∧ I s' ∧ cur s ⊆ cur s') →
  (∀ s, I s → cur s ⊆ B) →
  I s → size B < fuel + size (cur s) →
  ∃ s', while_changed fuel cur body s = Ok s' ∧ I s'.
Proof.
  intros Hb HB. revert s. induction fuel as [|fuel IH]; intros s Hs Hfuel; simpl.
  - pose proof (subseteq_size _ _ (HB s Hs)). lia.
  - destruct (Hb s Hs) as (s1 & H1 & H2 & H3). rewrite H1. simpl.
    destruct (decide (cur s1 = cur s)) as [|Hne]; [by eauto|].
    apply IH; [done|].
    assert (cur s ⊂ cur s1) as Hlt by set_solver.
    apply subset_size in Hlt. lia.
Qed.

Lemma while_changed_shrinks {St} (I : St → Prop) cur (body : St → result St)
    fuel s :
  (∀ s, I s → ∃ s', body s = Ok s' ∧ I s' ∧ cur s' ⊆ cur s) →
  I s → size (cur s) < fuel →
  ∃ s', while_changed fuel cur body s = Ok s' ∧ I s'.
Proof.
  intros Hb. revert s. induction fuel as [|fuel IH]; intros s Hs Hfuel; simpl.
  - lia.
  - destruct (Hb s Hs) as (s1 & H1 & H2 & H3). rewrite H1. simpl.
    destruct (decide (cur s1 = cur s)) as [|Hne]; [by eauto|].
    apply IH; [done|].
    assert (cur s1 ⊂ cur s) as Hlt by set_solver.
    apply subset_size in Hlt. lia.
Qed.

(** ** Chains of iterates *)

Lemma nondecreasing_nil : nondecreasing [].
Proof. intros l u v H. by rewrite lookup_nil in H. Qed.

Lemma nondecreasing_snoc us (v : gset (gset string)) :
  nondecreasing us → (∀ u, last us = Some u → u ⊆ v) →
  nondecreasing (us ++ [v]).
Proof.
  intros Hus Hlast l u w Hu Hw.
  destruct (decide (S l < length us)) as [Hlt|Hge].
  - rewrite lookup_app_l in Hu, Hw by lia. eauto.
  - apply lookup_lt_Some in Hw as Hlen. rewrite length_app in Hlen. simpl in Hlen.
    assert (S l = length us) as Hl by lia.
    rewrite lookup_app_l in Hu by lia.
    rewrite lookup_app_r in Hw by lia.
    rewrite Hl, Nat.sub_diag in Hw. injection Hw as <-.
    apply Hlast. rewrite last_lookup. rewrite <- Hl. done.
Qed.

Lemma last_snoc_ne {A} (us : list A) v : us ++ [v] ≠ [].
Proof. by destruct us. Qed.

(** ** The controllable action *)

(** C1: [_controllable_action] returns the formula of section 4.1 over
    the primed target: [α_sys ∧ (α_env ⟶ target')] under [plus_one],
    [α_env ⟶ (α_sys ∧ target')] otherwise, quantified universally over
    the primed environment variables for a Moore system, and over
    nothing else: on the one-variable game, the action towards [x] still
    depends on the primed system variable [x']. *)
Theorem controllable_action_spec :
  (∀ target aut, _controllable_action target aut = CAct_spec target aut) ∧
  bdd_support ex_D (_controllable_action (bdd_var ex_D "x") (ex_game "\A \A"))
    = ["x'"].
Proof.
  split.
  - intros target aut. unfold _controllable_action, CAct_spec, aut_implies.
    destruct (plus_one aut), (moore aut); cbv zeta;
      [f_equal| |f_equal|]; apply set_eq; intros a; set_solver.
  - vm_decide.
Qed.

Lemma attractor_inside_body_inv inside goal env sys aut x xr :
  attractor_inside_inv inside (x, xr) →
  let x' := ((fx.step env sys x aut ∪ goal) ∩ inside) ∪ x in
  attractor_inside_inv inside (x', xr ++ [x']) ∧ x ⊆ x'.
Proof.
  intros (Hch & Hin & Hlast) x'. simpl in *. split; [|set_solver].
  split_and!; simpl.
  - apply nondecreasing_snoc; [done|]. intros u Hu. rewrite Hu in Hlast.
    subst. set_solver.
  - set_solver.
  - by rewrite last_snoc.
Qed.

(** C10: [_attractor_inside] returns, once it has fuel for as many
    rounds as [inside] has assignments, and it returns [(x, xr)] with
    [xr] not empty, non-decreasing, and ending with [x]; when the first
    iterate is already ⊥ again, [xr] has that one element. *)
Theorem attractor_inside_iterates inside goal aut :
  (∀ fuel, size inside < fuel →
     ∃ x xr, _attractor_inside fuel inside goal aut = Ok (x, xr)) ∧
  (∀ fuel x xr, _attractor_inside fuel inside goal aut = Ok (x, xr) →
     xr ≠ [] ∧ nondecreasing xr ∧ last xr = Some x ∧
     ((fx.step (action aut !!! "env") (action aut !!! "sys") ∅ aut ∪ goal)
        ∩ inside = ∅ → xr = [∅])).
Proof.
  split.
  - intros fuel Hfuel. unfold _attractor_inside.
    edestruct (while_changed_grows (attractor_inside_inv inside) fst)
      as ([x xr] & H & _); [| |..|by eauto].
    + intros [x xr] Hs. eexists. split; [done|].
      by apply attractor_inside_body_inv.
    + by intros [x xr] (_ & ? & _).
    + split_and!; simpl; [apply nondecreasing_nil|set_solver|done].
    + unfold aut_false, bdd_false. cbn [fst]. rewrite size_empty. lia.
  - intros fuel x xr H. unfold _attractor_inside in H.
    split_and!.
    + eapply (while_changed_spec (attractor_inside_inv inside)) in H
        as ([x0 xr0] & Hs0 & [= <- <-] & _).
      * apply last_snoc_ne.
      * intros [x1 xr1] s' Hs [= <-]. by apply attractor_inside_body_inv.
      * split_and!; simpl; [apply nondecreasing_nil|set_solver|done].
    + eapply (while_changed_spec (attractor_inside_inv inside)) in H
        as ([x0 xr0] & Hs0 & [= <- <-] & _).
      * by apply attractor_inside_body_inv.
      * intros [x1 xr1] s' Hs [= <-]. by apply attractor_inside_body_inv.
      * split_and!; simpl; [apply nondecreasing_nil|set_solver|done].
    + eapply (while_changed_spec (attractor_inside_inv inside)) in H
        as ([x0 xr0] & Hs0 & [= <- <-] & _).
      * by rewrite last_snoc.
      * intros [x1 xr1] s' Hs [= <-]. by apply attractor_inside_body_inv.
      * split_and!; simpl; [apply nondecreasing_nil|set_solver|done].
    + intros Hconv. destruct fuel as [|fuel]; [done|]. simpl in H.
      unfold aut_false, bdd_false in H. rewrite Hconv in H.
      rewrite (left_id_L ∅ (∪)) in H.
      rewrite decide_True in H by done. by injection H as <- <-.
Qed.

Lemma attractor_inside_iterates_witness :
  ∃ x xr,
    _attractor_inside 5 (bdd_true ex_D) (bdd_var ex_D "x")
                      (ex_game "\A \A") = Ok (x, xr) ∧
    xr ≠ [] ∧ nondecreasing xr ∧ last xr = Some x.
Proof.
  destruct (proj1 (attractor_inside_iterates (bdd_true ex_D)
                     (bdd_var ex_D "x") (ex_game "\A \A")) 5)
    as (x & xr & H).
  - vm_decide.
  - exists x, xr. split; [exact H|].
    destruct (proj2 (attractor_inside_iterates _ _ _) 5 x xr H)
      as (H1 & H2 & H3 & _).
    auto.
Defined.

(** ** Predecessors *)

Lemma bdd_exist_subseteq D vs u : bdd_exist D vs u ⊆ bdd_true D.
Proof. intros a. rewrite elem_of_bdd_exist. naive_solver. Qed.

Lemma bdd_forall_subseteq D vs u : bdd_forall D vs u ⊆ bdd_true D.
Proof. intros a. rewrite elem_of_bdd_forall. naive_solver. Qed.

Lemma step_subseteq env sys target aut :
  fx.step env sys target aut ⊆ aut_true aut.
Proof.
  unfold fx.step, aut_exist, aut_forall, aut_true.
  destruct (moore aut); [apply bdd_exist_subseteq|apply bdd_forall_subseteq].
Qed.

(** ** The Rabin solver *)

Lemma attractor_inside_total fuel inside goal aut :
  size inside < fuel →
  ∃ x xr, _attractor_inside fuel inside goal aut = Ok (x, xr).
Proof.
  intros Hfuel. unfold _attractor_inside.
  edestruct (while_changed_grows (attractor_inside_inv inside) fst)
    as ([x xr] & H & _); [| |..|by eauto].
  - intros [x xr] Hs. eexists. split; [done|].
    by apply attractor_inside_body_inv.
  - by intros [x xr] (_ & ? & _).
  - split_and!; simpl; [apply nondecreasing_nil|set_solver|done].
  - unfold aut_false, bdd_false. cbn [fst]. rewrite size_empty. lia.
Qed.

Lemma cycle_inside_total fuel z hold aut :
  size (aut_true aut) < fuel →
  ∃ y xjr, _cycle_inside fuel z hold aut = Ok (y, xjr) ∧ y ⊆ aut_true aut.
Proof.
  intros Hfuel. unfold _cycle_inside.
  edestruct (while_changed_shrinks
    (λ s : pred * list (list pred), s.1 ⊆ aut_true aut) fst)
    as ([y xjr] & H & Hy); [| |..|by eauto].
  - intros [y xjr] Hs. simpl in Hs.
    edestruct (for_each_total (A:=pred)
                 (λ s : pred * list (list pred), s.1 ⊆ y))
      as ([y' xjr'] & H & Hy'); [| |].
    3:{ eexists. split; [exact H|]. simpl in *. split; set_solver. }
    + intros [y1 xjr1] goal _ Hy1.
      edestruct (attractor_inside_total fuel) as (x & xr & ->).
      2:{ eexists. split; [done|]. simpl in *. set_solver. }
      eapply Nat.le_lt_trans; [|exact Hfuel]. apply subseteq_size.
      pose proof (step_subseteq (action aut !!! "env") (action aut !!! "sys")
                    y aut). set_solver.
    + done.
  - done.
  - done.
Qed.

Lemma rabin_round_total fuel aut s :
  size (aut_true aut) < fuel → s.1.1.1 ⊆ aut_true aut →
  ∃ s', rabin_round fuel aut s = Ok s' ∧ s'.1.1.1 ⊆ aut_true aut ∧
        s.1.1.1 ⊆ s'.1.1.1.
Proof.
  intros Hfuel. destruct s as [[[z zk] yki] xkijr]. simpl. intros Hz.
  unfold rabin_round.
  edestruct (for_each_total (A:=pred)
    (λ s : pred * list pred * list (list (list pred)),
       z ⊆ s.1.1 ∧ s.1.1 ⊆ aut_true aut))
    as ([[z' yi] xijr] & -> & Hz1 & Hz2); [| |].
  3:{ eexists. split; [done|]. simpl in *. done. }
  - intros [[z1 yi1] xijr1] hold _ [Hz1 Hz2]. simpl in *.
    destruct (cycle_inside_total fuel z hold aut Hfuel) as (y & xjr & -> & Hy).
    eexists. split; [done|]. simpl. set_solver.
  - simpl. set_solver.
Qed.

Lemma rabin_round_chain fuel aut s s' :
  rabin_chain s → rabin_round fuel aut s = Ok s' →
  rabin_chain s' ∧ s'.1.1.2 ≠ [].
Proof.
  destruct s as [[[z zk] yki] xkijr]. intros (Hch & Hlast).
  unfold rabin_round.
  intros ([[z' yi] xijr] & H & [= <-])%rbind_Ok. simpl.
  split; [|apply last_snoc_ne]. split; [|by rewrite last_snoc].
  apply nondecreasing_snoc; [done|]. intros u Hu. rewrite Hu in Hlast. subst u.
  eapply (for_each_inv
    (λ s : pred * list pred * list (list (list pred)), z ⊆ s.1.1)) in H;
    [done| |done].
  intros [[z1 yi1] xijr1] hold s' _ Hz1.
  intros ([y xjr] & _ & [= <-])%rbind_Ok. simpl in *. set_solver.
Qed.

Ltac unfold_M :=
  unfold mbind, M_bind, m_bind, mret, M_ret, m_ret, assert, get, modify,
    run, reads, raise.

Lemma solve_rabin_game_eq build fuel rank aut :
  solve_rabin_game build fuel rank aut =
  if bool_decide (rank = 1)
     && (bool_decide (bdd aut ≠ []) || bool_decide (vars aut = ∅))
     && bool_decide (0 < length (win aut !!! "<>[]"))
     && bool_decide (0 < length (win aut !!! "[]<>"))
  then
    let aut' := build aut in
    match while_changed fuel (λ '(z, _, _, _), z) (rabin_round fuel aut')
                        (aut_false aut', [], [], []) with
    | Ok (z, zk, yki, xkijr) =>
        if is_state_predicate (bdd aut') z
        then (Ok (zk, yki, xkijr), aut')
        else (Raise AssertionError, aut')
    | Raise e => (Raise e, aut')
    | OutOfFuel => (OutOfFuel, aut')
    end
  else (Raise AssertionError, aut).
Proof.
  unfold solve_rabin_game. unfold_M.
  destruct (bool_decide (rank = 1)); [|done].
  destruct (bool_decide (bdd aut ≠ []) || bool_decide (vars aut = ∅)); [|done].
  destruct (bool_decide (0 < length (win aut !!! "<>[]"))); [|done].
  destruct (bool_decide (0 < length (win aut !!! "[]<>"))); [|done].
  cbn [andb]. cbv zeta.
  destruct (while_changed _ _ _ _) as [[[[z zk] yki] xkijr]| |]; [|done..].
  by destruct (is_state_predicate _ _).
Qed.

(** C4: the Z-iterates that [solve_rabin_game] records do not decrease
    along the list, and the loop that records them ends: with fuel for
    more rounds than the manager has assignments, the solver returns or
    raises. *)
Theorem rabin_Z_nondecreasing build aut rank :
  (∀ fuel, size (aut_true (build aut)) < fuel →
     (solve_rabin_game build fuel rank aut).1 ≠ OutOfFuel) ∧
  (∀ fuel zk yki xkijr aut',
     solve_rabin_game build fuel rank aut = (Ok (zk, yki, xkijr), aut') →
     zk ≠ [] ∧ ∀ l u v, zk !! l = Some u → zk !! S l = Some v → u ⊆ v).
Proof.
  split.
  - intros fuel Hfuel. rewrite solve_rabin_game_eq.
    destruct (_ && _); [|done]. cbv zeta.
    edestruct (while_changed_grows
                 (λ s : pred * list pred * list (list pred)
                        * list (list (list (list pred))),
                    s.1.1.1 ⊆ aut_true (build aut))
                 (λ '(z, _, _, _), z) (rabin_round fuel (build aut))
                 (aut_true (build aut)) fuel (aut_false (build aut), [], [], []))
      as ([[[z zk] yki] xkijr] & -> & _).
    + intros s Hs. destruct (rabin_round_total fuel _ s Hfuel Hs)
        as (s' & H1 & H2 & H3).
      exists s'. split_and!; [done..|].
      by destruct s as [[[? ?] ?] ?], s' as [[[? ?] ?] ?].
    + by intros [[[? ?] ?] ?].
    + simpl. set_solver.
    + unfold aut_false, bdd_false. rewrite size_empty. lia.
    + by destruct (is_state_predicate _ _).
  - intros fuel zk yki xkijr aut'. rewrite solve_rabin_game_eq.
    destruct (_ && _); [|done]. cbv zeta.
    destruct (while_changed _ _ _ _) as [[[[z zk'] yki'] xkijr']| |] eqn:H;
      [|done..].
    destruct (is_state_predicate _ _); [|done]. intros [= -> -> -> <-].
    eapply (while_changed_spec rabin_chain) in H as (s0 & Hs0 & Hbody & _).
    + apply rabin_round_chain in Hbody as [[? ?] ?]; done.
    + intros s s' Hs Hb. by apply rabin_round_chain in Hb as [? ?].
    + split; [apply nondecreasing_nil|done].
Qed.

Lemma rabin_Z_nondecreasing_witness :
  ∃ zk yki xkijr aut',
    solve_rabin_game ex_build 5 1 (ex_game "\A \A")
      = (Ok (zk, yki, xkijr), aut') ∧
    zk ≠ [] ∧ ∀ l u v, zk !! l = Some u → zk !! S l = Some v → u ⊆ v.
Proof.
  destruct (solve_rabin_game ex_build 5 1 (ex_game "\A \A"))
    as [[[[zk yki] xkijr]| |] aut'] eqn:H.
  - exists zk, yki, xkijr, aut'. split; [reflexivity|].
    exact (proj2 (rabin_Z_nondecreasing ex_build (ex_game "\A \A") 1)
             5 zk yki xkijr aut' H).
  - exfalso.
    assert (is_Ok (solve_rabin_game ex_build 5 1 (ex_game "\A \A")).1 = true)
      as Hok by (vm_compute; reflexivity).
    rewrite H in Hok. discriminate.
  - exfalso.
    apply (proj1 (rabin_Z_nondecreasing ex_build (ex_game "\A \A") 1) 5).
    + vm_decide.
    + by rewrite H.
Defined.

(** ** Initial conditions of the implementation *)

Lemma make_init_eq counter_init W aut :
  _make_init counter_init W aut =
  if bool_decide (known_qinit (qinit aut)) then
    let env_init := impl_env_value counter_init W aut in
    let sys_init := impl_sys_code counter_init W aut in
    if bool_decide (env_init ≠ ∅) && bool_decide (sys_init ≠ ∅) then
      (Ok (),
       set_init (<["impl_sys" := sys_init]>
                   (<["impl_env" := env_init]> (init aut))) aut)
    else (Raise AssertionError, aut)
  else (Raise ValueError, aut).
Proof.
  unfold _make_init, impl_env_value, impl_sys_code, impl_env_code.
  unfold_M. unfold aut_false, bdd_false. cbv zeta.
  destruct (bool_decide (qinit aut ∈ ["\A \A"; "\A \E"; "\E \E"])) eqn:H3.
  - apply bool_decide_eq_true in H3.
    rewrite (bool_decide_eq_true_2 (known_qinit _))
      by (revert H3; unfold known_qinit; rewrite !elem_of_cons; intuition).
    rewrite decide_False.
    2:{ revert H3. rewrite !elem_of_cons, elem_of_nil.
        intros [->|[->|[->|[]]]]; done. }
    destruct (bool_decide (_ ≠ ∅)); [|done].
    by destruct (bool_decide (_ ≠ ∅)).
  - apply bool_decide_eq_false in H3.
    destruct (decide (qinit aut = "\E \A")) as [Heq|Hne].
    + rewrite (bool_decide_eq_true_2 (known_qinit _))
        by (unfold known_qinit; rewrite Heq, !elem_of_cons; intuition).
      destruct (bool_decide (_ ≠ ∅)); [|done].
      by destruct (bool_decide (_ ≠ ∅)).
    + rewrite (bool_decide_eq_false_2 (known_qinit _)); [done|].
      revert H3. unfold known_qinit. rewrite !elem_of_cons, !elem_of_nil.
      intuition.
Qed.

Lemma M_bind_Ok {A B} (m : M A) (f : A → M B) aut b aut' :
  (m ≫= f) aut = (Ok b, aut') →
  ∃ a aut1, m aut = (Ok a, aut1) ∧ f a aut1 = (Ok b, aut').
Proof.
  unfold mbind, M_bind, m_bind.
  destruct (m aut) as [[a| |] aut1]; [eauto|done..].
Qed.

Lemma make_init_Ok counter_init W aut aut' :
  _make_init counter_init W aut = (Ok (), aut') →
  known_qinit (qinit aut) ∧
  impl_env_value counter_init W aut ≠ ∅ ∧
  impl_sys_code counter_init W aut ≠ ∅ ∧
  init aut' !! "impl_env" = Some (impl_env_value counter_init W aut) ∧
  init aut' !! "impl_sys" = Some (impl_sys_code counter_init W aut).
Proof.
  rewrite make_init_eq. case_bool_decide as Hq; [|done]. cbv zeta.
  destruct (bool_decide (impl_env_value _ _ _ ≠ ∅)) eqn:He; [|done].
  destruct (bool_decide (impl_sys_code _ _ _ ≠ ∅)) eqn:Hs; [|done].
  apply bool_decide_eq_true in He, Hs. intros [= <-]. simpl.
  split_and!; [done..| |].
  - rewrite lookup_insert_ne by done. by rewrite lookup_insert_eq.
  - by rewrite lookup_insert_eq.
Qed.

(** C5, as the code has it: under [qinit = "\E \A"], [_make_init] sets
    [init['impl_env']] to [env_bound ∧ sys_bound] with
    [env_bound = ∃ sys. ι_env] and
    [sys_bound = ∀ env. ((ι_env ∧ ι_sys ∧ counter_init ∧ W) ∨ ¬ env_bound)]:
    the environment's initial condition is a conjunct of the winning
    initial states, not their premise. *)
Theorem make_init_exists_forall counter_init W aut aut' :
  qinit aut = "\E \A" →
  _make_init counter_init W aut = (Ok (), aut') →
  init aut' !! "impl_env" = Some (impl_env_code counter_init W aut).
Proof.
  intros Hq (_ & _ & _ & H & _)%make_init_Ok.
  unfold impl_env_value in H. by rewrite decide_True in H.
Qed.

Lemma make_init_exists_forall_witness :
  ∃ aut',
    _make_init (bdd_true ex_D2) (bdd_true ex_D2) (ex_game2 "\E \A")
      = (Ok (), aut') ∧
    init aut' !! "impl_env"
      = Some (impl_env_code (bdd_true ex_D2) (bdd_true ex_D2)
                            (ex_game2 "\E \A")).
Proof.
  destruct (_make_init (bdd_true ex_D2) (bdd_true ex_D2) (ex_game2 "\E \A"))
    as [[[]| |] aut'] eqn:H.
  - exists aut'. split; [reflexivity|].
    exact (make_init_exists_forall _ _ (ex_game2 "\E \A") aut' eq_refl H).
  - exfalso.
    assert (is_Ok (_make_init (bdd_true ex_D2) (bdd_true ex_D2)
                              (ex_game2 "\E \A")).1 = true)
      as Hok by (vm_compute; reflexivity).
    rewrite H in Hok. discriminate.
  - exfalso.
    assert (is_Ok (_make_init (bdd_true ex_D2) (bdd_true ex_D2)
                              (ex_game2 "\E \A")).1 = true)
      as Hok by (vm_compute; reflexivity).
    rewrite H in Hok. discriminate.
Defined.

Lemma ex_game2_make_init_Ok :
  is_Ok (_make_init (bdd_true ex_D2) (bdd_true ex_D2) (ex_game2 "\E \A")).1
    = true.
Proof. vm_compute. reflexivity. Qed.

Lemma ex_game2_impl_env_differs :
  impl_env_value (bdd_true ex_D2) (bdd_true ex_D2) (ex_game2 "\E \A")
  ≠ impl_env_spec (bdd_true ex_D2) (bdd_true ex_D2) (ex_game2 "\E \A").
Proof. vm_decide. Qed.

(** C5, as the specification states it, fails on the game whose
    environment initial condition is [s], a variable of the system, with
    ⊤ for the winning region and for the counter: [_make_init] returns
    and the node it writes is not the one of the specification (which is
    ⊤ there, while the code writes [s]). *)
Lemma make_init_exists_forall_counterexample :
  qinit (ex_game2 "\E \A") = "\E \A" ∧
  ∃ aut',
    _make_init (bdd_true ex_D2) (bdd_true ex_D2) (ex_game2 "\E \A")
      = (Ok (), aut') ∧
    init aut' !! "impl_env"
      ≠ Some (impl_env_spec (bdd_true ex_D2) (bdd_true ex_D2)
                            (ex_game2 "\E \A")).
Proof.
  split; [reflexivity|].
  pose proof ex_game2_make_init_Ok as Hok.
  pose proof ex_game2_impl_env_differs as Hne.
  generalize dependent (ex_game2 "\E \A"). intros g.
  generalize (bdd_true ex_D2). intros T Hok Hne.
  destruct (_make_init T T g) as [[[]| |] aut'] eqn:H; [|done..].
  exists aut'. split; [done|].
  apply make_init_Ok in H as (_ & _ & _ & H & _).
  rewrite H. congruence.
Qed.

(** ** The transducers *)

Lemma M_bind_run {A B} (m : M A) (f : A → M B) aut a aut1 :
  m aut = (Ok a, aut1) → (m ≫= f) aut = f a aut1.
Proof. intros H. unfold mbind, M_bind, m_bind. by rewrite H. Qed.

Lemma M_bind_raise {A B} (m : M A) (f : A → M B) aut e aut1 :
  m aut = (Raise e, aut1) → (m ≫= f) aut = (Raise e, aut1).
Proof. intros H. unfold mbind, M_bind, m_bind. by rewrite H. Qed.

(** C6: when [is_realizable] returns [False] for the winning set, each
    transducer fails on its first assertion and leaves the game as it
    found it: no counter is declared, no key is written. *)
Theorem transducers_refuse_unrealizable
    declare_variables add_expr _assert_support_moore z aut :
  is_realizable z aut = Ok false →
  (∀ yij xijk,
     make_streett_transducer declare_variables add_expr
       _assert_support_moore z yij xijk aut
     = (Raise AssertionError, aut)) ∧
  (∀ zk yki xkijr, last zk = Some z →
     make_rabin_transducer declare_variables add_expr
       _assert_support_moore zk yki xkijr aut
     = (Raise AssertionError, aut)).
Proof.
  intros Hr. split.
  - intros yij xijk. unfold make_streett_transducer.
    erewrite M_bind_run; [|unfold run; by rewrite Hr].
    by erewrite M_bind_raise.
  - intros zk yki xkijr Hlast. unfold make_rabin_transducer.
    erewrite M_bind_run; [|unfold run, last_item; by rewrite Hlast].
    erewrite M_bind_run; [|unfold run; by rewrite Hr].
    by erewrite M_bind_raise.
Qed.

Lemma transducers_refuse_unrealizable_witness :
  make_streett_transducer ex_declare_variables ex_add_expr
    ex_assert_support_moore ∅ [] [] (ex_game "\A \A")
  = (Raise AssertionError, ex_game "\A \A") ∧
  make_rabin_transducer ex_declare_variables ex_add_expr
    ex_assert_support_moore [∅] [] [] (ex_game "\A \A")
  = (Raise AssertionError, ex_game "\A \A").
Proof.
  assert (is_realizable ∅ (ex_game "\A \A") = Ok false) as Hr by vm_decide.
  destruct (transducers_refuse_unrealizable ex_declare_variables ex_add_expr
              ex_assert_support_moore ∅ (ex_game "\A \A") Hr) as [H1 H2].
  split; [apply H1|apply H2; reflexivity].
Defined.

(** Peel the calls that a returning transducer made, down to the last. *)
Ltac bind_inv H :=
  repeat first
    [ apply M_bind_Ok in H as (? & ? & ? & H)
    | progress cbv zeta in H ].

Lemma make_streett_transducer_Ok dv ae asm z yij xijk aut r aut' :
  make_streett_transducer dv ae asm z yij xijk aut = (Ok r, aut') →
  ∃ count aut1, _make_init count z aut1 = (Ok (), aut').
Proof.
  unfold make_streett_transducer. intros H. bind_inv H.
  unfold reads in H. injection H as _ <-.
  match goal with
  | Hm : _make_init ?c z ?a = (Ok ?u, _) |- _ =>
      exists c, a; destruct u; exact Hm
  end.
Qed.

Lemma make_rabin_transducer_Ok dv ae asm zk yki xkijr aut r aut' :
  make_rabin_transducer dv ae asm zk yki xkijr aut = (Ok r, aut') →
  ∃ count z aut1, last zk = Some z ∧ _make_init count z aut1 = (Ok (), aut').
Proof.
  unfold make_rabin_transducer. intros H.
  apply M_bind_Ok in H as (z & ? & Hz & H).
  unfold run, last_item in Hz. destruct (last zk) as [z'|] eqn:Hl; [|done].
  injection Hz as -> _.
  bind_inv H.
  repeat match type of H with
         | context [match ?e with pair _ _ => _ end] =>
             destruct e; bind_inv H
         end.
  unfold reads in H. injection H as _ <-.
  match goal with
  | Hm : _make_init ?c z ?a = (Ok ?u, _) |- _ =>
      exists c, z, a; destruct u; split; [done|exact Hm]
  end.
Qed.

(** C9: when [_make_init] returns, it has written both initial
    conditions of the implementation and neither is ⊥; when one of the
    two nodes it computes is ⊥ it raises an assertion error and the game
    is left as it was; and a transducer that returns ends with a call of
    [_make_init] that returned, so that the same holds of the game it
    leaves. *)
Theorem make_init_nonempty :
  (∀ counter_init W aut aut',
     _make_init counter_init W aut = (Ok (), aut') →
     ∃ e s, init aut' !! "impl_env" = Some e ∧ e ≠ ∅ ∧
            init aut' !! "impl_sys" = Some s ∧ s ≠ ∅) ∧
  (∀ counter_init W aut,
     known_qinit (qinit aut) →
     impl_env_value counter_init W aut = ∅ ∨
       impl_sys_code counter_init W aut = ∅ →
     _make_init counter_init W aut = (Raise AssertionError, aut)) ∧
  (∀ dv ae asm z yij xijk aut r aut',
     make_streett_transducer dv ae asm z yij xijk aut = (Ok r, aut') →
     ∃ e s, init aut' !! "impl_env" = Some e ∧ e ≠ ∅ ∧
            init aut' !! "impl_sys" = Some s ∧ s ≠ ∅) ∧
  (∀ dv ae asm zk yki xkijr aut r aut',
     make_rabin_transducer dv ae asm zk yki xkijr aut = (Ok r, aut') →
     ∃ e s, init aut' !! "impl_env" = Some e ∧ e ≠ ∅ ∧
            init aut' !! "impl_sys" = Some s ∧ s ≠ ∅).
Proof.
  assert (∀ counter_init W aut aut',
     _make_init counter_init W aut = (Ok (), aut') →
     ∃ e s, init aut' !! "impl_env" = Some e ∧ e ≠ ∅ ∧
            init aut' !! "impl_sys" = Some s ∧ s ≠ ∅) as Hinit.
  { intros ???? (_ & He & Hs & H1 & H2)%make_init_Ok. eauto 10. }
  split_and!.
  - done.
  - intros counter_init W aut Hq Hempty. rewrite make_init_eq.
    rewrite bool_decide_eq_true_2 by done. cbv zeta.
    destruct Hempty as [-> | ->].
    + by rewrite (bool_decide_eq_false_2 (∅ ≠ ∅)) by auto.
    + rewrite (bool_decide_eq_false_2 (∅ ≠ ∅)) by auto.
      by rewrite andb_false_r.
  - intros ????????? (? & ? & H)%make_streett_transducer_Ok. eauto.
  - intros ????????? (? & ? & ? & _ & H)%make_rabin_transducer_Ok. eauto.
Qed.

Lemma make_init_nonempty_witness :
  ∃ r aut',
    make_streett_transducer ex_declare_variables ex_add_expr
      ex_assert_support_moore (bdd_true ex_D)
      [[bdd_true ex_D; bdd_true ex_D]] [[[bdd_true ex_D]; [bdd_true ex_D]]]
      (ex_game "\A \A") = (Ok r, aut') ∧
    ∃ e s, init aut' !! "impl_env" = Some e ∧ e ≠ ∅ ∧
           init aut' !! "impl_sys" = Some s ∧ s ≠ ∅.
Proof.
  assert (is_Ok (make_streett_transducer ex_declare_variables ex_add_expr
            ex_assert_support_moore (bdd_true ex_D)
            [[bdd_true ex_D; bdd_true ex_D]]
            [[[bdd_true ex_D]; [bdd_true ex_D]]] (ex_game "\A \A")).1 = true)
    as Hok by (vm_compute; reflexivity).
  generalize dependent (ex_game "\A \A"). intros g.
  generalize (bdd_true ex_D). intros T Hok.
  destruct (make_streett_transducer _ _ _ T _ _ g) as [[r| |] aut'] eqn:H;
    [|discriminate Hok..].
  exists r, aut'. split; [reflexivity|].
  exact (proj1 (proj2 (proj2 make_init_nonempty)) _ _ _ _ _ _ _ _ _ H).
Defined.

(** ** Monotonicity of the predecessor *)

Lemma bdd_exist_mono D vs (u v : gset (gset string)) :
  u ⊆ v → bdd_exist D vs u ⊆ bdd_exist D vs v.
Proof. intros Huv a. rewrite !elem_of_bdd_exist. naive_solver. Qed.

Lemma bdd_forall_mono D vs (u v : gset (gset string)) :
  u ⊆ v → bdd_forall D vs u ⊆ bdd_forall D vs v.
Proof. intros Huv a. rewrite !elem_of_bdd_forall. naive_solver. Qed.

Lemma bdd_prime_mono D (u v : gset (gset string)) :
  u ⊆ v → bdd_prime D u ⊆ bdd_prime D v.
Proof. intros Huv a. rewrite !elem_of_bdd_prime. naive_solver. Qed.

Lemma step_mono env sys (u v : gset (gset string)) aut :
  u ⊆ v → fx.step env sys u aut ⊆ fx.step env sys v aut.
Proof.
  intros Huv. unfold fx.step, aut_exist, aut_forall, prime.
  pose proof (bdd_prime_mono (bdd aut) u v Huv) as Hp.
  destruct (moore aut), (plus_one aut);
    repeat first [apply bdd_exist_mono | apply bdd_forall_mono];
    set_solver.
Qed.

(** ** The trap *)

Lemma trap_total fuel env sys safe aut unless :
  unless ⊆ aut_true aut → size (aut_true aut) < fuel →
  ∃ q, fx.trap fuel env sys safe aut unless = Ok q ∧ q ⊆ aut_true aut.
Proof.
  intros Hu Hfuel. unfold fx.trap.
  set (F := λ q : pred, (fx.step env sys q aut ∪ unless) ∩ safe).
  edestruct (while_changed_shrinks (λ q : pred, q ⊆ aut_true aut ∧ F q ⊆ q)
               id (λ q, Ok (F q)) fuel (aut_true aut))
    as (q & H & Hq & _); [| | |by eauto].
  - intros q [Hq HF]. exists (F q). split; [done|]. split; [|done].
    split; [set_solver|]. unfold F.
    pose proof (step_mono env sys (F q) q aut HF). set_solver.
  - split; [done|]. unfold F.
    pose proof (step_subseteq env sys (aut_true aut) aut). set_solver.
  - done.
Qed.

(** ** The attractor under assumptions *)

Lemma traps_pass_grows fuel env sys aut unless holds
    (s s' : pred * list pred) :
  for_each (λ '(y, xk) safe,
              x ← fx.trap fuel env sys safe aut unless;
              Ok (y ∪ x, xk ++ [x])) holds s = Ok s' →
  s.1 ⊆ s'.1.
Proof.
  intros H.
  eapply (for_each_inv (λ t : pred * list pred, s.1 ⊆ t.1)) in H; [done| |done].
  intros [y xk] safe t _ Hy (x & _ & [= <-])%rbind_Ok. simpl in *. set_solver.
Qed.

Lemma basin_body_inv fuel goal aut s s' :
  basin_inv fuel goal aut s →
  (let '(y, yj, xjk) := s in
   let cox_y := fx.step (action aut !!! "env") (action aut !!! "sys") y aut in
   let unless := cox_y ∪ goal in
   '(y, xk) ←
     for_each (λ '(y, xk) safe,
                 x ← fx.trap fuel (action aut !!! "env")
                        (action aut !!! "sys") safe aut unless;
                 Ok (y ∪ x, xk ++ [x]))
              (win aut !!! "<>[]") (y, []);
   Ok (y, yj ++ [y], xjk ++ [xk])) = Ok s' →
  basin_inv fuel goal aut s' ∧ s'.1.2 ≠ [] ∧ last s'.1.2 = Some s'.1.1.
Proof.
  destruct s as [[y yj] xjk]. intros [Hch Hlast].
  intros ([y' xk] & Hpass & [= <-])%rbind_Ok. simpl.
  split; [|split; [apply last_snoc_ne|by rewrite last_snoc]].
  pose proof (traps_pass_grows _ _ _ _ _ _ _ _ Hpass) as Hy. simpl in Hy.
  split.
  - apply nondecreasing_snoc; [done|]. intros u Hu. rewrite Hu in Hlast.
    destruct Hlast as [-> _]. done.
  - rewrite last_snoc. split; [done|].
    destruct (last yj) as [u|] eqn:Hl.
    + destruct Hlast as (-> & y1 & xk1 & H1 & H2 & H3).
      exists y1, xk1. split; [done|].
      rewrite !lookup_app_l; [done|by eapply lookup_lt_Some..].
    + destruct Hlast as [-> ->]. apply last_None in Hl as ->.
      exists y', xk. split; [exact Hpass|done].
Qed.

Lemma attractor_under_assumptions_Ok fuel goal aut y yj xjk :
  _attractor_under_assumptions fuel goal aut = Ok (y, yj, xjk) →
  yj ≠ [] ∧ nondecreasing yj ∧ last yj = Some y ∧
  ∃ y1 xk1, first_basin fuel goal aut = Ok (y1, xk1) ∧
            yj !! 0 = Some y1 ∧ xjk !! 0 = Some xk1.
Proof.
  unfold _attractor_under_assumptions. intros H.
  eapply (while_changed_spec (basin_inv fuel goal aut)) in H
    as (s0 & Hs0 & Hbody & _).
  - destruct s0 as [[y0 yj0] xjk0].
    apply (basin_body_inv fuel goal aut (y0, yj0, xjk0)) in Hbody
      as ((Hch & Hlast) & Hne & Hl); [|done].
    simpl in *. rewrite Hl in Hlast. destruct Hlast as [_ Hfirst]. done.
  - intros [[y0 yj0] xjk0] s' Hs Hb.
    by apply (basin_body_inv fuel goal aut (y0, yj0, xjk0)) in Hb as [? _].
  - split; [apply nondecreasing_nil|done].
Qed.

Lemma attractor_under_assumptions_total fuel goal aut :
  goal ⊆ aut_true aut → size (aut_true aut) < fuel →
  ∃ y yj xjk, _attractor_under_assumptions fuel goal aut = Ok (y, yj, xjk) ∧
              y ⊆ aut_true aut.
Proof.
  intros Hgoal Hfuel. unfold _attractor_under_assumptions.
  edestruct (while_changed_grows
               (λ s : pred * list pred * list (list pred),
                  s.1.1 ⊆ aut_true aut)
               (λ '(y, _, _), y))
    as ([[y yj] xjk] & H & Hy); [| | | |by eauto 10].
  - intros [[y yj] xjk] Hs. simpl in Hs.
    edestruct (for_each_total (A:=pred)
                 (λ t : pred * list pred, y ⊆ t.1 ∧ t.1 ⊆ aut_true aut))
      as ([y' xk] & H & Hy1 & Hy2); [| |].
    3:{ eexists. split; [by rewrite H|]. simpl in *. done. }
    + intros [y1 xk1] safe _ [Hy1 Hy2]. simpl in *.
      edestruct (trap_total fuel) as (x & -> & Hx); [|done|].
      2:{ eexists. split; [done|]. simpl. set_solver. }
      pose proof (step_subseteq (action aut !!! "env") (action aut !!! "sys")
                    y aut). set_solver.
    + simpl. done.
  - by intros [[y yj] xjk].
  - simpl. set_solver.
  - unfold aut_false, bdd_false. rewrite size_empty. lia.
Qed.

(** ** The Streett solver *)

Lemma while_changed_iterates {St} cur (body : St → result St)
    (iter : nat → result St) fuel k s s' :
  (∀ n, iter (S n) = iter n ≫= body) →
  iter k = Ok s → while_changed fuel cur body s = Ok s' →
  ∃ n s0, iter n = Ok s0 ∧ iter (S n) = Ok s' ∧ cur s' = cur s0.
Proof.
  intros Hiter. revert k s. induction fuel as [|fuel IH]; intros k s Hk; [done|].
  simpl. intros (s1 & H1 & H2)%rbind_Ok.
  assert (iter (S k) = Ok s1) as HSk.
  { rewrite Hiter, Hk. exact H1. }
  destruct (decide (cur s1 = cur s)).
  - injection H2 as <-. eauto.
  - eauto.
Qed.

Lemma streett_pass_Ok fuel aut cox_z goals
    (acc acc' : pred * list (list pred) * list (list (list pred))) :
  for_each (λ '(z, yij, xijk) goal,
              let goal := goal ∩ cox_z in
              '(y, yj, xjk) ← _attractor_under_assumptions fuel goal aut;
              let z := z ∩ y in
              Ok (z, yij ++ [yj], xijk ++ [xjk]))
           goals acc = Ok acc' →
  acc'.1.1 ⊆ acc.1.1 ∧
  ∃ rs, Forall2 (λ G r, _attractor_under_assumptions fuel (G ∩ cox_z) aut
                        = Ok r) goals rs ∧
        acc'.1.2 = acc.1.2 ++ ((λ r, r.1.2) <$> rs) ∧
        acc'.2 = acc.2 ++ ((λ r, r.2) <$> rs).
Proof.
  revert acc. induction goals as [|G goals IH]; intros [[z yij] xijk]; simpl.
  - intros [= <-]. simpl. split; [done|]. exists []. rewrite !app_nil_r.
    by split; [constructor|].
  - intros (acc1 & H1 & H2)%rbind_Ok.
    apply rbind_Ok in H1 as ([[y yj] xjk] & Hr & [= <-]).
    apply IH in H2 as (Hz & rs & HF & Hy & Hx). simpl in *.
    split; [set_solver|]. exists ((y, yj, xjk) :: rs).
    split; [by constructor|]. simpl.
    rewrite Hy, Hx, <- !app_assoc. done.
Qed.

Lemma streett_round_Ok fuel env sys aut s s' :
  streett_round fuel env sys aut s = Ok s' →
  s'.1.1 ⊆ s.1.1 ∧
  ∃ rs, Forall2 (λ G r, _attractor_under_assumptions fuel
                          (G ∩ fx.step env sys s.1.1 aut) aut = Ok r)
                (win aut !!! "[]<>") rs ∧
        s'.1.2 = (λ r, r.1.2) <$> rs ∧ s'.2 = (λ r, r.2) <$> rs.
Proof.
  destruct s as [[z yij] xijk]. unfold streett_round. cbv zeta.
  intros H. apply streett_pass_Ok in H as (Hz & rs & HF & Hy & Hx).
  simpl in *. eauto.
Qed.

Lemma streett_round_total fuel env sys aut s :
  size (aut_true aut) < fuel →
  ∃ s', streett_round fuel env sys aut s = Ok s'.
Proof.
  intros Hfuel. destruct s as [[z yij] xijk]. unfold streett_round. cbv zeta.
  edestruct (for_each_total (A:=pred)
               (λ _ : pred * list (list pred) * list (list (list pred)), True))
    as (s' & H & _); [| |by eauto].
  - intros [[z1 yij1] xijk1] G _ _.
    edestruct (attractor_under_assumptions_total fuel (G ∩ fx.step env sys z aut))
      as (y & yj & xjk & -> & _); [|done|by eauto].
    pose proof (step_subseteq env sys z aut). set_solver.
  - done.
Qed.

Lemma solve_streett_game_eq build fuel rank aut :
  solve_streett_game build fuel rank aut =
  if bool_decide (rank = 1)
     && (bool_decide (bdd aut ≠ []) || bool_decide (vars aut = ∅))
     && bool_decide (0 < length (win aut !!! "<>[]"))
     && bool_decide (0 < length (win aut !!! "[]<>"))
  then
    let aut' := build aut in
    match while_changed fuel (λ '(z, _, _), z)
            (streett_round fuel (action aut !!! "env") (action aut !!! "sys")
                           aut')
            (aut_true aut', [], []) with
    | Ok (z, yij, xijk) =>
        if is_state_predicate (bdd aut') z
        then (Ok (z, yij, xijk), aut')
        else (Raise AssertionError, aut')
    | Raise e => (Raise e, aut')
    | OutOfFuel => (OutOfFuel, aut')
    end
  else (Raise AssertionError, aut).
Proof.
  unfold solve_streett_game. unfold_M.
  destruct (bool_decide (rank = 1)); [|done].
  destruct (bool_decide (bdd aut ≠ []) || bool_decide (vars aut = ∅)); [|done].
  destruct (bool_decide (0 < length (win aut !!! "<>[]"))); [|done].
  destruct (bool_decide (0 < length (win aut !!! "[]<>"))); [|done].
  cbn [andb]. cbv zeta.
  destruct (while_changed _ _ _ _) as [[[z yij] xijk]| |]; [|done..].
  by destruct (is_state_predicate _ _).
Qed.

Lemma streett_loop_total build fuel aut :
  size (aut_true (build aut)) < fuel →
  ∃ s, while_changed fuel (λ '(z, _, _), z)
         (streett_round fuel (action aut !!! "env") (action aut !!! "sys")
                        (build aut))
         (aut_true (build aut), [], []) = Ok s.
Proof.
  intros Hfuel.
  edestruct (while_changed_shrinks
               (λ _ : pred * list (list pred) * list (list (list pred)), True)
               (λ '(z, _, _), z)
               (streett_round fuel (action aut !!! "env")
                  (action aut !!! "sys") (build aut)))
    as (s & H & _); [| | |by eauto].
  - intros s _.
    destruct (streett_round_total fuel (action aut !!! "env")
                (action aut !!! "sys") (build aut) s Hfuel) as (s' & H).
    exists s'. split; [done|]. split; [done|].
    apply streett_round_Ok in H as [Hz _].
    by destruct s as [[? ?] ?], s' as [[? ?] ?].
  - done.
  - done.
Qed.

Lemma solve_streett_game_fuel build fuel rank aut :
  size (aut_true (build aut)) < fuel →
  (solve_streett_game build fuel rank aut).1 ≠ OutOfFuel.
Proof.
  intros Hfuel. rewrite solve_streett_game_eq.
  destruct (_ && _); [|done]. cbv zeta.
  destruct (streett_loop_total build fuel aut Hfuel) as ([[z yij] xijk] & ->).
  by destruct (is_state_predicate _ _).
Qed.

(** C2: the values of [Z] at the head of the outer loop of
    [solve_streett_game] form a chain that does not increase; every one
    of them is reached once the passes have fuel for more rounds than
    the manager has assignments; the loop then ends, and the [Z] that
    the solver returns is the one of the last head, which the last pass
    left as it was. *)
Theorem streett_Z_nonincreasing build aut :
  (∀ fuel n, size (aut_true (build aut)) < fuel →
     ∃ s, streett_Z build fuel aut n = Ok s) ∧
  (∀ fuel n s s',
     streett_Z build fuel aut n = Ok s →
     streett_Z build fuel aut (S n) = Ok s' →
     s'.1.1 ⊆ s.1.1) ∧
  (∀ fuel rank, size (aut_true (build aut)) < fuel →
     (solve_streett_game build fuel rank aut).1 ≠ OutOfFuel) ∧
  (∀ fuel rank z yij xijk aut',
     solve_streett_game build fuel rank aut = (Ok (z, yij, xijk), aut') →
     ∃ n s, streett_Z build fuel aut n = Ok s ∧
            streett_Z build fuel aut (S n) = Ok (z, yij, xijk) ∧
            z = s.1.1).
Proof.
  split_and!.
  - intros fuel n Hfuel. induction n as [|n [s IH]]; simpl; [by eauto|].
    rewrite IH. simpl. by apply streett_round_total.
  - intros fuel n s s' Hn. simpl. rewrite Hn. simpl.
    by intros [? _]%streett_round_Ok.
  - intros fuel rank Hfuel. rewrite solve_streett_game_eq.
    destruct (_ && _); [|done]. cbv zeta.
    destruct (streett_loop_total build fuel aut Hfuel) as ([[z yij] xijk] & ->).
    by destruct (is_state_predicate _ _).
  - intros fuel rank z yij xijk aut'. rewrite solve_streett_game_eq.
    destruct (_ && _); [|done]. cbv zeta.
    destruct (while_changed _ _ _ _) as [[[z1 yij1] xijk1]| |] eqn:H; [|done..].
    destruct (is_state_predicate _ _); [|done]. intros [= -> -> -> <-].
    eapply (while_changed_iterates _ _ (streett_Z build fuel aut) _ 0) in H
      as (n & [[z0 yij0] xijk0] & H1 & H2 & H3); [|done|done].
    exists n, (z0, yij0, xijk0). done.
Qed.

Lemma streett_Z_nonincreasing_witness :
  ∃ s s',
    streett_Z ex_build 5 (ex_game "\A \A") 0 = Ok s ∧
    streett_Z ex_build 5 (ex_game "\A \A") 1 = Ok s' ∧
    s'.1.1 ⊆ s.1.1.
Proof.
  assert (size (aut_true (ex_build (ex_game "\A \A"))) < 5) as Hfuel
    by vm_decide.
  destruct (proj1 (streett_Z_nonincreasing ex_build (ex_game "\A \A"))
              5 0 Hfuel) as [s Hs].
  destruct (proj1 (streett_Z_nonincreasing ex_build (ex_game "\A \A"))
              5 1 Hfuel) as [s' Hs'].
  exists s, s'. split; [exact Hs|]. split; [exact Hs'|].
  exact (proj1 (proj2 (streett_Z_nonincreasing ex_build (ex_game "\A \A")))
           5 0 s s' Hs Hs').
Defined.

(** C3, as the code has it: for every recurrence goal, the list of
    Y-iterates that [solve_streett_game] returns is not empty and does
    not decrease along its index; its first element is the value of [Y]
    after the first pass over the persistence sets, the join of the
    traps [trap(Hᵢ, CPre(⊥) ∨ (Gⱼ ∧ CPre(Z)))], which [first_basin]
    computes.  The solver returns or raises once it has fuel for more
    rounds than the manager has assignments. *)
Theorem streett_Y_iterates build aut :
  (∀ fuel rank, size (aut_true (build aut)) < fuel →
     (solve_streett_game build fuel rank aut).1 ≠ OutOfFuel) ∧
  (∀ fuel rank z yij xijk aut',
     solve_streett_game build fuel rank aut = (Ok (z, yij, xijk), aut') →
     aut' = build aut ∧
     Forall2 (λ G yj,
                yj ≠ [] ∧ nondecreasing yj ∧
                ∃ y1 xk1,
                  first_basin fuel
                    (G ∩ fx.step (action aut !!! "env") (action aut !!! "sys")
                           z aut') aut' = Ok (y1, xk1) ∧
                  yj !! 0 = Some y1)
             (win aut' !!! "[]<>") yij).
Proof.
  split; [intros fuel rank; apply solve_streett_game_fuel|].
  intros fuel rank z yij xijk aut'.
  rewrite solve_streett_game_eq.
  destruct (_ && _); [|done]. cbv zeta.
  destruct (while_changed _ _ _ _) as [[[z1 yij1] xijk1]| |] eqn:H; [|done..].
  destruct (is_state_predicate _ _); [|done]. intros [= -> -> -> <-].
  split; [done|].
  eapply (while_changed_spec (λ _, True)) in H
    as ([[z0 yij0] xijk0] & _ & Hbody & Hz); [|done..].
  simpl in Hz. subst z0.
  apply streett_round_Ok in Hbody as (_ & rs & HF & Hy & _). simpl in *.
  subst yij.
  apply Forall2_fmap_r. eapply Forall2_impl; [exact HF|].
  intros G [[y yj] xjk] Hr. simpl.
  apply attractor_under_assumptions_Ok in Hr
    as (Hne & Hch & _ & y1 & xk1 & H1 & H2 & _).
  eauto 10.
Qed.

Lemma streett_Y_iterates_witness :
  ∃ z yij xijk aut',
    solve_streett_game ex_build 5 1 (ex_game "\A \A")
      = (Ok (z, yij, xijk), aut') ∧
    Forall2 (λ G yj, yj ≠ [] ∧ nondecreasing yj ∧
               ∃ y1 xk1,
                 first_basin 5
                   (G ∩ fx.step (action (ex_game "\A \A") !!! "env")
                          (action (ex_game "\A \A") !!! "sys") z aut')
                   aut' = Ok (y1, xk1) ∧
                 yj !! 0 = Some y1)
            (win aut' !!! "[]<>") yij.
Proof.
  assert (ex_first_Y_nonempty = true) as Hok by (vm_compute; reflexivity).
  unfold ex_first_Y_nonempty in Hok.
  generalize dependent (ex_game "\A \A"). intros g.
  destruct (solve_streett_game ex_build 5 1 g)
    as [[[[z yij] xijk]| |] aut'] eqn:H; [|discriminate..].
  intros _. exists z, yij, xijk, aut'. split; [reflexivity|].
  exact (proj2 (proj2 (streett_Y_iterates ex_build g) 5 1 z yij xijk aut' H)).
Defined.

(** C3, as the specification states it, fails on the one-variable game
    of scenario 1: the solver returns, and the first Y-iterate that it
    recorded for the goal [x = 1] is not ⊥ (it is ⊤: the trap of the
    trivial persistence set reaches the goal from every state). *)
Lemma streett_Y_iterates_counterexample :
  ∃ z yij xijk aut' yj,
    solve_streett_game ex_build 5 1 (ex_game "\A \A")
      = (Ok (z, yij, xijk), aut') ∧
    yij !! 0 = Some yj ∧ yj !! 0 ≠ Some ∅.
Proof.
  assert (ex_first_Y_nonempty = true) as Hok by (vm_compute; reflexivity).
  unfold ex_first_Y_nonempty in Hok.
  generalize dependent (ex_game "\A \A"). intros g.
  destruct (solve_streett_game ex_build 5 1 g)
    as [[[[z yij] xijk]| |] aut'] eqn:H; [|discriminate..].
  simpl. destruct (yij !! 0) as [yj|] eqn:Hyj; [|discriminate].
  intros [_ Hne]%bool_decide_eq_true.
  exists z, yij, xijk, aut', yj. done.
Qed.

(** ** Sets of states *)

Lemma flip_flip v (a : gset string) : flip v (flip v a) = a.
Proof.
  unfold flip. destruct (decide (v ∈ a)) as [Hv|Hv].
  - rewrite decide_False by set_solver.
    apply set_eq. intros x. destruct (decide (x = v)); set_solver.
  - rewrite decide_True by set_solver.
    apply set_eq. intros x. destruct (decide (x = v)); set_solver.
Qed.

Lemma flip_subseteq D v (a : gset string) :
  v ∈ D → a ⊆ list_to_set D → flip v a ⊆ list_to_set D.
Proof. intros Hv Ha. unfold flip. destruct (decide (v ∈ a)); set_solver. Qed.

Lemma override_flip_in vs v (a b : gset string) :
  v ∈ vs → override vs (flip v a) b = override vs a b.
Proof.
  intros Hv. unfold override, flip. apply set_eq. intros x.
  destruct (decide (v ∈ a)); destruct (decide (x = v)); set_solver.
Qed.

Lemma override_flip_out vs v (a b : gset string) :
  v ∉ vs → b ⊆ list_to_set vs →
  override vs (flip v a) b = flip v (override vs a b).
Proof.
  intros Hv Hb. unfold override, flip. apply set_eq. intros x.
  assert (v ∉ b) by set_solver.
  destruct (decide (v ∈ a)).
  - rewrite decide_True by set_solver.
    destruct (decide (x = v)); set_solver.
  - rewrite decide_False by set_solver.
    destruct (decide (x = v)); set_solver.
Qed.

Lemma independent_iff D v (u : gset (gset string)) a :
  independent D v u → v ∈ D → a ⊆ list_to_set D →
  a ∈ u ↔ flip v a ∈ u.
Proof.
  intros Hu Hv Ha. split; [by apply Hu|].
  intros H. apply Hu in H; [|by apply flip_subseteq].
  by rewrite flip_flip in H.
Qed.

Lemma independent_true D v : v ∈ D → independent D v (bdd_true D).
Proof.
  intros Hv a Ha _. apply elem_of_bdd_true. by apply flip_subseteq.
Qed.

Lemma independent_false D v : independent D v ∅.
Proof. intros a _ Ha. set_solver. Qed.

Lemma independent_union D v (u1 u2 : gset (gset string)) :
  independent D v u1 → independent D v u2 → independent D v (u1 ∪ u2).
Proof. intros H1 H2 a Ha. rewrite !elem_of_union. naive_solver. Qed.

Lemma independent_intersection D v (u1 u2 : gset (gset string)) :
  independent D v u1 → independent D v u2 → independent D v (u1 ∩ u2).
Proof. intros H1 H2 a Ha. rewrite !elem_of_intersection. naive_solver. Qed.

Lemma independent_exist_in D vs v u :
  v ∈ D → v ∈ vs → independent D v (bdd_exist D vs u).
Proof.
  intros HD Hv a Ha. rewrite !elem_of_bdd_exist.
  intros (_ & b & Hb & Hu). split.
  - apply elem_of_bdd_true. by apply flip_subseteq.
  - exists b. split; [done|]. by rewrite override_flip_in.
Qed.

Lemma independent_forall_in D vs v u :
  v ∈ D → v ∈ vs → independent D v (bdd_forall D vs u).
Proof.
  intros HD Hv a Ha. rewrite !elem_of_bdd_forall.
  intros (_ & Hu). split.
  - apply elem_of_bdd_true. by apply flip_subseteq.
  - intros b Hb. rewrite override_flip_in by done. by apply Hu.
Qed.

Lemma override_subseteq D vs (a b : gset string) :
  Forall (.∈ D) vs → a ⊆ list_to_set D → b ⊆ list_to_set vs →
  override vs a b ⊆ list_to_set D.
Proof.
  intros Hvs Ha Hb. rewrite Forall_forall in Hvs. unfold override.
  intros x. rewrite elem_of_union, elem_of_difference.
  intros [[? _]|Hx]; [by apply Ha|].
  apply Hb in Hx. rewrite elem_of_list_to_set in *. auto.
Qed.

Lemma independent_exist_out D vs v u :
  v ∈ D → v ∉ vs → Forall (.∈ D) vs →
  independent D v u → independent D v (bdd_exist D vs u).
Proof.
  intros HD Hv Hvs Hind a Ha. rewrite !elem_of_bdd_exist.
  intros (_ & b & Hb & Hu). split.
  - apply elem_of_bdd_true. by apply flip_subseteq.
  - exists b. split; [done|]. rewrite override_flip_out by done.
    apply Hind; [|done]. by eapply override_subseteq.
Qed.

Lemma independent_forall_out D vs v u :
  v ∈ D → v ∉ vs → Forall (.∈ D) vs →
  independent D v u → independent D v (bdd_forall D vs u).
Proof.
  intros HD Hv Hvs Hind a Ha. rewrite !elem_of_bdd_forall.
  intros (_ & Hu). split.
  - apply elem_of_bdd_true. by apply flip_subseteq.
  - intros b Hb. rewrite override_flip_out by done.
    apply Hind; [|by apply Hu]. by eapply override_subseteq.
Qed.

Lemma is_state_predicate_spec D u :
  is_state_predicate D u = true ↔ state_predicate D u.
Proof.
  unfold is_state_predicate, state_predicate, bdd_support.
  rewrite forallb_forall. split.
  - intros H v Hv Hp a Ha Hu.
    destruct (decide (flip v a ∈ u)) as [|Hn]; [done|]. exfalso.
    assert (negb (is_primed v) = true) as Hnp.
    { apply H. apply list_elem_of_In, list_elem_of_filter. split; [|done].
      apply Exists_exists. exists a. split; [by apply elem_of_assignments|].
      tauto. }
    by destruct (is_primed v).
  - intros H v [Hex Hv]%list_elem_of_In%list_elem_of_filter.
    destruct (is_primed v) eqn:Hp; [|done]. exfalso.
    apply Exists_exists in Hex as (a & Ha%elem_of_assignments & Hn).
    apply Hn. apply (independent_iff D); [|done..].
    apply H; [done|]. by rewrite Hp.
Qed.

Lemma while_changed_inv {St} (I : St → Prop) cur (body : St → result St)
    fuel s s' :
  (∀ s s', I s → body s = Ok s' → I s') →
  I s → while_changed fuel cur body s = Ok s' → I s'.
Proof.
  intros Hb Hs H.
  eapply (while_changed_spec I) in H as (s0 & Hs0 & H0 & _); eauto.
Qed.

Lemma state_predicate_true D : state_predicate D (bdd_true D).
Proof. intros v Hv _. by apply independent_true. Qed.

Lemma state_predicate_false D : state_predicate D ∅.
Proof. intros v _ _. apply independent_false. Qed.

Lemma state_predicate_union D (u1 u2 : gset (gset string)) :
  state_predicate D u1 → state_predicate D u2 → state_predicate D (u1 ∪ u2).
Proof. intros H1 H2 v Hv Hp. apply independent_union; auto. Qed.

Lemma state_predicate_intersection D (u1 u2 : gset (gset string)) :
  state_predicate D u1 → state_predicate D u2 → state_predicate D (u1 ∩ u2).
Proof. intros H1 H2 v Hv Hp. apply independent_intersection; auto. Qed.

Lemma compiled_goals aut :
  compiled aut → Forall (state_predicate (bdd aut)) (win aut !!! "[]<>").
Proof.
  intros (_ & _ & H & _). eapply Forall_impl; [exact H|].
  intros u Hu. by apply is_state_predicate_spec, Is_true_true.
Qed.

Lemma compiled_holds aut :
  compiled aut → Forall (state_predicate (bdd aut)) (win aut !!! "<>[]").
Proof.
  intros (_ & _ & _ & H). eapply Forall_impl; [exact H|].
  intros u Hu. by apply is_state_predicate_spec, Is_true_true.
Qed.

(** The controllable predecessor quantifies every primed variable. *)
Lemma step_state_predicate env sys target aut :
  compiled aut → state_predicate (bdd aut) (fx.step env sys target aut).
Proof.
  intros (Hdecl & Hlisted & _ & _) v Hv Hp.
  rewrite Forall_forall in Hlisted. specialize (Hlisted v Hv Hp).
  apply Forall_app in Hdecl as [Henv Hsys].
  unfold fx.step, aut_exist, aut_forall. cbv zeta.
  set (u := if plus_one aut then _ else _). clearbody u.
  apply elem_of_app in Hlisted.
  destruct (moore aut).
  - destruct (decide (v ∈ varlist aut !!! "sys'")) as [Hin|Hout].
    + by apply independent_exist_in.
    + apply independent_exist_out; [done..|].
      apply independent_forall_in; [done|]. tauto.
  - destruct (decide (v ∈ varlist aut !!! "env'")) as [Hin|Hout].
    + by apply independent_forall_in.
    + apply independent_forall_out; [done..|].
      apply independent_exist_in; [done|]. tauto.
Qed.

Lemma trap_state_predicate fuel env sys safe aut unless q :
  compiled aut →
  state_predicate (bdd aut) safe → state_predicate (bdd aut) unless →
  fx.trap fuel env sys safe aut unless = Ok q →
  state_predicate (bdd aut) q.
Proof.
  intros Hc Hsafe Hunless. unfold fx.trap.
  apply (while_changed_inv (state_predicate (bdd aut))).
  - intros q0 q1 Hq0 [= <-].
    apply state_predicate_intersection; [|done].
    apply state_predicate_union; [|done]. by apply step_state_predicate.
  - apply state_predicate_true.
Qed.

Lemma attractor_under_assumptions_state_predicate fuel goal aut y yj xjk :
  compiled aut → state_predicate (bdd aut) goal →
  _attractor_under_assumptions fuel goal aut = Ok (y, yj, xjk) →
  state_predicate (bdd aut) y.
Proof.
  intros Hc Hgoal. unfold _attractor_under_assumptions. intros H.
  apply (while_changed_inv
           (λ s : pred * list pred * list (list pred),
              state_predicate (bdd aut) s.1.1)) in H; [done| |].
  - intros [[y0 yj0] xjk0] s' Hy0 ([y1 xk] & Hpass & [= <-])%rbind_Ok.
    simpl in *.
    apply (for_each_inv
             (λ t : pred * list pred, state_predicate (bdd aut) t.1))
      in Hpass; [done| |done].
    intros [y2 xk2] safe t Hsafe Hy2 (x & Hx & [= <-])%rbind_Ok. simpl in *.
    apply state_predicate_union; [done|].
    eapply trap_state_predicate; [done| | |exact Hx].
    + pose proof (compiled_holds aut Hc) as Hh.
      rewrite Forall_forall in Hh. by apply Hh.
    + apply state_predicate_union; [|done]. by apply step_state_predicate.
  - apply state_predicate_false.
Qed.

Lemma streett_round_state_predicate fuel env sys aut s s' :
  compiled aut → state_predicate (bdd aut) s.1.1 →
  streett_round fuel env sys aut s = Ok s' →
  state_predicate (bdd aut) s'.1.1.
Proof.
  intros Hc. destruct s as [[z yij] xijk]. simpl. intros Hz.
  unfold streett_round. cbv zeta. intros H.
  apply (for_each_inv
           (λ t : pred * list (list pred) * list (list (list pred)),
              state_predicate (bdd aut) t.1.1)) in H; [done| |done].
  intros [[z1 yij1] xijk1] G t HG Hz1.
  intros ([[y yj] xjk] & Hr & [= <-])%rbind_Ok. simpl in *.
  apply state_predicate_intersection; [done|].
  eapply attractor_under_assumptions_state_predicate; [done| |exact Hr].
  apply state_predicate_intersection; [|by apply step_state_predicate].
  pose proof (compiled_goals aut Hc) as Hg.
  rewrite Forall_forall in Hg. by apply Hg.
Qed.

Lemma attractor_inside_state_predicate fuel inside goal aut x xr :
  compiled aut →
  state_predicate (bdd aut) inside → state_predicate (bdd aut) goal →
  _attractor_inside fuel inside goal aut = Ok (x, xr) →
  state_predicate (bdd aut) x.
Proof.
  intros Hc Hin Hgoal. unfold _attractor_inside. intros H.
  apply (while_changed_inv
           (λ s : pred * list pred, state_predicate (bdd aut) s.1))
    in H; [done| |].
  - intros [x0 xr0] s' Hx0 [= <-]. simpl in *.
    apply state_predicate_union; [|done].
    apply state_predicate_intersection; [|done].
    apply state_predicate_union; [|done]. by apply step_state_predicate.
  - apply state_predicate_false.
Qed.

Lemma cycle_inside_state_predicate fuel z hold aut y xjr :
  compiled aut → state_predicate (bdd aut) hold →
  _cycle_inside fuel z hold aut = Ok (y, xjr) →
  state_predicate (bdd aut) y.
Proof.
  intros Hc Hhold. unfold _cycle_inside. intros H.
  apply (while_changed_inv
           (λ s : pred * list (list pred), state_predicate (bdd aut) s.1))
    in H; [done| |].
  - intros [y0 xjr0] s' Hy0 Hpass. simpl in *.
    apply (for_each_inv
             (λ t : pred * list (list pred), state_predicate (bdd aut) t.1))
      in Hpass; [done| |done].
    intros [y1 xjr1] G t HG Hy1 ([x xr] & Hx & [= <-])%rbind_Ok. simpl in *.
    apply state_predicate_intersection; [done|].
    eapply attractor_inside_state_predicate; [done| | |exact Hx].
    + apply state_predicate_intersection; [by apply step_state_predicate|].
      apply state_predicate_union; [by apply step_state_predicate|done].
    + pose proof (compiled_goals aut Hc) as Hg.
      rewrite Forall_forall in Hg. by apply Hg.
  - apply state_predicate_true.
Qed.

Lemma rabin_round_state_predicate fuel aut s s' :
  compiled aut → state_predicate (bdd aut) s.1.1.1 →
  rabin_round fuel aut s = Ok s' →
  state_predicate (bdd aut) s'.1.1.1.
Proof.
  intros Hc. destruct s as [[[z zk] yki] xkijr]. simpl. intros Hz.
  unfold rabin_round.
  intros ([[z' yi] xijr] & H & [= <-])%rbind_Ok. simpl.
  apply (for_each_inv
           (λ t : pred * list pred * list (list (list pred)),
              state_predicate (bdd aut) t.1.1)) in H; [done| |done].
  intros [[z1 yi1] xijr1] hold t Hh Hz1.
  intros ([y xjr] & Hy & [= <-])%rbind_Ok. simpl in *.
  apply state_predicate_union; [done|].
  eapply cycle_inside_state_predicate; [done| |exact Hy].
  pose proof (compiled_holds aut Hc) as Hhs.
  rewrite Forall_forall in Hhs. by apply Hhs.
Qed.

Lemma rabin_loop_total fuel aut :
  size (aut_true aut) < fuel →
  ∃ s, while_changed fuel (λ '(z, _, _, _), z) (rabin_round fuel aut)
         (aut_false aut, [], [], []) = Ok s.
Proof.
  intros Hfuel.
  edestruct (while_changed_grows
               (λ s : pred * list pred * list (list pred)
                      * list (list (list (list pred))),
                  s.1.1.1 ⊆ aut_true aut)
               (λ '(z, _, _, _), z) (rabin_round fuel aut)
               (aut_true aut) fuel (aut_false aut, [], [], []))
    as (s & H & _); [| | | |by eauto].
  - intros s Hs. destruct (rabin_round_total fuel _ s Hfuel Hs)
      as (s' & H1 & H2 & H3).
    exists s'. split_and!; [done..|].
    by destruct s as [[[? ?] ?] ?], s' as [[[? ?] ?] ?].
  - by intros [[[? ?] ?] ?].
  - simpl. set_solver.
  - unfold aut_false, bdd_false. rewrite size_empty. lia.
Qed.

Lemma solvable_asserts aut :
  solvable aut →
  bool_decide (1 = 1)
  && (bool_decide (bdd aut ≠ []) || bool_decide (vars aut = ∅))
  && bool_decide (0 < length (win aut !!! "<>[]"))
  && bool_decide (0 < length (win aut !!! "[]<>")) = true.
Proof.
  intros (Hb & Hh & Hg).
  rewrite (bool_decide_eq_true_2 (1 = 1)) by done.
  rewrite (bool_decide_eq_true_2 (0 < length (win aut !!! "<>[]"))) by done.
  rewrite (bool_decide_eq_true_2 (0 < length (win aut !!! "[]<>"))) by done.
  rewrite !andb_true_r. simpl.
  destruct Hb as [Hb|Hb].
  - by rewrite (bool_decide_eq_true_2 (bdd aut ≠ [])).
  - rewrite (bool_decide_eq_true_2 (vars aut = ∅)) by done.
    by rewrite orb_true_r.
Qed.

(** C7: on a game that passes the assertions at the head of the solvers
    and whose compiled form keeps the invariants, each solver, given
    fuel for more rounds than the manager has assignments, returns: the
    assertion that guards the return holds, since the winning set (the
    last Z-iterate, for the Rabin solver) depends on no primed
    variable. *)
Theorem solvers_return_state_predicate build aut fuel :
  solvable aut → compiled (build aut) →
  size (aut_true (build aut)) < fuel →
  (∃ z yij xijk,
     solve_streett_game build fuel 1 aut = (Ok (z, yij, xijk), build aut) ∧
     is_state_predicate (bdd (build aut)) z = true ∧
     ∀ v, v ∈ bdd_support (bdd (build aut)) z →
          v ∈ bdd (build aut) ∧ is_primed v = false) ∧
  (∃ zk yki xkijr z,
     solve_rabin_game build fuel 1 aut = (Ok (zk, yki, xkijr), build aut) ∧
     last zk = Some z ∧
     is_state_predicate (bdd (build aut)) z = true ∧
     ∀ v, v ∈ bdd_support (bdd (build aut)) z →
          v ∈ bdd (build aut) ∧ is_primed v = false).
Proof.
  intros Hs Hc Hfuel.
  assert (∀ z, is_state_predicate (bdd (build aut)) z = true →
               ∀ v, v ∈ bdd_support (bdd (build aut)) z →
          v ∈ bdd (build aut) ∧ is_primed v = false)
    as Hsupp.
  { intros z Hz v Hv. split.
    - unfold bdd_support in Hv. by apply list_elem_of_filter in Hv as [_ ?].
    - unfold is_state_predicate in Hz.
      rewrite forallb_forall in Hz. apply list_elem_of_In, Hz in Hv.
      by destruct (is_primed v). }
  split.
  - rewrite solve_streett_game_eq, solvable_asserts by done. cbv zeta.
    destruct (streett_loop_total build fuel aut Hfuel)
      as ([[z yij] xijk] & Hloop).
    rewrite Hloop.
    apply (while_changed_inv
             (λ s : pred * list (list pred) * list (list (list pred)),
                state_predicate (bdd (build aut)) s.1.1)) in Hloop.
    + simpl in Hloop. apply is_state_predicate_spec in Hloop as Hz.
      rewrite Hz. exists z, yij, xijk. split_and!; [done..|by apply Hsupp].
    + intros s s'. by apply streett_round_state_predicate.
    + apply state_predicate_true.
  - rewrite solve_rabin_game_eq, solvable_asserts by done. cbv zeta.
    destruct (rabin_loop_total fuel (build aut) Hfuel)
      as ([[[z zk] yki] xkijr] & Hloop).
    rewrite Hloop.
    pose proof Hloop as Hlast.
    apply (while_changed_spec rabin_chain) in Hlast
      as (s0 & Hs0 & Hbody & _).
    2:{ intros s s' Hch Hb. by apply rabin_round_chain in Hb as [? ?]. }
    2:{ split; [apply nondecreasing_nil|done]. }
    apply rabin_round_chain in Hbody as [[_ Hl] Hne]; [|done]. simpl in Hl, Hne.
    destruct (last zk) as [u|] eqn:Hzk; [|by apply last_None in Hzk].
    subst u.
    apply (while_changed_inv
             (λ s : pred * list pred * list (list pred)
                    * list (list (list (list pred))),
                state_predicate (bdd (build aut)) s.1.1.1)) in Hloop.
    + simpl in Hloop. apply is_state_predicate_spec in Hloop as Hz.
      rewrite Hz. exists zk, yki, xkijr, z.
      split_and!; [done..|by apply Hsupp].
    + intros s s'. by apply rabin_round_state_predicate.
    + apply state_predicate_false.
Qed.

Lemma solvers_return_state_predicate_witness :
  (∃ z yij xijk,
     solve_streett_game ex_build 5 1 (ex_game "\A \A")
       = (Ok (z, yij, xijk), ex_build (ex_game "\A \A")) ∧
     is_state_predicate (bdd (ex_build (ex_game "\A \A"))) z = true ∧
     ∀ v, v ∈ bdd_support (bdd (ex_build (ex_game "\A \A"))) z →
          v ∈ bdd (ex_build (ex_game "\A \A")) ∧ is_primed v = false) ∧
  (∃ zk yki xkijr z,
     solve_rabin_game ex_build 5 1 (ex_game "\A \A")
       = (Ok (zk, yki, xkijr), ex_build (ex_game "\A \A")) ∧
     last zk = Some z ∧
     is_state_predicate (bdd (ex_build (ex_game "\A \A"))) z = true ∧
     ∀ v, v ∈ bdd_support (bdd (ex_build (ex_game "\A \A"))) z →
          v ∈ bdd (ex_build (ex_game "\A \A")) ∧ is_primed v = false).
Proof.
  apply (solvers_return_state_predicate ex_build (ex_game "\A \A") 5).
  - unfold solvable. vm_decide.
  - unfold compiled. vm_decide.
  - vm_decide.
Defined.

(** ** The trivial winning set *)

Lemma solve_rabin_game_fuel build fuel rank aut :
  size (aut_true (build aut)) < fuel →
  (solve_rabin_game build fuel rank aut).1 ≠ OutOfFuel.
Proof.
  intros Hfuel. rewrite solve_rabin_game_eq.
  destruct (_ && _); [|done]. cbv zeta.
  destruct (rabin_loop_total fuel (build aut) Hfuel)
    as ([[[z zk] yki] xkijr] & ->).
  by destruct (is_state_predicate _ _).
Qed.

Lemma solve_streett_game_Ok build fuel rank aut r aut' :
  solve_streett_game build fuel rank aut = (Ok r, aut') → aut' = build aut.
Proof.
  rewrite solve_streett_game_eq.
  destruct (_ && _); [|done]. cbv zeta.
  destruct (while_changed _ _ _ _) as [[[z yij] xijk]| |]; [|done..].
  destruct (is_state_predicate _ _); [|done]. by intros [= _ <-].
Qed.

Lemma rabin_dual_spec new_Automaton aut_streett :
  let dual := rabin_dual new_Automaton aut_streett in
  (∀ v d, vars aut_streett !! v = Some d →
          vars dual !! v
          = Some (VarDecl (if decide (owner d = "sys") then "env" else "sys")
                          (dom d))) ∧
  action dual !! "env" = Some (action aut_streett !!! "sys") ∧
  action dual !! "sys" = Some (action aut_streett !!! "env") ∧
  win dual !! "[]<>"
  = Some ((λ w, "!(" +:+ w +:+ ")") <$> (win aut_streett !!! "<>[]")).
Proof.
  unfold rabin_dual. cbv zeta. simpl. split_and!.
  - intros v d Hv. apply lookup_union_Some_l. by rewrite lookup_fmap, Hv.
  - rewrite lookup_insert_ne by done. by rewrite lookup_insert_eq.
  - by rewrite lookup_insert_eq.
  - by rewrite lookup_insert_eq.
Qed.

(** C8: the set that [trivial_winning_set] returns is disjoint from the
    last Z-iterate of the Rabin solver on the dual game, that is the
    game compiled from the automaton with the owners and the actions
    swapped and the negated persistence sets as recurrence goals; and
    with fuel for more rounds than the manager has assignments the two
    solvers it calls return or raise. *)
Theorem trivial_disjoint_from_rabin
    build new_Automaton fill_blanks Automaton_build aut_streett :
  let dual := rabin_dual new_Automaton aut_streett in
  let games :=
    trivial_winning_set_games new_Automaton fill_blanks Automaton_build
                              aut_streett in
  ((∀ v d, vars aut_streett !! v = Some d →
           vars dual !! v
           = Some (VarDecl (if decide (owner d = "sys") then "env" else "sys")
                           (dom d))) ∧
   action dual !! "env" = Some (action aut_streett !!! "sys") ∧
   action dual !! "sys" = Some (action aut_streett !!! "env") ∧
   win dual !! "[]<>"
   = Some ((λ w, "!(" +:+ w +:+ ")") <$> (win aut_streett !!! "<>[]"))) ∧
  (∀ fuel,
     size (aut_true (build games.1)) < fuel →
     size (aut_true (build (set_bdd (bdd (build games.1)) games.2))) < fuel →
     trivial_winning_set build new_Automaton fill_blanks Automaton_build
                         fuel aut_streett ≠ OutOfFuel) ∧
  (∀ fuel trivial aut',
     trivial_winning_set build new_Automaton fill_blanks Automaton_build
                         fuel aut_streett = Ok (trivial, aut') →
     ∃ win_streett yij xijk aut_s zk yki xkijr aut_r win_rabin,
       solve_streett_game build fuel 1 games.1
         = (Ok (win_streett, yij, xijk), aut_s) ∧
       solve_rabin_game build fuel 1 (set_bdd (bdd aut_s) games.2)
         = (Ok (zk, yki, xkijr), aut_r) ∧
       last zk = Some win_rabin ∧
       trivial ∩ win_rabin = ∅).
Proof.
  intros dual games. split; [apply rabin_dual_spec|]. split.
  - intros fuel Hs Hr. unfold trivial_winning_set. fold games.
    destruct games as [aut_s aut_r]. simpl in *.
    pose proof (solve_streett_game_fuel build fuel 1 aut_s Hs) as Hfs.
    destruct (solve_streett_game build fuel 1 aut_s)
      as [[[[ws yij] xijk]|e|] aut_s'] eqn:Hss; [|done..].
    apply solve_streett_game_Ok in Hss as ->.
    pose proof (solve_rabin_game_fuel build fuel 1 _ Hr) as Hfr.
    destruct (solve_rabin_game build fuel 1 _)
      as [[[[zk yki] xkijr]|e|] aut_r']; [|done..].
    unfold last_item. by destruct (last zk).
  - intros fuel trivial aut'. unfold trivial_winning_set. fold games.
    destruct games as [aut_s aut_r]. simpl.
    destruct (solve_streett_game build fuel 1 aut_s)
      as [[[[ws yij] xijk]|e|] aut_s'] eqn:Hss; [|done..].
    destruct (solve_rabin_game build fuel 1 _)
      as [[[[zk yki] xkijr]|e|] aut_r'] eqn:Hrr; [|done..].
    unfold last_item. destruct (last zk) as [wr|] eqn:Hl; [|done].
    simpl. intros [= <- <-].
    exists ws, yij, xijk, aut_s', zk, yki, xkijr, aut_r', wr.
    split_and!; [done..|].
    unfold aut_not, bdd_not. set_solver.
Qed.

Lemma trivial_disjoint_from_rabin_witness :
  ∃ trivial aut' win_streett yij xijk aut_s zk yki xkijr aut_r win_rabin,
    trivial_winning_set ex_build ex_new_Automaton ex_fill_blanks
      ex_Automaton_build 5 ex_source = Ok (trivial, aut') ∧
    solve_streett_game ex_build 5 1
      (trivial_winning_set_games ex_new_Automaton ex_fill_blanks
         ex_Automaton_build ex_source).1
      = (Ok (win_streett, yij, xijk), aut_s) ∧
    solve_rabin_game ex_build 5 1
      (set_bdd (bdd aut_s)
         (trivial_winning_set_games ex_new_Automaton ex_fill_blanks
            ex_Automaton_build ex_source).2)
      = (Ok (zk, yki, xkijr), aut_r) ∧
    last zk = Some win_rabin ∧
    trivial ∩ win_rabin = ∅.
Proof.
  assert (is_Ok (trivial_winning_set ex_build ex_new_Automaton ex_fill_blanks
                   ex_Automaton_build 5 ex_source) = true)
    as Hok by (vm_compute; reflexivity).
  pose proof (proj2 (proj2 (trivial_disjoint_from_rabin ex_build
    ex_new_Automaton ex_fill_blanks ex_Automaton_build ex_source)) 5) as Hthm.
  cbv zeta in Hthm.
  generalize dependent (trivial_winning_set_games ex_new_Automaton
    ex_fill_blanks ex_Automaton_build ex_source). intros games.
  revert Hok.
  destruct (trivial_winning_set ex_build ex_new_Automaton ex_fill_blanks
              ex_Automaton_build 5 ex_source) as [[trivial aut']| |];
    [|discriminate..].
  intros _ Hthm. exists trivial, aut'.
  destruct (Hthm trivial aut' eq_refl)
    as (ws & yij & xijk & aut_s & zk & yki & xkijr & aut_r & wr & H).
  exists ws, yij, xijk, aut_s, zk, yki, xkijr, aut_r, wr.
  split; [reflexivity|exact H].
Defined.

(** ** Realizability *)

Lemma bdd_forall_elim D vs u (a : gset string) :
  a ∈ bdd_forall D vs u → a ∈ u.
Proof.
  rewrite elem_of_bdd_forall. intros [_ H].
  specialize (H (a ∩ list_to_set vs)).
  replace (override vs a (a ∩ list_to_set vs)) with a in H.
  - apply H. set_solver.
  - unfold override. apply set_eq. intros x.
    destruct (decide (x ∈ (list_to_set vs : gset string))); set_solver.
Qed.

Lemma override_self vs (a : gset string) :
  override vs a (a ∩ list_to_set vs) = a.
Proof.
  unfold override. apply set_eq. intros x.
  destruct (decide (x ∈ (list_to_set vs : gset string))); set_solver.
Qed.

Lemma override_override vs (a b c : gset string) :
  b ⊆ list_to_set vs → override vs (override vs a b) c = override vs a c.
Proof.
  intros Hb. unfold override. apply set_eq. intros x.
  rewrite !elem_of_union, !elem_of_difference, !elem_of_union,
    !elem_of_difference.
  specialize (Hb x). tauto.
Qed.

Lemma is_realizable_eq z aut :
  is_realizable z aut =
  let env_init := init aut !!! "env" in
  let sys_init := init aut !!! "sys" in
  let evars := varlist aut !!! "sys" in
  let uvars := varlist aut !!! "env" in
  let u := (sys_init ∩ z) ∩ env_init in
  let a := aut_exist evars env_init aut in
  if decide (env_init = ∅) then Raise AssertionError
  else if decide (qinit aut = "\A \A") then
    Ok (bool_decide ((sys_init ∩ z) ∪ aut_not aut env_init = aut_true aut))
  else if decide (qinit aut = "\E \E") then
    Ok (bool_decide (aut_exist (evars ++ uvars) u aut = aut_true aut))
  else if decide (qinit aut = "\A \E") then
    if moore aut then Raise AssertionError
    else Ok (bool_decide
               (aut_forall uvars (aut_exist evars (u ∪ aut_not aut a) aut) aut
                = aut_true aut))
  else if decide (qinit aut = "\E \A") then
    Ok (bool_decide
          (aut_exist evars (aut_forall uvars (u ∪ aut_not aut a) aut) aut
           = aut_true aut))
  else Raise ValueError.
Proof. reflexivity. Qed.

(** X1: the exceptions of [is_realizable].  It fails with an assertion
    error exactly when the environment's initial condition is ⊥ (the
    vacuous specification, whatever [qinit] is) or when [qinit] is
    ["\A \E"] on a Moore game; it raises [ValueError] exactly when the
    initial condition is not ⊥ and [qinit] is none of the four known
    values; it raises nothing else, and has no loop to run out of fuel. *)
Theorem is_realizable_errors z aut :
  (is_realizable z aut = Raise AssertionError ↔
     init aut !!! "env" = ∅ ∨ (qinit aut = "\A \E" ∧ moore aut = true)) ∧
  (is_realizable z aut = Raise ValueError ↔
     init aut !!! "env" ≠ ∅ ∧ ¬ known_qinit (qinit aut)) ∧
  is_realizable z aut ≠ Raise IndexError ∧
  is_realizable z aut ≠ OutOfFuel.
Proof.
  rewrite is_realizable_eq. cbv zeta. unfold known_qinit.
  rewrite !elem_of_cons, elem_of_nil.
  destruct (decide (init aut !!! "env" = ∅)) as [He|He].
  { split_and!; [|split|..]; try done; [tauto|tauto]. }
  destruct (decide (qinit aut = "\A \A")) as [->|H1].
  { split_and!; [split|split|..]; try done.
    - intros [?|[? _]]; done.
    - intros [_ H]. exfalso. apply H. tauto. }
  destruct (decide (qinit aut = "\E \E")) as [->|H2].
  { split_and!; [split|split|..]; try done.
    - intros [?|[? _]]; done.
    - intros [_ H]. exfalso. apply H. tauto. }
  destruct (decide (qinit aut = "\A \E")) as [->|H3].
  { destruct (moore aut); (split_and!; [split|split|..]; try done).
    - tauto.
    - intros [_ H]. exfalso. apply H. tauto.
    - intros [?|[_ ?]]; done.
    - intros [_ H]. exfalso. apply H. tauto. }
  destruct (decide (qinit aut = "\E \A")) as [->|H4].
  { split_and!; [split|split|..]; try done.
    - intros [?|[? _]]; done.
    - intros [_ H]. exfalso. apply H. tauto. }
  split_and!; [split|split|..]; try done.
  - intros [?|[? _]]; done.
  - intros _. split; [done|]. tauto.
Qed.

Lemma bdd_not_subseteq D u : bdd_not D u ⊆ bdd_true D.
Proof. unfold bdd_not. set_solver. Qed.

(** X2: [is_realizable] is monotone in the winning set: a game that is
    realizable from [z] is realizable from every larger node of the
    manager, under each of the four values of [qinit]. *)
Theorem is_realizable_mono z z' aut :
  z ⊆ z' → z' ⊆ aut_true aut →
  is_realizable z aut = Ok true → is_realizable z' aut = Ok true.
Proof.
  intros Hz Hz'. rewrite !is_realizable_eq. cbv zeta.
  unfold aut_exist, aut_forall, aut_not, aut_true in *.
  destruct (decide (init aut !!! "env" = ∅)); [done|].
  assert (∀ u u' : pred, u ⊆ u' → u' ⊆ bdd_true (bdd aut) →
            Ok (bool_decide (u = bdd_true (bdd aut))) = Ok true →
            Ok (bool_decide (u' = bdd_true (bdd aut))) = Ok true) as Hmono.
  { intros u u' Hu Hu' [= H%bool_decide_eq_true]. f_equal.
    apply bool_decide_eq_true. set_solver. }
  repeat (destruct (decide (qinit aut = _)); [|]); try done.
  - apply Hmono; [set_solver|].
    pose proof (bdd_not_subseteq (bdd aut) (init aut !!! "env")). set_solver.
  - apply Hmono; [|apply bdd_exist_subseteq].
    apply bdd_exist_mono. set_solver.
  - destruct (moore aut); [done|].
    apply Hmono; [|apply bdd_forall_subseteq].
    apply bdd_forall_mono, bdd_exist_mono. set_solver.
  - apply Hmono; [|apply bdd_exist_subseteq].
    apply bdd_exist_mono, bdd_forall_mono. set_solver.
Qed.

Lemma is_realizable_mono_witness :
  is_realizable (bdd_var ex_D "x") (ex_game_x "\A \A") = Ok true ∧
  is_realizable (bdd_true ex_D) (ex_game_x "\A \A") = Ok true.
Proof.
  assert (is_realizable (bdd_var ex_D "x") (ex_game_x "\A \A") = Ok true)
    as H1 by vm_decide.
  split; [exact H1|].
  apply (is_realizable_mono (bdd_var ex_D "x") (bdd_true ex_D)
           (ex_game_x "\A \A")); [vm_decide|vm_decide|exact H1].
Defined.

Lemma exists_forall_forall_exists D ev uv (u : gset (gset string)) :
  Forall (.∈ D) uv →
  bdd_exist D ev (bdd_forall D uv u) = bdd_true D →
  bdd_forall D uv (bdd_exist D ev u) = bdd_true D.
Proof.
  intros Huv H. apply set_eq. intros a. split; [apply bdd_forall_subseteq|].
  intros Ha. apply elem_of_bdd_forall. split; [done|]. intros b Hb.
  assert (override uv a b ∈ bdd_true D) as Ha'.
  { apply elem_of_bdd_true. eapply override_subseteq; [done| |done].
    by apply elem_of_bdd_true. }
  apply elem_of_bdd_exist. split; [done|].
  rewrite <- H in Ha'. apply elem_of_bdd_exist in Ha' as (_ & c & Hc & Hu).
  exists c. split; [done|]. by apply bdd_forall_elim in Hu.
Qed.

(** X3: the order of the quantifiers of [qinit].  On a Mealy game whose
    environment variables are declared, a winning set that is realizable
    under ["\E \A"] (one initial choice of the system works for every
    choice of the environment) is realizable under ["\A \E"] as well. *)
Theorem is_realizable_exists_forall z aut :
  Forall (.∈ bdd aut) (varlist aut !!! "env") → moore aut = false →
  is_realizable z (set_qinit "\E \A" aut) = Ok true →
  is_realizable z (set_qinit "\A \E" aut) = Ok true.
Proof.
  intros Huv Hm. rewrite !is_realizable_eq. cbv zeta.
  unfold set_qinit, aut_exist, aut_forall, aut_not, aut_true. simpl.
  rewrite Hm.
  destruct (decide (init aut !!! "env" = ∅)); [done|].
  intros [= H%bool_decide_eq_true]. f_equal. apply bool_decide_eq_true.
  by apply exists_forall_forall_exists.
Qed.

Lemma is_realizable_exists_forall_witness :
  is_realizable (bdd_true ex_D2) (set_qinit "\A \E" (ex_game2 "\A \A"))
  = Ok true.
Proof.
  apply (is_realizable_exists_forall (bdd_true ex_D2) (ex_game2 "\A \A"));
    [vm_decide|reflexivity|vm_decide].
Defined.

(** X4: what [is_realizable] decides under [qinit = "\A \A"]: on a game
    whose environment has an initial state, it returns whether every
    assignment of the manager that satisfies the environment's initial
    condition satisfies the system's and lies in the winning set. *)
Theorem is_realizable_forall_forall z aut :
  qinit aut = "\A \A" → init aut !!! "env" ≠ ∅ → z ⊆ aut_true aut →
  is_realizable z aut
  = Ok (bool_decide ((init aut !!! "env") ∩ aut_true aut
                       ⊆ (init aut !!! "sys") ∩ z)).
Proof.
  intros Hq He Hz. rewrite is_realizable_eq. cbv zeta.
  rewrite decide_False by done. rewrite decide_True by done. f_equal.
  unfold aut_not, aut_true in *.
  apply bool_decide_ext. split.
  - intros H a [Ha1 Ha2]%elem_of_intersection.
    rewrite <- H in Ha2. apply elem_of_union in Ha2 as [?|Hn]; [done|].
    apply elem_of_bdd_not in Hn. tauto.
  - intros H. apply set_eq. intros a. split.
    + intros [?|?%bdd_not_subseteq]%elem_of_union; set_solver.
    + intros Ha. destruct (decide (a ∈ init aut !!! "env")).
      * apply elem_of_union_l, H. set_solver.
      * apply elem_of_union_r, elem_of_bdd_not. done.
Qed.

Lemma is_realizable_forall_forall_witness :
  is_realizable (bdd_var ex_D "x") (ex_game_x "\A \A")
  = Ok (bool_decide ((init (ex_game_x "\A \A") !!! "env")
                       ∩ aut_true (ex_game_x "\A \A")
                       ⊆ (init (ex_game_x "\A \A") !!! "sys")
                         ∩ bdd_var ex_D "x")).
Proof.
  apply (is_realizable_forall_forall (bdd_var ex_D "x") (ex_game_x "\A \A"));
    [reflexivity|vm_decide|vm_decide].
Defined.

(** X5: a realizable game has a winning initial state.  When
    [is_realizable] returns [True], under any of the four values of
    [qinit], some assignment of the manager satisfies the initial
    conditions of both players and lies in the winning set. *)
Theorem is_realizable_initial_state z aut :
  init aut !!! "env" ⊆ aut_true aut →
  Forall (.∈ bdd aut) (varlist aut !!! "sys" ++ varlist aut !!! "env") →
  is_realizable z aut = Ok true →
  ∃ a, a ∈ aut_true aut ∧
       a ∈ init aut !!! "env" ∧ a ∈ init aut !!! "sys" ∧ a ∈ z.
Proof.
  intros Henv Hvars. rewrite is_realizable_eq. cbv zeta.
  pose proof Hvars as [Hev _]%Forall_app.
  unfold aut_exist, aut_forall, aut_not, aut_true in *.
  destruct (decide (init aut !!! "env" = ∅)) as [|He]; [done|].
  apply set_choose_L in He as [a0 Ha0]. pose proof (Henv _ Ha0) as Ht0.
  set (evars := varlist aut !!! "sys") in *.
  set (uvars := varlist aut !!! "env") in *.
  assert (∀ c, c ⊆ list_to_set evars →
            override evars a0 c
              ∈ (init aut !!! "sys" ∩ z ∩ init aut !!! "env")
                ∪ bdd_not (bdd aut)
                    (bdd_exist (bdd aut) evars (init aut !!! "env")) →
            ∃ a, a ∈ bdd_true (bdd aut) ∧ a ∈ init aut !!! "env" ∧
                 a ∈ init aut !!! "sys" ∧ a ∈ z) as Hpick.
  { intros c Hc [Hu|Hn]%elem_of_union.
    - exists (override evars a0 c). split; [|set_solver].
      apply elem_of_bdd_true. eapply override_subseteq; [done| |done].
      by apply elem_of_bdd_true.
    - exfalso. apply elem_of_bdd_not in Hn as [Ht Hn]. apply Hn.
      apply elem_of_bdd_exist. split; [done|].
      exists (a0 ∩ list_to_set evars). split; [set_solver|].
      rewrite override_override by done. by rewrite override_self. }
  destruct (decide (qinit aut = "\A \A")).
  { intros [= H%bool_decide_eq_true]. exists a0.
    rewrite <- H in Ht0. apply elem_of_union in Ht0 as [?|Hn].
    - rewrite <- H. set_solver.
    - apply elem_of_bdd_not in Hn. tauto. }
  destruct (decide (qinit aut = "\E \E")).
  { intros [= H%bool_decide_eq_true].
    rewrite <- H in Ht0. apply elem_of_bdd_exist in Ht0 as (Ht & b & Hb & Hu).
    exists (override (evars ++ uvars) a0 b). split; [|set_solver].
    apply elem_of_bdd_true. eapply override_subseteq; [done| |done].
    by apply elem_of_bdd_true. }
  destruct (decide (qinit aut = "\A \E")).
  { destruct (moore aut); [done|].
    intros [= H%bool_decide_eq_true].
    rewrite <- H in Ht0. apply bdd_forall_elim in Ht0.
    apply elem_of_bdd_exist in Ht0 as (_ & c & Hc & Hu). eauto. }
  destruct (decide (qinit aut = "\E \A")); [|done].
  intros [= H%bool_decide_eq_true].
  rewrite <- H in Ht0.
  apply elem_of_bdd_exist in Ht0 as (_ & c & Hc & Hu).
  apply bdd_forall_elim in Hu. eauto.
Qed.

Lemma is_realizable_initial_state_witness :
  ∃ a, a ∈ aut_true (ex_game2 "\E \A") ∧
       a ∈ init (ex_game2 "\E \A") !!! "env" ∧
       a ∈ init (ex_game2 "\E \A") !!! "sys" ∧ a ∈ bdd_true ex_D2.
Proof.
  apply (is_realizable_initial_state (bdd_true ex_D2) (ex_game2 "\E \A"));
    [vm_decide|vm_decide|vm_decide].
Defined.

(** ** More on the controllable action *)

Lemma bdd_prime_intersection D (u v : gset (gset string)) :
  bdd_prime D (u ∩ v) = bdd_prime D u ∩ bdd_prime D v.
Proof.
  apply set_eq. intros a.
  rewrite elem_of_intersection, !elem_of_bdd_prime, elem_of_intersection.
  tauto.
Qed.

Lemma bdd_forall_intersection D vs (u v : gset (gset string)) :
  bdd_forall D vs (u ∩ v) = bdd_forall D vs u ∩ bdd_forall D vs v.
Proof.
  apply set_eq. intros a.
  rewrite elem_of_intersection, !elem_of_bdd_forall.
  setoid_rewrite elem_of_intersection. naive_solver.
Qed.

(** X6: [_controllable_action] distributes over the conjunction of
    targets, and so is monotone in its target: the controllable
    transitions towards [t1 ∧ t2] are those towards both [t1] and [t2],
    whatever [plus_one] and [moore] are. *)
Theorem controllable_action_meet aut :
  (∀ t1 t2, _controllable_action (t1 ∩ t2) aut
            = _controllable_action t1 aut ∩ _controllable_action t2 aut) ∧
  (∀ t1 t2, t1 ⊆ t2 →
            _controllable_action t1 aut ⊆ _controllable_action t2 aut).
Proof.
  assert (∀ t1 t2, _controllable_action (t1 ∩ t2) aut
            = _controllable_action t1 aut ∩ _controllable_action t2 aut) as H.
  { intros t1 t2. unfold _controllable_action, prime, aut_forall. cbv zeta.
    rewrite bdd_prime_intersection.
    destruct (moore aut).
    - rewrite <- bdd_forall_intersection. f_equal.
      destruct (plus_one aut); apply set_eq; intros a; set_solver.
    - destruct (plus_one aut); apply set_eq; intros a; set_solver. }
  split; [exact H|].
  intros t1 t2 Ht. replace t1 with (t1 ∩ t2) by set_solver.
  rewrite H. set_solver.
Qed.

(** ** Moore and Mealy actions *)

Lemma not_elem_of_bdd_support D v (u : gset (gset string)) :
  v ∈ D → v ∉ bdd_support D u ↔ independent D v u.
Proof.
  intros Hv. unfold bdd_support. rewrite list_elem_of_filter.
  split.
  - intros H a Ha Hu.
    destruct (decide (flip v a ∈ u)) as [|Hn]; [done|]. exfalso.
    apply H. split; [|done]. apply Exists_exists. exists a.
    split; [by apply elem_of_assignments|]. tauto.
  - intros H [Hex _]. apply Exists_exists in Hex as (a & Ha & Hn).
    apply Hn. apply (independent_iff D); [done..|].
    by apply elem_of_assignments.
Qed.

Lemma filter_nil_Forall {A} (P : A → Prop) `{∀ x, Decision (P x)} l :
  filter P l = [] ↔ Forall (λ x, ¬ P x) l.
Proof.
  rewrite Forall_forall. split.
  - intros Hnil x Hx HP. by eapply filter_nil_not_elem_of.
  - intros Hall. destruct (filter P l) as [|x xs] eqn:Hf; [done|]. exfalso.
    assert (x ∈ filter P l) as [HP Hx]%list_elem_of_filter
      by (rewrite Hf; left).
    by apply (Hall x).
Qed.

Lemma filter_support_nil D (vs : list string) (u : gset (gset string)) :
  filter (.∈ vs) (bdd_support D u) = [] ↔
  ∀ v, v ∈ vs → v ∈ D → independent D v u.
Proof.
  rewrite filter_nil_Forall, Forall_forall. split.
  - intros H v Hvs HD. apply not_elem_of_bdd_support; [done|].
    intros Hs. by apply (H v).
  - intros H v Hs Hvs.
    assert (v ∈ D) as HD.
    { unfold bdd_support in Hs. by apply list_elem_of_filter in Hs as [_ ?]. }
    revert Hs. apply not_elem_of_bdd_support; auto.
Qed.

(** X7: the flag of [_warn_moore_mealy].  It returns [True], and prints
    nothing, exactly when the environment's action depends on no primed
    variable of the system and, for a Moore game, the system's action
    depends on no primed variable of the environment.  The Mealy-only
    test of the code never decides the flag by itself. *)
Theorem warn_moore_mealy_flag aut :
  _warn_moore_mealy aut = true ↔
  (∀ v, v ∈ varlist aut !!! "sys'" → v ∈ bdd aut →
        independent (bdd aut) v (action aut !!! "env")) ∧
  (moore aut = true →
   ∀ v, v ∈ varlist aut !!! "env'" → v ∈ bdd aut →
        independent (bdd aut) v (action aut !!! "sys")).
Proof.
  unfold _warn_moore_mealy, aut_support. cbv zeta.
  rewrite <- !filter_support_nil.
  destruct (moore aut); simpl;
    repeat case_bool_decide; simpl; split; try done; try tauto;
    intros [H1 H2]; try done; try (by apply H2 in H1); by exfalso; auto.
Qed.

(** ** More on the initial conditions *)

(** X8: what [_make_init] leaves alone.  Whatever its outcome, it
    changes nothing of the game but the keys ['impl_env'] and
    ['impl_sys'] of [init]; when it raises, the game is exactly as it
    was; and an unknown [qinit] raises [ValueError] before the two
    assertions are looked at, even when they would fail. *)
Theorem make_init_frame counter_init W aut :
  let r := _make_init counter_init W aut in
  (r.1 ≠ Ok () → r.2 = aut) ∧
  (¬ known_qinit (qinit aut) → r = (Raise ValueError, aut)) ∧
  bdd r.2 = bdd aut ∧ vars r.2 = vars aut ∧ varlist r.2 = varlist aut ∧
  action r.2 = action aut ∧ win r.2 = win aut ∧
  moore r.2 = moore aut ∧ plus_one r.2 = plus_one aut ∧
  qinit r.2 = qinit aut ∧
  ∀ k, k ≠ "impl_env" → k ≠ "impl_sys" → init r.2 !! k = init aut !! k.
Proof.
  cbv zeta. rewrite make_init_eq. cbv zeta.
  case_bool_decide as Hq.
  - destruct (_ && _); simpl; (split_and!; try done).
    intros k H1 H2. by rewrite !lookup_insert_ne.
  - simpl. split_and!; done.
Qed.

(** X9: the initial states of the implementation are winning initial
    states of the game.  When [_make_init] returns, under any value of
    [qinit], [init['impl_sys']] is the conjunction of the system's
    initial condition, of the initial condition of the internal
    variables and of the winning set, and [init['impl_env']] implies
    both [init['env']] and [init['impl_sys']]. *)
Theorem make_init_winning counter_init W aut aut' :
  _make_init counter_init W aut = (Ok (), aut') →
  ∃ e s, init aut' !! "impl_env" = Some e ∧
         init aut' !! "impl_sys" = Some s ∧
         s = ((init aut !!! "sys") ∩ counter_init) ∩ W ∧
         e ⊆ (init aut !!! "env") ∩ s.
Proof.
  intros (_ & _ & _ & He & Hs)%make_init_Ok.
  eexists _, _. split_and!; [exact He|exact Hs|done|].
  unfold impl_env_value, impl_env_code, impl_sys_code.
  unfold aut_exist, aut_forall, aut_not.
  destruct (decide (qinit aut = "\E \A")); [|done].
  intros a [Hb Hf%bdd_forall_elim]%elem_of_intersection.
  apply elem_of_union in Hf as [?|Hn]; [done|].
  apply elem_of_bdd_not in Hn. tauto.
Qed.

Lemma make_init_winning_witness :
  ∃ aut' e s,
    _make_init (bdd_true ex_D2) (bdd_true ex_D2) (ex_game2 "\E \A")
      = (Ok (), aut') ∧
    init aut' !! "impl_env" = Some e ∧
    init aut' !! "impl_sys" = Some s ∧
    s = ((init (ex_game2 "\E \A") !!! "sys") ∩ bdd_true ex_D2)
          ∩ bdd_true ex_D2 ∧
    e ⊆ (init (ex_game2 "\E \A") !!! "env") ∩ s.
Proof.
  pose proof ex_game2_make_init_Ok as Hok.
  generalize dependent (ex_game2 "\E \A"). intros g.
  generalize (bdd_true ex_D2). intros T Hok.
  destruct (_make_init T T g) as [[[]| |] aut'] eqn:H; [|discriminate Hok..].
  exists aut'.
  destruct (make_init_winning T T g aut' H) as (e & s & H1).
  exists e, s. split; [reflexivity|exact H1].
Defined.

(** ** What the solvers refuse *)

(** X10: the assertions at the head of the solvers.  Called with a rank
    other than 1, or on a game without a persistence set or without a
    recurrence goal, or on a game that declares variables in a manager
    that has none, each solver fails with an assertion error before it
    calls [build]: the game is left exactly as it was. *)
Theorem solvers_reject_bad_input build fuel rank aut :
  rank ≠ 1 ∨ ¬ solvable aut →
  solve_streett_game build fuel rank aut = (Raise AssertionError, aut) ∧
  solve_rabin_game build fuel rank aut = (Raise AssertionError, aut).
Proof.
  intros Hbad. rewrite solve_streett_game_eq, solve_rabin_game_eq.
  assert (bool_decide (rank = 1)
          && (bool_decide (bdd aut ≠ []) || bool_decide (vars aut = ∅))
          && bool_decide (0 < length (win aut !!! "<>[]"))
          && bool_decide (0 < length (win aut !!! "[]<>")) = false) as ->;
    [|done].
  apply not_true_is_false. intros H.
  rewrite !andb_true_iff, orb_true_iff, !bool_decide_eq_true in H.
  destruct H as [[[Hr Hb] Hh] Hg].
  destruct Hbad as [Hbad|Hbad]; [done|]. by apply Hbad.
Qed.

Lemma solvers_reject_bad_input_witness :
  solve_streett_game ex_build 5 2 (ex_game "\A \A")
    = (Raise AssertionError, ex_game "\A \A") ∧
  solve_rabin_game ex_build 5 2 (ex_game "\A \A")
    = (Raise AssertionError, ex_game "\A \A").
Proof.
  apply (solvers_reject_bad_input ex_build 5 2 (ex_game "\A \A")).
  left. lia.
Defined.

(** ** Passes that collect results *)

Lemma for_each_collect {A St R} (f : St → A → result St) (g : A → result R)
    (upd : St → R → St) xs s s' :
  (∀ s x, f s x = rbind (g x) (λ r, Ok (upd s r))) →
  for_each f xs s = Ok s' →
  ∃ rs, Forall2 (λ x r, g x = Ok r) xs rs ∧ s' = foldl upd s rs.
Proof.
  intros Hf. revert s. induction xs as [|x xs IH]; intros s; simpl.
  - intros [= <-]. exists []. by split; [constructor|].
  - intros (s1 & H1 & H2)%rbind_Ok. rewrite Hf in H1.
    destruct (g x) as [r| |] eqn:Hg; [|done..]. injection H1 as <-.
    apply IH in H2 as (rs & HF & ->). exists (r :: rs).
    by split; [constructor|].
Qed.

Lemma foldl_meet_collect {B} (rs : list (gset (gset string) * B)) y acc :
  let s := foldl (λ '(y, l) '(x, b), (y ∩ x, l ++ [b])) (y, acc) rs in
  s.2 = acc ++ rs.*2 ∧ s.1 ⊆ y ∧ Forall (λ r, s.1 ⊆ r.1) rs ∧
  ∀ p : gset (gset string), p ⊆ y → Forall (λ r, p ⊆ r.1) rs → p ⊆ s.1.
Proof.
  revert y acc. induction rs as [|[x b] rs IH]; intros y acc; simpl.
  - rewrite app_nil_r. split_and!; [done..|constructor|done].
  - destruct (IH (y ∩ x) (acc ++ [b])) as (H1 & H2 & H3 & H4).
    rewrite H1, <- app_assoc. split_and!; [done|set_solver| |].
    + constructor; [simpl; set_solver|done].
    + intros p Hp Hall. apply Forall_cons in Hall as [Hx Hall].
      apply H4; [set_solver|done].
Qed.

Lemma foldl_join_collect {B} (rs : list (gset (gset string) * B)) z
    (accy : list (gset (gset string))) (accx : list B) :
  let s := foldl (λ '(z, yi, xs) '(y, b), (z ∪ y, yi ++ [y], xs ++ [b]))
                 (z, accy, accx) rs in
  s.2 = accx ++ rs.*2 ∧ s.1.2 = accy ++ rs.*1 ∧
  z ⊆ s.1.1 ∧ Forall (λ r, r.1 ⊆ s.1.1) rs.
Proof.
  revert z accy accx. induction rs as [|[y b] rs IH]; intros z accy accx; simpl.
  - rewrite !app_nil_r. split_and!; [done..|constructor].
  - destruct (IH (z ∪ y) (accy ++ [y]) (accx ++ [b])) as (H1 & H2 & H3 & H4).
    rewrite H1, H2, <- !app_assoc. split_and!; [done|done|set_solver|].
    constructor; [simpl; set_solver|done].
Qed.

(** ** The attractor inside, as a fixpoint *)

Lemma attractor_inside_op_mono inside goal aut (p q : gset (gset string)) :
  p ⊆ q →
  attractor_inside_op inside goal aut p ⊆ attractor_inside_op inside goal aut q.
Proof.
  intros Hpq. unfold attractor_inside_op.
  pose proof (step_mono (action aut !!! "env") (action aut !!! "sys") p q aut
                Hpq). set_solver.
Qed.

Lemma last_cons_snoc {A} (a : A) l x : last (a :: l ++ [x]) = Some x.
Proof. by rewrite app_comm_cons, last_snoc. Qed.

Lemma attractor_inside_lfp_body inside goal aut x xr :
  attractor_inside_lfp_inv inside goal aut (x, xr) →
  let x' := attractor_inside_op inside goal aut x ∪ x in
  attractor_inside_lfp_inv inside goal aut (x', xr ++ [x']).
Proof.
  intros (Hpost & Hleast & Hlast) x'. simpl in *. split_and!; simpl.
  - assert (x ⊆ x') as Hx by set_solver.
    pose proof (attractor_inside_op_mono inside goal aut x x' Hx).
    set_solver.
  - intros p Hp. pose proof (Hleast p Hp) as Hxp.
    pose proof (attractor_inside_op_mono inside goal aut x p Hxp).
    set_solver.
  - apply last_cons_snoc.
Qed.

Lemma attractor_inside_lfp fuel inside goal aut x xr :
  _attractor_inside fuel inside goal aut = Ok (x, xr) →
  attractor_inside_op inside goal aut x = x ∧
  (∀ p, attractor_inside_op inside goal aut p ⊆ p → x ⊆ p) ∧
  ∃ xr0, xr = xr0 ++ [x] ∧ last (∅ :: xr0) = Some x.
Proof.
  unfold _attractor_inside. intros H.
  eapply (while_changed_spec (attractor_inside_lfp_inv inside goal aut)) in H
    as ([x0 xr0] & Hs0 & Hbody & Hcur).
  - simpl in Hcur. subst x0. injection Hbody as Hx Hxr.
    fold (attractor_inside_op inside goal aut x) in Hx, Hxr.
    destruct Hs0 as (Hpost & Hleast & Hlast). simpl in *.
    split_and!; [set_solver|done|]. exists xr0. by rewrite <- Hxr, Hx.
  - intros [x1 xr1] s' Hs [= <-].
    by apply attractor_inside_lfp_body.
  - split_and!; simpl; [set_solver|set_solver|done].
Qed.

(** X11: [_attractor_inside] computes a least fixpoint.  The node [x]
    that it returns is a fixpoint of [λ p. (CPre(p) ∨ goal) ∧ inside]
    and lies below every node that this operator maps into itself; and
    the last recorded iterate repeats the one before it (⊥, when it is
    the only one), which is why the loop stopped. *)
Theorem attractor_inside_least_fixpoint fuel inside goal aut x xr :
  _attractor_inside fuel inside goal aut = Ok (x, xr) →
  (fx.step (action aut !!! "env") (action aut !!! "sys") x aut ∪ goal)
    ∩ inside = x ∧
  (∀ p, (fx.step (action aut !!! "env") (action aut !!! "sys") p aut ∪ goal)
          ∩ inside ⊆ p → x ⊆ p) ∧
  ∃ xr0, xr = xr0 ++ [x] ∧ last (∅ :: xr0) = Some x.
Proof. apply attractor_inside_lfp. Qed.

Lemma attractor_inside_least_fixpoint_witness :
  ∃ x xr,
    _attractor_inside 5 (bdd_true ex_D) (bdd_var ex_D "x")
                      (ex_game "\A \A") = Ok (x, xr) ∧
    (fx.step (action (ex_game "\A \A") !!! "env")
             (action (ex_game "\A \A") !!! "sys") x (ex_game "\A \A")
       ∪ bdd_var ex_D "x") ∩ bdd_true ex_D = x ∧
    ∃ xr0, xr = xr0 ++ [x] ∧ last (∅ :: xr0) = Some x.
Proof.
  destruct (attractor_inside_total 5 (bdd_true ex_D) (bdd_var ex_D "x")
              (ex_game "\A \A")) as (x & xr & H); [vm_decide|].
  exists x, xr. split; [exact H|].
  destruct (attractor_inside_least_fixpoint 5 _ _ _ x xr H) as (H1 & _ & H3).
  split; [exact H1|exact H3].
Defined.

(** ** The cycle inside a persistence set *)

Lemma cycle_inside_pass fuel inside aut goals y0 (s' : pred * list (list pred)) :
  for_each (λ '(y, xjr) goal,
              '(x, xr) ← _attractor_inside fuel inside goal aut;
              Ok (y ∩ x, xjr ++ [xr]))
           goals (y0, []) = Ok s' →
  s'.1 ⊆ y0 ∧
  Forall2 (λ goal xr, ∃ x, _attractor_inside fuel inside goal aut = Ok (x, xr)
                           ∧ s'.1 ⊆ x) goals s'.2.
Proof.
  intros H.
  apply (for_each_collect _ (λ goal, _attractor_inside fuel inside goal aut)
           (λ '(y, l) '(x, b), (y ∩ x, l ++ [b]))) in H as (rs & HF & ->).
  2:{ intros [y xjr] goal. simpl.
      by destruct (_attractor_inside _ _ _ _) as [[x xr]| |]. }
  destruct (foldl_meet_collect rs y0 []) as (H2 & H1 & Hall & _).
  split; [done|]. rewrite H2. simpl.
  apply Forall2_fmap_r. rewrite Forall_forall in Hall.
  apply Forall2_same_length_lookup. split; [by eapply Forall2_length|].
  intros i goal [x xr] Hg Hr.
  eapply Forall2_lookup_lr in HF; [|done..]. simpl.
  exists x. split; [done|]. apply (Hall (x, xr)). by eapply list_elem_of_lookup_2.
Qed.

Lemma cycle_inside_Ok fuel z hold aut y xjr :
  _cycle_inside fuel z hold aut = Ok (y, xjr) →
  let env := action aut !!! "env" in
  let sys := action aut !!! "sys" in
  let inside := fx.step env sys y aut ∩ (fx.step env sys z aut ∪ hold) in
  Forall2 (λ goal xr, ∃ x, _attractor_inside fuel inside goal aut = Ok (x, xr)
                           ∧ y ⊆ x ∧ x ⊆ inside)
          (win aut !!! "[]<>") xjr.
Proof.
  unfold _cycle_inside. intros H.
  eapply (while_changed_spec (λ _, True)) in H
    as ([y0 xjr0] & _ & Hbody & Hcur); [|done..].
  simpl in Hcur. subst y0. cbv zeta in Hbody.
  apply cycle_inside_pass in Hbody as [_ HF]. simpl in HF. cbv zeta.
  eapply Forall2_impl; [exact HF|]. simpl.
  intros goal xr (x & Hx & Hy). exists x. split_and!; [done..|].
  apply attractor_inside_lfp in Hx as (Hfix & _).
  unfold attractor_inside_op in Hfix. set_solver.
Qed.

(** X12: the node that [_cycle_inside] returns is stable.  The
    attractors recorded in [xjr] are those of the last pass, one per
    recurrence goal, computed inside [CPre(y) ∧ (CPre(z) ∨ hold)] for
    the returned [y] itself, and [y] lies in every one of them; so with
    one recurrence goal at least, from [y] the system can keep the play
    in [y], in a state of [hold] or with a step to [z]. *)
Theorem cycle_inside_stable fuel z hold aut y xjr :
  _cycle_inside fuel z hold aut = Ok (y, xjr) →
  let env := action aut !!! "env" in
  let sys := action aut !!! "sys" in
  let inside := fx.step env sys y aut ∩ (fx.step env sys z aut ∪ hold) in
  Forall2 (λ goal xr, ∃ x, _attractor_inside fuel inside goal aut = Ok (x, xr)
                           ∧ y ⊆ x ∧ x ⊆ inside)
          (win aut !!! "[]<>") xjr ∧
  (win aut !!! "[]<>" ≠ [] → y ⊆ inside).
Proof.
  intros H env sys inside. pose proof (cycle_inside_Ok _ _ _ _ _ _ H) as HF.
  cbv zeta in HF. fold env sys inside in HF. split; [exact HF|].
  intros Hne. destruct HF as [|goal xr goals xjr' (x & _ & Hy & Hx) _];
    [done|]. set_solver.
Qed.

Lemma cycle_inside_stable_witness :
  ∃ y xjr,
    _cycle_inside 5 ∅ (bdd_true ex_D) (ex_game "\A \A") = Ok (y, xjr) ∧
    y ⊆ fx.step (action (ex_game "\A \A") !!! "env")
                (action (ex_game "\A \A") !!! "sys") y (ex_game "\A \A")
        ∩ (fx.step (action (ex_game "\A \A") !!! "env")
                   (action (ex_game "\A \A") !!! "sys") ∅ (ex_game "\A \A")
           ∪ bdd_true ex_D).
Proof.
  destruct (cycle_inside_total 5 ∅ (bdd_true ex_D) (ex_game "\A \A"))
    as (y & xjr & H & _); [vm_decide|].
  exists y, xjr. split; [exact H|].
  apply (proj2 (cycle_inside_stable 5 ∅ (bdd_true ex_D) (ex_game "\A \A")
                  y xjr H)).
  vm_decide.
Defined.

(** ** The iterates of the Rabin solver *)

Lemma rabin_round_Ok fuel aut z zk yki xkijr s' :
  rabin_round fuel aut (z, zk, yki, xkijr) = Ok s' →
  ∃ rs z',
    Forall2 (λ hold r, _cycle_inside fuel z hold aut = Ok r)
            (win aut !!! "<>[]") rs ∧
    s' = (z', zk ++ [z'], yki ++ [rs.*1], xkijr ++ [rs.*2]) ∧
    z ⊆ z' ∧ Forall (λ r, r.1 ⊆ z') rs.
Proof.
  unfold rabin_round. intros ([[z' yi] xijr] & H & [= <-])%rbind_Ok.
  apply (for_each_collect _ (λ hold, _cycle_inside fuel z hold aut)
           (λ '(z, yi, xs) '(y, b), (z ∪ y, yi ++ [y], xs ++ [b]))) in H
    as (rs & HF & Hs).
  2:{ intros [[z1 yi1] xijr1] hold. simpl.
      by destruct (_cycle_inside _ _ _ _) as [[y xjr]| |]. }
  destruct (foldl_join_collect rs z [] []) as (H1 & H2 & H3 & H4).
  rewrite <- Hs in H1, H2, H3, H4. simpl in *. subst yi xijr.
  exists rs, z'. done.
Qed.

Lemma rabin_round_inv fuel aut s s' :
  rabin_inv aut s → rabin_round fuel aut s = Ok s' → rabin_inv aut s'.
Proof.
  destruct s as [[[z zk] yki] xkijr]. intros [(L1 & L2 & F1 & F2) Hlast].
  intros (rs & z' & HF & -> & _ & _)%rabin_round_Ok.
  split; [|apply last_cons_snoc].
  unfold rabin_shape. rewrite !length_app. simpl.
  split_and!; [lia|lia| |].
  - apply Forall_app. split; [done|]. constructor; [|constructor].
    rewrite length_fmap. symmetry. by eapply Forall2_length.
  - apply Forall_app. split; [done|]. constructor; [|constructor].
    split; [rewrite length_fmap; symmetry; by eapply Forall2_length|].
    apply Forall_fmap, Forall_forall. intros [y xjr] Hr. simpl.
    apply list_elem_of_lookup in Hr as [i Hr].
    destruct (Forall2_lookup_r _ _ _ _ _ HF Hr) as (hold & _ & Hc).
    apply cycle_inside_Ok in Hc. cbv zeta in Hc.
    split; [symmetry; by eapply Forall2_length|].
    apply Forall_forall. intros xr Hxr.
    apply list_elem_of_lookup in Hxr as [j Hxr].
    destruct (Forall2_lookup_r _ _ _ _ _ Hc Hxr) as (goal & _ & x & Hx & _).
    apply attractor_inside_lfp in Hx as (_ & _ & xr0 & -> & _).
    apply last_snoc_ne.
Qed.

Lemma solve_rabin_game_loop build fuel rank aut zk yki xkijr aut' :
  solve_rabin_game build fuel rank aut = (Ok (zk, yki, xkijr), aut') →
  aut' = build aut ∧
  ∃ z zk0 yki0 xkijr0,
    rabin_inv aut' (z, zk0, yki0, xkijr0) ∧
    rabin_round fuel aut' (z, zk0, yki0, xkijr0) = Ok (z, zk, yki, xkijr).
Proof.
  rewrite solve_rabin_game_eq.
  destruct (_ && _); [|done]. cbv zeta.
  destruct (while_changed _ _ _ _) as [[[[z zk'] yki'] xkijr']| |] eqn:H;
    [|done..].
  destruct (is_state_predicate _ _); [|done]. intros [= -> -> -> <-].
  split; [done|].
  eapply (while_changed_spec (rabin_inv (build aut))) in H
    as ([[[z0 zk0] yki0] xkijr0] & Hs0 & Hbody & Hcur).
  - simpl in Hcur. subst z0. eauto 10.
  - intros s s'. apply rabin_round_inv.
  - split; [|done]. unfold rabin_shape. simpl. split_and!; [done|done|..];
      constructor.
Qed.

(** X13: the shape of what [solve_rabin_game] returns.  The three lists
    have one entry per round; every round holds one [y] and one list of
    attractors per persistence set, and every such list holds one list
    of iterates per recurrence goal, none of them empty: the indexing
    [zk[0]], [zk[-1]], [xr[0]] and the zips of [make_rabin_transducer]
    lose nothing on them. *)
Theorem rabin_iterates_shape build fuel rank aut zk yki xkijr aut' :
  solve_rabin_game build fuel rank aut = (Ok (zk, yki, xkijr), aut') →
  zk ≠ [] ∧ rabin_shape aut' zk yki xkijr.
Proof.
  intros (-> & z & zk0 & yki0 & xkijr0 & Hinv & Hbody)%solve_rabin_game_loop.
  pose proof (rabin_round_inv _ _ _ _ Hinv Hbody) as [Hshape _].
  split; [|done].
  apply rabin_round_Ok in Hbody as (rs & z' & _ & [= _ -> _ _] & _).
  apply last_snoc_ne.
Qed.

Lemma rabin_iterates_shape_witness :
  ∃ zk yki xkijr aut',
    solve_rabin_game ex_build 5 1 (ex_game "\A \A")
      = (Ok (zk, yki, xkijr), aut') ∧
    zk ≠ [] ∧ rabin_shape aut' zk yki xkijr.
Proof.
  assert (is_Ok (solve_rabin_game ex_build 5 1 (ex_game "\A \A")).1 = true)
    as Hok by (vm_compute; reflexivity).
  generalize dependent (ex_game "\A \A"). intros g.
  destruct (solve_rabin_game ex_build 5 1 g)
    as [[[[zk yki] xkijr]| |] aut'] eqn:H; [|discriminate..].
  intros _. exists zk, yki, xkijr, aut'. split; [reflexivity|].
  exact (rabin_iterates_shape ex_build 5 1 g zk yki xkijr aut' H).
Defined.

(** X14: the last round of [solve_rabin_game] is idle.  The last
    recorded Z-iterate repeats the one before it (⊥, when it is the only
    one), so that the rim of the last round is empty; and the [y] that
    the round records for each persistence set is the one that
    [_cycle_inside] computes from the winning set [zk[-1]] itself, and
    lies inside it. *)
Theorem rabin_last_round_idle build fuel rank aut zk yki xkijr aut' :
  solve_rabin_game build fuel rank aut = (Ok (zk, yki, xkijr), aut') →
  ∃ z zk0 yi,
    zk = zk0 ++ [z] ∧ last (∅ :: zk0) = Some z ∧ last yki = Some yi ∧
    Forall2 (λ hold y, ∃ xjr, _cycle_inside fuel z hold aut' = Ok (y, xjr)
                              ∧ y ⊆ z)
            (win aut' !!! "<>[]") yi.
Proof.
  intros (-> & z & zk0 & yki0 & xkijr0 & [_ Hlast] & Hbody)%solve_rabin_game_loop.
  apply rabin_round_Ok in Hbody as (rs & z' & HF & [= <- -> -> _] & _ & Hall).
  exists z, zk0, rs.*1. split_and!; [done|done|by rewrite last_snoc|].
  apply Forall2_fmap_r. rewrite Forall_forall in Hall.
  apply Forall2_same_length_lookup. split; [by eapply Forall2_length|].
  intros i hold [y xjr] Hh Hr.
  eapply Forall2_lookup_lr in HF; [|done..]. simpl.
  exists xjr. split; [done|]. apply (Hall (y, xjr)).
  by eapply list_elem_of_lookup_2.
Qed.

Lemma rabin_last_round_idle_witness :
  ∃ zk yki xkijr aut' z zk0,
    solve_rabin_game ex_build 5 1 (ex_game "\A \A")
      = (Ok (zk, yki, xkijr), aut') ∧
    zk = zk0 ++ [z] ∧ last (∅ :: zk0) = Some z.
Proof.
  assert (is_Ok (solve_rabin_game ex_build 5 1 (ex_game "\A \A")).1 = true)
    as Hok by (vm_compute; reflexivity).
  generalize dependent (ex_game "\A \A"). intros g.
  destruct (solve_rabin_game ex_build 5 1 g)
    as [[[[zk yki] xkijr]| |] aut'] eqn:H; [|discriminate..].
  intros _.
  destruct (rabin_last_round_idle ex_build 5 1 g zk yki xkijr aut' H)
    as (z & zk0 & yi & H1 & H2 & _).
  exists zk, yki, xkijr, aut', z, zk0. split; [reflexivity|]. by split.
Defined.

(** ** The iterates of the Streett solver *)

Lemma foldl_join_list (rs : list (gset (gset string))) y
    (acc : list (gset (gset string))) :
  let s := foldl (λ '(y, xk) x, (y ∪ x, xk ++ [x])) (y, acc) rs in
  s.2 = acc ++ rs ∧ y ⊆ s.1 ∧ Forall (λ x, x ⊆ s.1) rs.
Proof.
  revert y acc. induction rs as [|x rs IH]; intros y acc; simpl.
  - rewrite app_nil_r. split_and!; [done..|constructor].
  - destruct (IH (y ∪ x) (acc ++ [x])) as (H1 & H2 & H3).
    rewrite H1, <- app_assoc. split_and!; [done|set_solver|].
    constructor; [set_solver|done].
Qed.

Lemma foldl_meet_collect2 {B C}
    (rs : list (gset (gset string) * B * C)) z accy accx :
  let s := foldl (λ '(z, yij, xijk) '(y, yj, xjk),
                    (z ∩ y, yij ++ [yj], xijk ++ [xjk]))
                 (z, accy, accx) rs in
  s.2 = accx ++ ((λ r, r.2) <$> rs) ∧
  s.1.2 = accy ++ ((λ r, r.1.2) <$> rs) ∧
  s.1.1 ⊆ z ∧ Forall (λ r, s.1.1 ⊆ r.1.1) rs.
Proof.
  revert z accy accx.
  induction rs as [|[[y yj] xjk] rs IH]; intros z accy accx; simpl.
  - rewrite !app_nil_r. split_and!; [done..|constructor].
  - destruct (IH (z ∩ y) (accy ++ [yj]) (accx ++ [xjk])) as (H1 & H2 & H3 & H4).
    rewrite H1, H2, <- !app_assoc. split_and!; [done|done|set_solver|].
    constructor; [simpl; set_solver|done].
Qed.

Lemma basin_body_Ok fuel goal aut y0 yj0 xjk0 s' :
  (let cox_y := fx.step (action aut !!! "env") (action aut !!! "sys") y0 aut in
   let unless := cox_y ∪ goal in
   '(y, xk) ←
     for_each (λ '(y, xk) safe,
                 x ← fx.trap fuel (action aut !!! "env")
                        (action aut !!! "sys") safe aut unless;
                 Ok (y ∪ x, xk ++ [x]))
              (win aut !!! "<>[]") (y0, []);
   Ok (y, yj0 ++ [y], xjk0 ++ [xk])) = Ok s' →
  ∃ y xk,
    s' = (y, yj0 ++ [y], xjk0 ++ [xk]) ∧ y0 ⊆ y ∧
    Forall2 (λ safe x,
               fx.trap fuel (action aut !!! "env") (action aut !!! "sys")
                 safe aut
                 (fx.step (action aut !!! "env") (action aut !!! "sys") y0 aut
                    ∪ goal) = Ok x ∧ x ⊆ y)
            (win aut !!! "<>[]") xk.
Proof.
  cbv zeta. intros ([y xk] & H & [= <-])%rbind_Ok.
  apply (for_each_collect _
           (λ safe, fx.trap fuel (action aut !!! "env")
                      (action aut !!! "sys") safe aut
                      (fx.step (action aut !!! "env") (action aut !!! "sys")
                         y0 aut ∪ goal))
           (λ '(y, xk) x, (y ∪ x, xk ++ [x]))) in H as (rs & HF & Hs).
  2:{ intros [y1 xk1] safe. simpl. by destruct (fx.trap _ _ _ _ _ _). }
  destruct (foldl_join_list rs y0 []) as (H1 & H2 & H3).
  rewrite <- Hs in H1, H2, H3. simpl in *. subst xk.
  exists y, rs. split_and!; [done..|].
  rewrite Forall_forall in H3.
  apply Forall2_same_length_lookup. split; [by eapply Forall2_length|].
  intros i safe x Hsafe Hx. split.
  - by eapply Forall2_lookup_lr in HF.
  - apply H3. by eapply list_elem_of_lookup_2.
Qed.

Lemma attractor_under_assumptions_loop fuel goal aut y yj xjk :
  _attractor_under_assumptions fuel goal aut = Ok (y, yj, xjk) →
  basin_shape_inv aut (y, yj, xjk) ∧
  ∃ yj0 xjk0 xk,
    yj = yj0 ++ [y] ∧ last (∅ :: yj0) = Some y ∧ xjk = xjk0 ++ [xk] ∧
    Forall2 (λ safe x,
               fx.trap fuel (action aut !!! "env") (action aut !!! "sys")
                 safe aut
                 (fx.step (action aut !!! "env") (action aut !!! "sys") y aut
                    ∪ goal) = Ok x ∧ x ⊆ y)
            (win aut !!! "<>[]") xk.
Proof.
  unfold _attractor_under_assumptions. intros H.
  assert (∀ s s', basin_shape_inv aut s →
            (let '(y, yj, xjk) := s in
             let cox_y := fx.step (action aut !!! "env")
                            (action aut !!! "sys") y aut in
             let unless := cox_y ∪ goal in
             '(y, xk) ←
               for_each (λ '(y, xk) safe,
                           x ← fx.trap fuel (action aut !!! "env")
                                  (action aut !!! "sys") safe aut unless;
                           Ok (y ∪ x, xk ++ [x]))
                        (win aut !!! "<>[]") (y, []);
             Ok (y, yj ++ [y], xjk ++ [xk])) = Ok s' →
            basin_shape_inv aut s') as Hstep.
  { intros [[y0 yj0] xjk0] s' (L & F & Hlast) Hb.
    apply basin_body_Ok in Hb as (y1 & xk & -> & _ & HF).
    unfold basin_shape_inv. rewrite !length_app. simpl.
    split_and!; [lia| |apply last_cons_snoc].
    apply Forall_app. split; [done|]. constructor; [|constructor].
    symmetry. by eapply Forall2_length. }
  eapply (while_changed_spec (basin_shape_inv aut)) in H
    as ([[y0 yj0] xjk0] & Hs0 & Hbody & Hcur).
  - simpl in Hcur. subst y0. split; [by eapply Hstep|].
    destruct Hs0 as (_ & _ & Hlast).
    apply basin_body_Ok in Hbody as (y1 & xk & [= <- -> ->] & _ & HF).
    exists yj0, xjk0, xk. done.
  - exact Hstep.
  - unfold basin_shape_inv. simpl. split_and!; [done|constructor|done].
Qed.

(** X15: the node that [_attractor_under_assumptions] returns is
    stable.  The last recorded Y-iterate repeats the one before it (⊥,
    when it is the only one); the traps recorded last are those of the
    persistence sets for [unless = CPre(y) ∨ goal] with the returned [y]
    itself, and every one of them lies inside [y]. *)
Theorem attractor_under_assumptions_stable fuel goal aut y yj xjk :
  _attractor_under_assumptions fuel goal aut = Ok (y, yj, xjk) →
  ∃ yj0 xjk0 xk,
    yj = yj0 ++ [y] ∧ last (∅ :: yj0) = Some y ∧ xjk = xjk0 ++ [xk] ∧
    Forall2 (λ safe x,
               fx.trap fuel (action aut !!! "env") (action aut !!! "sys")
                 safe aut
                 (fx.step (action aut !!! "env") (action aut !!! "sys") y aut
                    ∪ goal) = Ok x ∧ x ⊆ y)
            (win aut !!! "<>[]") xk.
Proof. intros H. by apply attractor_under_assumptions_loop in H as [_ ?]. Qed.

Lemma attractor_under_assumptions_stable_witness :
  ∃ y yj xjk yj0,
    _attractor_under_assumptions 5 (bdd_var ex_D "x") (ex_game "\A \A")
      = Ok (y, yj, xjk) ∧
    yj = yj0 ++ [y] ∧ last (∅ :: yj0) = Some y.
Proof.
  destruct (attractor_under_assumptions_total 5 (bdd_var ex_D "x")
              (ex_game "\A \A")) as (y & yj & xjk & H & _);
    [vm_decide|vm_decide|].
  destruct (attractor_under_assumptions_stable 5 _ _ y yj xjk H)
    as (yj0 & xjk0 & xk & H1 & H2 & _).
  exists y, yj, xjk, yj0. split; [exact H|]. by split.
Defined.

Lemma streett_round_meet fuel env sys aut z yij0 xijk0 s' :
  streett_round fuel env sys aut (z, yij0, xijk0) = Ok s' →
  ∃ rs,
    Forall2 (λ G r, _attractor_under_assumptions fuel
                      (G ∩ fx.step env sys z aut) aut = Ok r
                    ∧ s'.1.1 ⊆ r.1.1)
            (win aut !!! "[]<>") rs ∧
    s'.1.1 ⊆ z ∧
    s'.1.2 = (λ r, r.1.2) <$> rs ∧ s'.2 = (λ r, r.2) <$> rs.
Proof.
  unfold streett_round. cbv zeta. intros H.
  apply (for_each_collect _
           (λ G, _attractor_under_assumptions fuel
                   (G ∩ fx.step env sys z aut) aut)
           (λ '(z, yij, xijk) '(y, yj, xjk),
              (z ∩ y, yij ++ [yj], xijk ++ [xjk]))) in H as (rs & HF & ->).
  2:{ intros [[z1 yij1] xijk1] G. simpl.
      by destruct (_attractor_under_assumptions _ _ _) as [[[y yj] xjk]| |]. }
  destruct (foldl_meet_collect2 rs z [] []) as (H1 & H2 & H3 & H4).
  exists rs. split_and!; [|done..].
  rewrite Forall_forall in H4.
  apply Forall2_same_length_lookup. split; [by eapply Forall2_length|].
  intros i G r HG Hr. split.
  - by eapply Forall2_lookup_lr in HF.
  - apply H4. by eapply list_elem_of_lookup_2.
Qed.

Lemma solve_streett_game_loop build fuel rank aut z yij xijk aut' :
  solve_streett_game build fuel rank aut = (Ok (z, yij, xijk), aut') →
  aut' = build aut ∧
  streett_round fuel (action aut !!! "env") (action aut !!! "sys") aut'
                (z, [], []) = Ok (z, yij, xijk).
Proof.
  rewrite solve_streett_game_eq.
  destruct (_ && _); [|done]. cbv zeta.
  destruct (while_changed _ _ _ _) as [[[z1 yij1] xijk1]| |] eqn:H; [|done..].
  destruct (is_state_predicate _ _); [|done]. intros [= -> -> -> <-].
  split; [done|].
  eapply (while_changed_spec (λ _, True)) in H
    as ([[z0 yij0] xijk0] & _ & Hbody & Hcur); [|done..].
  simpl in Hcur. subst z0. exact Hbody.
Qed.

(** X16: the winning set that [solve_streett_game] returns is stable,
    and the iterates returned with it are its own.  For every recurrence
    goal [G], the lists [yj] and [xjk] are those that
    [_attractor_under_assumptions] computes towards [G ∧ CPre(Z)] for
    the returned [Z] itself, and [Z] lies inside the attractor [y] that
    this call returns, the last element of [yj]. *)
Theorem streett_winning_set_stable build fuel rank aut z yij xijk aut' :
  solve_streett_game build fuel rank aut = (Ok (z, yij, xijk), aut') →
  ∃ rs,
    Forall2 (λ G r,
               _attractor_under_assumptions fuel
                 (G ∩ fx.step (action aut !!! "env") (action aut !!! "sys")
                        z aut') aut' = Ok r
               ∧ z ⊆ r.1.1 ∧ last r.1.2 = Some r.1.1)
            (win aut' !!! "[]<>") rs ∧
    yij = (λ r, r.1.2) <$> rs ∧ xijk = (λ r, r.2) <$> rs.
Proof.
  intros [-> H]%solve_streett_game_loop.
  apply streett_round_meet in H as (rs & HF & _ & Hy & Hx). simpl in *.
  exists rs. split_and!; [|done..].
  eapply Forall2_impl; [exact HF|]. simpl.
  intros G [[y yj] xjk] [Hr Hz]. split_and!; [done..|]. simpl.
  apply attractor_under_assumptions_loop in Hr
    as (_ & yj0 & _ & _ & -> & _). by rewrite last_snoc.
Qed.

Lemma streett_winning_set_stable_witness :
  ∃ z yij xijk aut' rs,
    solve_streett_game ex_build 5 1 (ex_game "\A \A")
      = (Ok (z, yij, xijk), aut') ∧
    Forall2 (λ G r,
               _attractor_under_assumptions 5
                 (G ∩ fx.step (action (ex_game "\A \A") !!! "env")
                        (action (ex_game "\A \A") !!! "sys") z aut') aut'
               = Ok r
               ∧ z ⊆ r.1.1 ∧ last r.1.2 = Some r.1.1)
            (win aut' !!! "[]<>") rs ∧
    yij = (λ r, r.1.2) <$> rs ∧ xijk = (λ r, r.2) <$> rs.
Proof.
  assert (is_Ok (solve_streett_game ex_build 5 1 (ex_game "\A \A")).1 = true)
    as Hok by (vm_compute; reflexivity).
  generalize dependent (ex_game "\A \A"). intros g.
  destruct (solve_streett_game ex_build 5 1 g)
    as [[[[z yij] xijk]| |] aut'] eqn:H; [|discriminate..].
  intros _.
  destruct (streett_winning_set_stable ex_build 5 1 g z yij xijk aut' H)
    as (rs & H1).
  exists z, yij, xijk, aut', rs. split; [reflexivity|exact H1].
Defined.

(** X17: the shape of what [solve_streett_game] returns.  [yij] and
    [xijk] have one entry per recurrence goal; no list of Y-iterates is
    empty, each comes with as many lists of traps as it has iterates,
    and each list of traps has one trap per persistence set: on them,
    [yj[0]] is defined and the assertion [len(xk) == len(holds)] of
    [make_streett_transducer] holds. *)
Theorem streett_iterates_shape build fuel rank aut z yij xijk aut' :
  solve_streett_game build fuel rank aut = (Ok (z, yij, xijk), aut') →
  streett_shape aut' yij xijk.
Proof.
  intros [-> H]%solve_streett_game_loop.
  apply streett_round_meet in H as (rs & HF & _ & Hy & Hx). simpl in *.
  subst yij xijk. unfold streett_shape. rewrite length_fmap.
  split; [symmetry; by eapply Forall2_length|].
  apply Forall2_fmap, Forall_Forall2_diag, Forall_forall.
  intros [[y yj] xjk] Hr. simpl.
  apply list_elem_of_lookup in Hr as [i Hr].
  destruct (Forall2_lookup_r _ _ _ _ _ HF Hr) as (G & _ & Hc & _).
  apply attractor_under_assumptions_loop in Hc
    as ((L & F & _) & yj0 & _ & _ & -> & _).
  split_and!; [apply last_snoc_ne|done..].
Qed.

Lemma streett_iterates_shape_witness :
  ∃ z yij xijk aut',
    solve_streett_game ex_build 5 1 (ex_game "\A \A")
      = (Ok (z, yij, xijk), aut') ∧
    streett_shape aut' yij xijk.
Proof.
  assert (is_Ok (solve_streett_game ex_build 5 1 (ex_game "\A \A")).1 = true)
    as Hok by (vm_compute; reflexivity).
  generalize dependent (ex_game "\A \A"). intros g.
  destruct (solve_streett_game ex_build 5 1 g)
    as [[[[z yij] xijk]| |] aut'] eqn:H; [|discriminate..].
  intros _. exists z, yij, xijk, aut'. split; [reflexivity|].
  exact (streett_iterates_shape ex_build 5 1 g z yij xijk aut' H).
Defined.

(** ** The transducers and the system's action *)

Lemma foldl_inv {A B} (I : A → Prop) (f : A → B → A) xs a :
  (∀ a x, x ∈ xs → I a → I (f a x)) → I a → I (foldl f a xs).
Proof.
  revert a. induction xs as [|x xs IH]; intros a Hf Ha; simpl; [done|].
  apply IH.
  - intros a' x' Hx'. apply Hf. by right.
  - apply Hf; [by left|done].
Qed.

Lemma controllable_action_plus_one target aut :
  plus_one aut = true →
  _controllable_action target aut ⊆ action aut !!! "sys".
Proof.
  intros Hp a. unfold _controllable_action, aut_forall. rewrite Hp. cbv zeta.
  destruct (moore aut).
  - intros Ha%bdd_forall_elim. set_solver.
  - set_solver.
Qed.

(** Undo the reads, writes and assertions that a call went through. *)
Ltac m_inv :=
  repeat match goal with
         | H : run _ _ = (Ok _, _) |- _ =>
             unfold run in H; apply pair_equal_spec in H as [H ?]; subst
         | H : reads _ _ = (Ok _, _) |- _ =>
             unfold reads in H; apply pair_equal_spec in H as [H ?];
             injection H as H; subst
         | H : modify _ _ = (Ok _, _) |- _ =>
             unfold modify in H; apply pair_equal_spec in H as [_ H]; subst
         | H : get _ = (Ok _, _) |- _ =>
             unfold get in H; apply pair_equal_spec in H as [H ?];
             injection H as H; subst
         | H : assert ?b _ = (Ok _, _) |- _ =>
             unfold assert in H; apply pair_equal_spec in H as [H ?];
             destruct b eqn:?; [clear H|discriminate H]; subst
         end.

Ltac forget_prologue dv :=
  repeat match goal with
         | H : modify (dv _) _ = _ |- _ => clear H
         | H : modify (λ a, set_varlist _ a) _ = _ |- _ => clear H
         | H : run (is_realizable _) _ = _ |- _ => clear H
         | H : reads _warn_moore_mealy _ = _ |- _ => clear H
         end.

Lemma make_init_keeps counter_init W aut aut' :
  _make_init counter_init W aut = (Ok (), aut') →
  action aut' = action aut ∧ plus_one aut' = plus_one aut.
Proof.
  rewrite make_init_eq. case_bool_decide; [|done]. cbv zeta.
  destruct (_ && _); [|done]. by intros [= <-].
Qed.

Ltac foldl_inv_in H I :=
  match type of H with
  | foldl ?f ?a ?xs = _ =>
      let Hinv := fresh "Hinv" in
      pose proof (foldl_inv I f xs a) as Hinv;
      rewrite H in Hinv; simpl in Hinv; apply Hinv; clear Hinv
  end.

Lemma make_streett_transducer_sys dv ae asm z yij xijk aut r aut' :
  make_streett_transducer dv ae asm z yij xijk aut = (Ok r, aut') →
  plus_one aut' = true →
  action aut' !! "impl" = Some r ∧ r ⊆ action aut' !!! "sys".
Proof.
  unfold make_streett_transducer. intros H Hp. bind_inv H.
  forget_prologue dv. m_inv.
  match goal with
  | Hm : _make_init _ _ _ = (Ok ?u, _) |- _ =>
      destruct u; apply make_init_keeps in Hm as [Ha Hpo]
  end.
  simpl in Ha, Hpo. rewrite Hp in Hpo. symmetry in Hpo.
  match goal with Hb : bool_decide _ = true |- _ => clear Hb end.
  rewrite Ha, Hpo. simpl negb. cbv iota.
  rewrite lookup_total_insert_eq, lookup_insert_eq.
  rewrite lookup_total_insert_ne by done.
  split; [done|].
  match goal with
  | |- _ ⊆ action ?g !!! "sys" =>
      pose proof (λ t, controllable_action_plus_one t g Hpo) as Hc;
      set (sys := action g !!! "sys") in *
  end.
  assert (∀ u v : pred, u ⊆ sys → u ∩ v ⊆ sys) as Hl by set_solver.
  assert (∀ u v : pred, v ⊆ sys → u ∩ v ⊆ sys) as Hr by set_solver.
  assert (∀ u v : pred, u ⊆ sys → v ⊆ sys → u ∪ v ⊆ sys) as Hu by set_solver.
  apply Hl, Hu; [apply Hu|].
  - apply Hr, Hc.
  - match goal with
    | H : for_each _ (enumerate yij) _ = Ok _ |- _ =>
        apply (for_each_inv (λ rho : pred, rho ⊆ sys)) in H; [done| |done]
    end.
    intros rho [i yj] s' _ Hrho (basin & _ & Hf)%rbind_Ok.
    match type of Hf with
    | context [foldl ?f ?a ?xs] =>
        destruct (foldl f a xs) as [rho_2j b] eqn:Hfold
    end.
    injection Hf as <-.
    apply Hu; [done|]. apply Hl.
    foldl_inv_in Hfold (λ p : pred * pred, p.1 ⊆ sys); [|done].
    intros [r0 b0] y _ Hr0. simpl in *. apply Hu; [done|]. apply Hr, Hc.
  - match goal with
    | H : for_each _ (enumerate xijk) _ = Ok _ |- _ =>
        apply (for_each_inv (λ rho : pred, rho ⊆ sys)) in H; [done| |done]
    end.
    intros rho [i xjk] s' _ Hrho ([rho_3j used] & Hf & [= <-])%rbind_Ok.
    apply Hu; [done|]. apply Hl.
    apply (for_each_inv (λ p : pred * pred, p.1 ⊆ sys)) in Hf; [done| |done].
    intros [r0 u0] xk [r1 u1] _ Hr0. simpl in Hr0.
    case_bool_decide; [|done]. intros [= Hfold].
    foldl_inv_in Hfold (λ p : pred * pred, p.1 ⊆ sys); [|done].
    intros [r2 u2] [x hold] _ Hr2. simpl in *. apply Hu; [done|].
    apply Hl, Hr, Hc.
Qed.

Lemma make_rabin_transducer_sys dv ae asm zk yki xkijr aut r aut' :
  make_rabin_transducer dv ae asm zk yki xkijr aut = (Ok r, aut') →
  plus_one aut' = true →
  action aut' !! "impl" = Some r ∧ r ⊆ action aut' !!! "sys".
Proof.
  unfold make_rabin_transducer. intros H Hp. bind_inv H.
  forget_prologue dv.
  match type of H with
  | context [foldl ?f ?a ?xs] =>
      destruct (foldl f a xs) as [rho_1 basin1] eqn:Hfold1
  end.
  bind_inv H.
  repeat match type of H with
         | context [match ?e with pair _ _ => _ end] =>
             destruct e; bind_inv H
         end.
  m_inv.
  match goal with
  | Hm : _make_init _ _ _ = (Ok ?u, _) |- _ =>
      destruct u; apply make_init_keeps in Hm as [Ha Hpo]
  end.
  simpl in Ha, Hpo. rewrite Hp in Hpo. symmetry in Hpo.
  match goal with Hb : bool_decide _ = true |- _ => clear Hb end.
  rewrite Ha, Hpo. simpl negb. cbv iota.
  rewrite lookup_total_insert_eq, lookup_insert_eq.
  rewrite lookup_total_insert_ne by done.
  split; [done|].
  match goal with
  | |- _ ⊆ action ?g !!! "sys" =>
      pose proof (λ t, controllable_action_plus_one t g Hpo) as Hc;
      set (sys := action g !!! "sys") in *
  end.
  assert (∀ u v : pred, u ⊆ sys → u ∩ v ⊆ sys) as Hl by set_solver.
  assert (∀ u v : pred, v ⊆ sys → u ∩ v ⊆ sys) as Hr by set_solver.
  assert (∀ u v : pred, u ⊆ sys → v ⊆ sys → u ∪ v ⊆ sys) as Hu by set_solver.
  assert (∅ ⊆ sys) as He by set_solver.
  assert (g1 ⊆ sys ∧ g2 ⊆ sys ∧ g0 ⊆ sys) as (H2 & H3 & H4).
  { match goal with
    | H : for_each _ (zip _ xkijr) _ = Ok _ |- _ =>
        apply (for_each_inv
                 (λ s : pred * pred * pred * pred,
                    s.1.1.1 ⊆ sys ∧ s.1.1.2 ⊆ sys ∧ s.1.2 ⊆ sys)) in H;
          [done| |done]
    end.
    intros [[[r2 r3] r4] b] [[z yi] xijr] s' _ (H2 & H3 & H4).
    intros (v & Hv & [= <-])%rbind_Ok. simpl in *.
    assert (∀ (k : nat → string) (ys : list pred),
              foldl (λ (v0 : pred) '(i, y2),
                       v0 ∪ ae (k i) x21 ∩ _controllable_action y2 x21)
                    (aut_false x21) (enumerate ys) ⊆ sys) as Hpick.
    { intros k ys. apply (foldl_inv (λ v0 : pred, v0 ⊆ sys)); [|done].
      intros v0 [i y2] _ Hv0. apply Hu; [done|]. apply Hr, Hc. }
    split_and!.
    - apply Hu; [done|].
      apply Hr, (Hpick (λ i, "_hold" +:+ "' = " +:+ pretty i)).
    - apply Hu; [done|]. apply Hr.
      apply (for_each_inv (λ v0 : pred, v0 ⊆ sys)) in Hv; [done| |done].
      intros v0 [i xjr] v1 _ Hv0 Hin.
      apply (for_each_inv (λ v0 : pred, v0 ⊆ sys)) in Hin; [done| |done].
      intros v2 [j [xr goal]] v3 _ Hv2 (xb & _ & Hf)%rbind_Ok.
      match type of Hf with
      | context [foldl ?f ?a ?xs] =>
          destruct (foldl f a xs) as [p xb'] eqn:Hfold
      end.
      injection Hf as <-. apply Hu; [done|]. apply Hl, Hl.
      foldl_inv_in Hfold (λ p : pred * pred, p.1 ⊆ sys); [|done].
      intros [p0 b0] x1 _ Hp0. simpl in *. apply Hu; [done|].
      apply Hl, Hl, Hc.
    - apply Hu; [done|].
      apply Hr, (Hpick (λ i, "_hold" +:+ " = " +:+ pretty i)). }
  apply Hl. repeat apply Hu; [|done..].
  foldl_inv_in Hfold1 (λ p : pred * pred, p.1 ⊆ sys); [|done].
  intros [r0 b0] z _ Hr0. simpl in *. apply Hu; [done|].
  apply Hl, Hr, Hc.
Qed.

(** X18: under [plus_one], the action of the implementation obeys the
    system's action.  When a transducer returns on a game with
    [plus_one] set, the node that it returns is the one it wrote under
    [action['impl']], and it implies [action['sys']]: every piece ρ of
    the strategy is cut by a controllable action, which holds the
    system's action under that convention. *)
Theorem transducers_obey_sys_action dv ae asm aut :
  (∀ z yij xijk r aut',
     make_streett_transducer dv ae asm z yij xijk aut = (Ok r, aut') →
     plus_one aut' = true →
     action aut' !! "impl" = Some r ∧ r ⊆ action aut' !!! "sys") ∧
  (∀ zk yki xkijr r aut',
     make_rabin_transducer dv ae asm zk yki xkijr aut = (Ok r, aut') →
     plus_one aut' = true →
     action aut' !! "impl" = Some r ∧ r ⊆ action aut' !!! "sys").
Proof.
  split.
  - intros z yij xijk r aut'. apply make_streett_transducer_sys.
  - intros zk yki xkijr r aut'. apply make_rabin_transducer_sys.
Qed.

Lemma transducers_obey_sys_action_witness :
  ∃ r aut',
    make_streett_transducer ex_declare_variables ex_add_expr
      ex_assert_support_moore (bdd_true ex_D)
      [[bdd_true ex_D; bdd_true ex_D]] [[[bdd_true ex_D]; [bdd_true ex_D]]]
      (ex_game "\A \A") = (Ok r, aut') ∧
    action aut' !! "impl" = Some r ∧ r ⊆ action aut' !!! "sys".
Proof.
  assert (ex_transducer_plus_one = true) as Hok by (vm_compute; reflexivity).
  unfold ex_transducer_plus_one in Hok. cbv zeta in Hok.
  pose proof (proj1 (transducers_obey_sys_action ex_declare_variables
    ex_add_expr ex_assert_support_moore (ex_game "\A \A"))) as Hthm.
  generalize dependent (ex_game "\A \A"). intros g.
  generalize (bdd_true ex_D). intros T Hok Hthm.
  destruct (make_streett_transducer _ _ _ T _ _ g) as [[r| |] aut'] eqn:H;
    [|discriminate Hok..].
  simpl in Hok. exists r, aut'. split; [reflexivity|].
  exact (Hthm T _ _ r aut' H Hok).
Defined.

(** ** Nested lists *)

Lemma nested_ind' {A} (P : nested A → Prop) :
  (∀ a, P (Item a)) →
  (∀ xs, Forall P xs → P (Nested xs)) →
  ∀ x, P x.
Proof.
  intros HI HN. fix IH 1. intros [a|xs]; [apply HI|].
  apply HN. induction xs as [|x xs IHxs]; constructor; [apply IH|apply IHxs].
Qed.

Lemma map_nested_lists_compose {A B C} (f : A → B) (g : B → C) x :
  _map_nested_lists g (_map_nested_lists f x) = _map_nested_lists (g ∘ f) x.
Proof.
  induction x as [a|xs IH] using nested_ind'; simpl; [done|].
  f_equal. rewrite <- list_fmap_compose. by apply Forall_fmap_ext.
Qed.

Lemma map_nested_lists_items {A B} (f : A → B) x :
  items (_map_nested_lists f x) = f <$> items x.
Proof.
  induction x as [a|xs IH] using nested_ind'; [done|].
  cbn [items _map_nested_lists].
  induction IH as [|x xs Hx _ IHxs]; [done|].
  rewrite !fmap_cons. cbn [concat]. by rewrite fmap_app, Hx, IHxs.
Qed.

(** X19: [_map_nested_lists] maps the items and keeps the lists.  It
    applies [f] once to every item that is not a list, in order, and
    returns lists nested as those of its argument; mapping [g] over the
    result is mapping the composition over the argument; and on the
    lists of lists that the solvers return it is the map of maps. *)
Theorem map_nested_lists_spec {A B C} (f : A → B) (g : B → C) :
  (∀ x : nested A,
     items (_map_nested_lists f x) = fmap (M:=list) f (items x)) ∧
  (∀ x, _map_nested_lists (λ _, ()) (_map_nested_lists f x)
        = _map_nested_lists (λ _, ()) x) ∧
  (∀ x, _map_nested_lists g (_map_nested_lists f x)
        = _map_nested_lists (g ∘ f) x) ∧
  (∀ xss : list (list A),
     _map_nested_lists f (nested2 xss)
     = nested2 (fmap (M:=list) (fmap (M:=list) f) xss)) ∧
  _map_nested_lists f (Nested []) = Nested [].
Proof.
  split_and!.
  - apply map_nested_lists_items.
  - intros x. by rewrite map_nested_lists_compose.
  - apply map_nested_lists_compose.
  - intros xss. unfold nested2, nested1. simpl. f_equal.
    rewrite <- !list_fmap_compose. apply list_fmap_ext. intros _ xs _. simpl.
    f_equal. by rewrite <- !list_fmap_compose.
  - done.
Qed.

(** X20: copying between a manager and itself does nothing, however
    deep the lists: mapping [_copy_bdd] from [a] to [a] over nested
    lists of nodes returns them as they are, whatever [a.copy] would
    do; between two managers it is the map of [a.copy]. *)
Theorem copy_bdd_same_manager {manager : Type} `{EqDecision manager}
    (copy : manager → gset (gset string) → manager → gset (gset string))
    (a b : manager) x :
  _map_nested_lists (λ u, _copy_bdd copy u a a) x = x ∧
  (a ≠ b →
   _map_nested_lists (λ u, _copy_bdd copy u a b) x
   = _map_nested_lists (λ u, copy a u b) x).
Proof.
  split.
  - induction x as [u|xs IH] using nested_ind'; simpl.
    + unfold _copy_bdd. by rewrite decide_True.
    + f_equal. rewrite <- (list_fmap_id xs) at 2. by apply Forall_fmap_ext.
  - intros Hab. induction x as [u|xs IH] using nested_ind'; simpl.
    + unfold _copy_bdd. by rewrite decide_False.
    + f_equal. by apply Forall_fmap_ext.
Qed.

(** ** The dual automaton *)

Lemma swap_owner_twice (d : var_decl) :
  owner d = "env" ∨ owner d = "sys" →
  VarDecl
    (if decide ((if decide (owner d = "sys") then "env" else "sys") = "sys")
     then "env" else "sys") (dom d) = d.
Proof. destruct d as [o dm]. simpl. by intros [-> | ->]. Qed.

(** X21: dualizing twice.  When [symbolic.Automaton()] declares no
    variable and every variable of the automaton is owned by ["env"] or
    by ["sys"], the dual of the dual automaton that
    [trivial_winning_set] builds has the variables of the automaton,
    with their owners and domains, and its two actions; a variable with
    any other owner is owned by ["sys"] in the dual. *)
Theorem rabin_dual_twice new_Automaton aut :
  vars new_Automaton = ∅ →
  let dual := rabin_dual new_Automaton aut in
  let dual2 := rabin_dual new_Automaton dual in
  ((∀ v d, vars aut !! v = Some d → owner d = "env" ∨ owner d = "sys") →
   vars dual2 = vars aut) ∧
  action dual2 !!! "env" = action aut !!! "env" ∧
  action dual2 !!! "sys" = action aut !!! "sys" ∧
  (∀ v d, vars aut !! v = Some d → owner d ≠ "sys" →
          owner <$> vars dual !! v = Some "sys").
Proof.
  intros Hnew dual dual2. unfold dual2, dual, rabin_dual. cbv zeta. simpl.
  rewrite Hnew, !(right_id_L ∅ (∪)). split_and!.
  - intros Hown. apply map_eq. intros v. rewrite !lookup_fmap.
    destruct (vars aut !! v) as [d|] eqn:Hv; simpl; [|done].
    f_equal. apply swap_owner_twice. by eapply Hown.
  - rewrite lookup_total_insert_ne by done. rewrite lookup_total_insert_eq.
    by rewrite lookup_total_insert_eq.
  - rewrite lookup_total_insert_eq.
    rewrite lookup_total_insert_ne by done. by rewrite lookup_total_insert_eq.
  - intros v d Hv Hns. rewrite lookup_fmap, Hv. simpl.
    by rewrite decide_False.
Qed.

Lemma rabin_dual_twice_witness :
  vars (rabin_dual ex_new_Automaton (rabin_dual ex_new_Automaton ex_source))
  = vars ex_source.
Proof.
  apply (proj1 (rabin_dual_twice ex_new_Automaton ex_source eq_refl)).
  intros v d Hv. unfold ex_source in Hv. simpl in Hv.
  apply lookup_singleton_Some in Hv as [_ <-]. by right.
Defined.

(** ** What the transducers write *)

Lemma make_init_result counter_init W aut aut' :
  _make_init counter_init W aut = (Ok (), aut') →
  aut' = set_init (<["impl_sys" := impl_sys_code counter_init W aut]>
                     (<["impl_env" := impl_env_value counter_init W aut]>
                        (init aut))) aut.
Proof.
  rewrite make_init_eq. case_bool_decide; [|done]. cbv zeta.
  destruct (_ && _); [|done]. by intros [= <-].
Qed.

Lemma make_streett_transducer_wrote dv ae asm z yij xijk aut r aut' :
  make_streett_transducer dv ae asm z yij xijk aut = (Ok r, aut') →
  transducer_wrote ["_goal"] r
    (dv [("_goal", (0, Z.of_nat (length (win aut !!! "[]<>")) - 1)%Z)] aut)
    aut'.
Proof.
  unfold make_streett_transducer. intros H. bind_inv H. m_inv.
  match goal with
  | Hm : _make_init _ _ _ = (Ok ?u, _) |- _ =>
      destruct u; apply make_init_result in Hm as ->
  end.
  unfold transducer_wrote. simpl.
  rewrite lookup_total_insert_eq. split_and!; try done. eauto.
Qed.

Lemma make_rabin_transducer_wrote dv ae asm zk yki xkijr aut r aut' :
  make_rabin_transducer dv ae asm zk yki xkijr aut = (Ok r, aut') →
  transducer_wrote ["_hold"; "_goal"] r
    (dv [("_hold", (0, Z.of_nat (length (win aut !!! "<>[]")) - 1 + 1)%Z);
         ("_goal", (0, Z.of_nat (length (win aut !!! "[]<>")) - 1)%Z)] aut)
    aut'.
Proof.
  unfold make_rabin_transducer. intros H. bind_inv H.
  match type of H with
  | context [foldl ?f ?a ?xs] =>
      destruct (foldl f a xs) as [rho_1 basin1] eqn:Hfold1
  end.
  bind_inv H.
  repeat match type of H with
         | context [match ?e with pair _ _ => _ end] =>
             destruct e; bind_inv H
         end.
  m_inv.
  match goal with
  | Hm : _make_init _ _ _ = (Ok ?u, _) |- _ =>
      destruct u; apply make_init_result in Hm as ->
  end.
  unfold transducer_wrote. simpl.
  rewrite lookup_total_insert_eq. split_and!; try done. eauto.
Qed.

(** X22: what a transducer that returns has written.  The game it
    leaves is the game in which [declare_variables] declared the memory
    (["_goal"] over [0..n_goals-1]; for the Rabin transducer also
    ["_hold"] over [0..n_holds]), with the memory variables appended to
    [varlist['sys']], the returned node under [action['impl']] and the
    keys ['impl_env'] and ['impl_sys'] of [init] set; the manager, the
    variables, the winning conditions, the other actions and initial
    conditions, [moore], [plus_one] and [qinit] are not touched. *)
Theorem transducers_frame dv ae asm aut :
  (∀ z yij xijk r aut',
     make_streett_transducer dv ae asm z yij xijk aut = (Ok r, aut') →
     transducer_wrote ["_goal"] r
       (dv [("_goal", (0, Z.of_nat (length (win aut !!! "[]<>")) - 1)%Z)] aut)
       aut') ∧
  (∀ zk yki xkijr r aut',
     make_rabin_transducer dv ae asm zk yki xkijr aut = (Ok r, aut') →
     transducer_wrote ["_hold"; "_goal"] r
       (dv [("_hold", (0, Z.of_nat (length (win aut !!! "<>[]")) - 1 + 1)%Z);
            ("_goal", (0, Z.of_nat (length (win aut !!! "[]<>")) - 1)%Z)]
           aut)
       aut').
Proof.
  split.
  - intros z yij xijk r aut'. apply make_streett_transducer_wrote.
  - intros zk yki xkijr r aut'. apply make_rabin_transducer_wrote.
Qed.

Lemma transducers_frame_witness :
  ∃ r aut',
    make_streett_transducer ex_declare_variables ex_add_expr
      ex_assert_support_moore (bdd_true ex_D)
      [[bdd_true ex_D; bdd_true ex_D]] [[[bdd_true ex_D]; [bdd_true ex_D]]]
      (ex_game "\A \A") = (Ok r, aut') ∧
    varlist aut' !! "sys" = Some ["x"; "_goal"] ∧
    action aut' !! "impl" = Some r.
Proof.
  assert (ex_transducer_plus_one = true) as Hok by (vm_compute; reflexivity).
  unfold ex_transducer_plus_one in Hok. cbv zeta in Hok.
  apply andb_prop in Hok as [Hok _].
  pose proof (proj1 (transducers_frame ex_declare_variables
    ex_add_expr ex_assert_support_moore (ex_game "\A \A"))) as Hthm.
  assert (varlist (ex_game "\A \A") !!! "sys" = ["x"]) as Hsys
    by reflexivity.
  unfold ex_declare_variables in Hthm.
  generalize dependent (ex_game "\A \A"). intros g.
  generalize (bdd_true ex_D). intros T Hok Hthm Hsys.
  destruct (make_streett_transducer _ _ _ T _ _ g) as [[r| |] aut'] eqn:H;
    [|discriminate Hok..].
  exists r, aut'. split; [reflexivity|].
  destruct (Hthm T _ _ r aut' H) as (_ & _ & _ & _ & _ & _ & Hv & Ha & _).
  rewrite Hv, Ha, Hsys. by rewrite !lookup_insert_eq.
Defined.

(** ** Consistency of system graphs *)

Lemma check_Returns b : automata.check b = automata.Returns () ↔ b = true.
Proof. destruct b; simpl; split; congruence. Qed.

Lemma for_all_Returns {A} (body : A → automata.outcome ()) xs :
  automata.for_all body xs = automata.Returns () ↔
  ∀ x, x ∈ xs → body x = automata.Returns ().
Proof.
  induction xs as [|x xs IH]; simpl.
  - split; [|done]. intros _ x Hx. by apply elem_of_nil in Hx.
  - destruct (body x) as [[]|e] eqn:Hx; simpl.
    + rewrite IH. split.
      * intros Hall y [->|Hy]%elem_of_cons; auto.
      * intros Hall y Hy. apply Hall. by right.
    + split; [done|]. intros Hall.
      specialize (Hall x (list_elem_of_here _ _)). congruence.
Qed.

(** X23: [make_consistent] restores what [assert_consistent] asserts.
    After [make_consistent] the assertion of
    [_SystemGraph.assert_consistent] holds; the method touches neither
    nodes nor edges, removes initial nodes only, changes nothing on a
    consistent graph and nothing when it is called again; and when an
    initial node of a consistent graph has been removed, the assertion
    fails until [make_consistent] is called, which forgets that node
    and no other. *)
Theorem make_consistent_spec {N} `{Countable N}
    (g : automata._SystemGraph (N:=N)) :
  automata.SystemGraph_assert_consistent (automata.make_consistent g)
    = automata.Returns () ∧
  automata.make_consistent (automata.make_consistent g)
    = automata.make_consistent g ∧
  automata.node (automata.make_consistent g) = automata.node g ∧
  automata.edge (automata.make_consistent g) = automata.edge g ∧
  automata.initial_nodes (automata.make_consistent g)
    ⊆ automata.initial_nodes g ∧
  (automata.SystemGraph_assert_consistent g = automata.Returns () →
   automata.make_consistent g = g ∧
   ∀ u, u ∈ automata.initial_nodes g →
        automata.SystemGraph_assert_consistent (automata.remove_node u g)
          = automata.Raises automata.AssertionError ∧
        automata.initial_nodes
          (automata.make_consistent (automata.remove_node u g))
          = automata.initial_nodes g ∖ {[u]}).
Proof.
  destruct g as [nd ed ini].
  unfold automata.SystemGraph_assert_consistent, automata.make_consistent,
    automata.remove_node. simpl.
  split_and!; try done.
  - apply check_Returns, bool_decide_eq_true. set_solver.
  - f_equal. set_solver.
  - set_solver.
  - intros Hc%check_Returns%bool_decide_eq_true. split.
    + f_equal. set_solver.
    + intros u Hu. split.
      * rewrite bool_decide_eq_false_2; [done|].
        rewrite dom_delete_L. set_solver.
      * rewrite dom_delete_L. set_solver.
Qed.

(** ** Consistency of transition systems *)

Lemma check_value_Returns v dm :
  automata._check_value v dm = automata.Returns () ↔ automata.in_domain v dm.
Proof.
  destruct dm as [|lo hi|]; simpl.
  - rewrite check_Returns, bool_decide_eq_true, !elem_of_cons, elem_of_nil.
    tauto.
  - by rewrite check_Returns, bool_decide_eq_true.
  - split; [done|tauto].
Qed.

Lemma check_items_Returns vars name (d : gmap string Z) :
  automata.check_items vars name d = automata.Returns () ↔
  ∀ k v dm, d !! k = Some v → vars !! name k = Some dm →
            automata.in_domain v dm.
Proof.
  unfold automata.check_items. rewrite for_all_Returns. split.
  - intros Hall k v dm Hk Hdm.
    specialize (Hall (k, v)). simpl in Hall. rewrite Hdm in Hall.
    apply check_value_Returns, Hall. by apply elem_of_map_to_list.
  - intros Hall [k v] Hkv%elem_of_map_to_list.
    destruct (vars !! name k) as [dm|] eqn:Hdm; [|done].
    apply check_value_Returns. eauto.
Qed.

(** X24: [TransitionSystem.assert_consistent] decides consistency.  It
    returns [True] exactly when the initial nodes are nodes, the owner
    is ["env"] or ["sys"], the environment variables are declared, and
    every node label and every edge label (primed or not) that names a
    declared variable holds a value of its domain, 0 or 1 for ["bool"]
    and a value within the bounds for a range; otherwise it raises, and
    it never returns [False].  A new [TransitionSystem()] passes. *)
Theorem transition_system_consistent {N} `{Countable N}
    (ts : automata.TransitionSystem (N:=N)) :
  (automata.assert_consistent ts = automata.Returns true
   ↔ automata.consistent ts) ∧
  automata.assert_consistent ts ≠ automata.Returns false ∧
  automata.assert_consistent (automata.new_TransitionSystem (N:=N))
    = automata.Returns true.
Proof.
  split_and!.
  - unfold automata.assert_consistent, automata.consistent,
      automata.SystemGraph_assert_consistent.
    split.
    + intros Hr.
      destruct (automata.check (bool_decide (_ ⊆ _))) as [[]|] eqn:H1 in Hr;
        [|done]. simpl in Hr.
      destruct (automata.check (bool_decide (_ ∈ _))) as [[]|] eqn:H2 in Hr;
        [|done]. simpl in Hr.
      destruct (automata.check (bool_decide (_ ⊆ _))) as [[]|] eqn:H3 in Hr;
        [|done]. simpl in Hr.
      destruct (automata.for_all _ (map_to_list _)) as [[]|] eqn:H4 in Hr;
        [|done]. simpl in Hr.
      destruct (automata.for_all _ (automata.edge _)) as [[]|] eqn:H5 in Hr;
        [|done]. clear Hr.
      apply check_Returns, bool_decide_eq_true in H1, H2, H3.
      rewrite for_all_Returns in H4. rewrite for_all_Returns in H5.
      split_and!; [done| |done| |].
      * revert H2. rewrite !elem_of_cons, elem_of_nil. tauto.
      * intros u d k v dm Hu. specialize (H4 (u, d)). simpl in H4.
        apply (check_items_Returns (automata.vars ts) id d), H4.
        by apply elem_of_map_to_list.
      * intros u v d k x dm Hin. specialize (H5 (u, v, d) Hin). simpl in H5.
        rewrite check_items_Returns in H5. apply H5.
    + intros (H1 & H2 & H3 & H4 & H5).
      rewrite (proj2 (check_Returns _)) by by apply bool_decide_eq_true.
      simpl.
      rewrite (proj2 (check_Returns _)).
      2:{ apply bool_decide_eq_true. rewrite !elem_of_cons. tauto. }
      simpl.
      rewrite (proj2 (check_Returns _)) by by apply bool_decide_eq_true.
      simpl.
      rewrite (proj2 (for_all_Returns _ _)).
      2:{ intros [u d] Hu%elem_of_map_to_list.
          apply (check_items_Returns (automata.vars ts) id d). eauto. }
      simpl.
      rewrite (proj2 (for_all_Returns _ _)); [done|].
      intros [[u v] d] Hin. apply check_items_Returns. intros k x dm.
      by apply (H5 u v d).
  - unfold automata.assert_consistent.
    repeat match goal with
           | |- automata.and_then ?m _ ≠ _ => destruct m as [[]|]; simpl
           end; done.
  - reflexivity.
Qed.

(** ** No rollback *)

Lemma keeps_bind {A B} (m : M A) (f : A → M B) :
  keeps_signature m → (∀ a, keeps_signature (f a)) →
  keeps_signature (m ≫= f).
Proof.
  intros Hm Hf aut. unfold mbind, M_bind, m_bind.
  specialize (Hm aut). destruct (m aut) as [[a| |] aut1]; simpl in *;
    [|done..].
  by rewrite Hf.
Qed.

Lemma keeps_get : keeps_signature get.
Proof. done. Qed.
Lemma keeps_run {A} (f : game → result A) : keeps_signature (run f).
Proof. done. Qed.
Lemma keeps_reads {A} (f : game → A) : keeps_signature (reads f).
Proof. done. Qed.
Lemma keeps_assert b : keeps_signature (assert b).
Proof. done. Qed.
Lemma keeps_set_action (f : game → gmap string (gset (gset string))) :
  keeps_signature (modify (λ aut, set_action (f aut) aut)).
Proof. done. Qed.
Lemma keeps_make_init counter_init W :
  keeps_signature (_make_init counter_init W).
Proof.
  intros aut. rewrite make_init_eq. case_bool_decide; [|done]. cbv zeta.
  by destruct (_ && _).
Qed.

Ltac keeps :=
  repeat first
    [ apply keeps_make_init
    | apply keeps_get | apply keeps_run | apply keeps_reads
    | apply keeps_assert | apply keeps_set_action
    | apply keeps_bind; [|intros ?]
    | progress cbv zeta
    | match goal with
      | |- keeps_signature (let '(_, _) := ?e in _) => destruct e
      end ].

Lemma make_streett_transducer_tail dv ae asm z yij xijk aut r aut' :
  is_realizable z aut = Ok true →
  make_streett_transducer dv ae asm z yij xijk aut = (r, aut') →
  let aut0 :=
    dv [("_goal", (0, Z.of_nat (length (win aut !!! "[]<>")) - 1)%Z)] aut in
  signature aut'
  = signature (set_varlist (<["sys" := varlist aut0 !!! "sys" ++ ["_goal"]]>
                              (varlist aut0)) aut0).
Proof.
  intros Hr. unfold make_streett_transducer.
  erewrite M_bind_run; [|unfold run; by rewrite Hr].
  erewrite M_bind_run; [|reflexivity].
  erewrite M_bind_run; [|reflexivity].
  erewrite M_bind_run; [|reflexivity].
  cbv zeta.
  erewrite M_bind_run; [|reflexivity].
  erewrite M_bind_run; [|reflexivity].
  intros H.
  match type of H with
  | ?m ?a = _ =>
      assert (keeps_signature m) as Hk; [|specialize (Hk a); by rewrite H in Hk]
  end.
  keeps.
Qed.

Lemma make_rabin_transducer_tail dv ae asm zk yki xkijr z aut r aut' :
  last zk = Some z → is_realizable z aut = Ok true →
  make_rabin_transducer dv ae asm zk yki xkijr aut = (r, aut') →
  let aut0 :=
    dv [("_hold", (0, Z.of_nat (length (win aut !!! "<>[]")) - 1 + 1)%Z);
        ("_goal", (0, Z.of_nat (length (win aut !!! "[]<>")) - 1)%Z)] aut in
  signature aut'
  = signature (set_varlist
                 (<["sys" := varlist aut0 !!! "sys" ++ ["_hold"; "_goal"]]>
                    (varlist aut0)) aut0).
Proof.
  intros Hl Hr. unfold make_rabin_transducer.
  erewrite M_bind_run; [|unfold run, last_item; by rewrite Hl].
  erewrite M_bind_run; [|unfold run; by rewrite Hr].
  erewrite M_bind_run; [|reflexivity].
  erewrite M_bind_run; [|reflexivity].
  erewrite M_bind_run; [|reflexivity].
  erewrite M_bind_run; [|reflexivity].
  cbv zeta.
  erewrite M_bind_run; [|reflexivity].
  erewrite M_bind_run; [|reflexivity].
  intros H.
  match type of H with
  | ?m ?a = _ =>
      assert (keeps_signature m) as Hk; [|specialize (Hk a); by rewrite H in Hk]
  end.
  keeps.
Qed.

(** X25: a transducer does not roll back.  Once the realizability
    check has passed, whatever happens next (the transducer returns, an
    assertion fails, an index is out of range, [qinit] is unknown), the
    game is left with its memory variables declared and appended to
    [varlist['sys']]: a transducer that raises after that check leaves
    a game that is not the one it was given. *)
Theorem transducers_do_not_roll_back dv ae asm z aut :
  is_realizable z aut = Ok true →
  (∀ yij xijk r aut',
     make_streett_transducer dv ae asm z yij xijk aut = (r, aut') →
     let aut0 :=
       dv [("_goal", (0, Z.of_nat (length (win aut !!! "[]<>")) - 1)%Z)]
          aut in
     varlist aut'
     = <["sys" := varlist aut0 !!! "sys" ++ ["_goal"]]> (varlist aut0) ∧
     bdd aut' = bdd aut0 ∧ vars aut' = vars aut0 ∧ win aut' = win aut0) ∧
  (∀ zk yki xkijr r aut', last zk = Some z →
     make_rabin_transducer dv ae asm zk yki xkijr aut = (r, aut') →
     let aut0 :=
       dv [("_hold", (0, Z.of_nat (length (win aut !!! "<>[]")) - 1 + 1)%Z);
           ("_goal", (0, Z.of_nat (length (win aut !!! "[]<>")) - 1)%Z)]
          aut in
     varlist aut'
     = <["sys" := varlist aut0 !!! "sys" ++ ["_hold"; "_goal"]]>
         (varlist aut0) ∧
     bdd aut' = bdd aut0 ∧ vars aut' = vars aut0 ∧ win aut' = win aut0).
Proof.
  intros Hr. split.
  - intros yij xijk r aut' H.
    apply make_streett_transducer_tail in H; [|done].
    cbv zeta in *. unfold signature in H. simpl in H.
    by injection H as -> -> -> ->.
  - intros zk yki xkijr r aut' Hl H.
    eapply make_rabin_transducer_tail in H; [|done..].
    cbv zeta in *. unfold signature in H. simpl in H.
    by injection H as -> -> -> ->.
Qed.

Lemma transducers_do_not_roll_back_witness :
  ∃ aut',
    make_streett_transducer ex_declare_variables ex_add_expr
      ex_assert_support_moore (bdd_true ex_D) [[]] [] (ex_game "\A \A")
    = (Raise IndexError, aut') ∧
    varlist aut' !! "sys" = Some ["x"; "_goal"].
Proof.
  assert (ex_transducer_index_error = true) as Hok
    by (vm_compute; reflexivity).
  unfold ex_transducer_index_error in Hok. cbv zeta in Hok.
  apply andb_prop in Hok as [Hok%bool_decide_eq_true _].
  assert (is_realizable (bdd_true ex_D) (ex_game "\A \A") = Ok true) as Hr
    by vm_decide.
  pose proof (proj1 (transducers_do_not_roll_back ex_declare_variables
    ex_add_expr ex_assert_support_moore (bdd_true ex_D) (ex_game "\A \A") Hr))
    as Hthm.
  assert (varlist (ex_game "\A \A") !!! "sys" = ["x"]) as Hsys
    by reflexivity.
  unfold ex_declare_variables in Hthm. clear Hr.
  generalize dependent (ex_game "\A \A"). intros g.
  generalize (bdd_true ex_D). intros T Hok Hthm Hsys.
  destruct (make_streett_transducer _ _ _ T _ _ g) as [r aut'] eqn:H.
  simpl in Hok. subst r. exists aut'. split; [reflexivity|].
  destruct (Hthm _ _ _ aut' H) as (Hv & _).
  rewrite Hv, Hsys. by rewrite lookup_insert_eq.
Defined.
